(** * Multiplacement: optimal placement of a chain of recognizers

    A shallow embedding of [extensions/multiplacement/src/_multiplacement.c]
    and the properties of its placement engine: the overflow-checked
    binomial coefficient, the connector scores, the recognizer scorer, the
    dynamic program and its traceback.

    Conventions of the embedding.
    - C [int] values are [Z]; the inputs are assumed small enough that [int]
      arithmetic does not wrap.  [unsigned long long] arithmetic in [bin] is
      modelled with its wrap-around modulo [2^64] written out.
    - C arrays are lists.  Reading or writing outside an array is undefined
      behaviour in C; here a read outside yields a default value and a write
      outside leaves the list unchanged.
    - [float] arithmetic is taken through the interface [FloatArith]; the
      program is written once over that interface and run on IEEE binary32
      ([Binary32]) or on exact rationals ([ExactQ]).  The promotions of
      [float] operands to [double] inside an expression are not
      distinguished from [float] arithmetic. *)

From Stdlib Require Import ZArith Lia QArith Qround Qabs SpecFloat Ascii.
From Stdlib Require Import Reals Lra ClassicalEpsilon.
From stdpp Require Import base list numbers.

#[local] Open Scope Z_scope.

(** * The program *)

(** ** [min] *)

(** [min] of the source, on [int]. *)
Definition min (n k : Z) : Z := if n >? k then k else n.

(** ** Overflow-checked binomial coefficient: [bin] *)

(** [ULONG_MAX] of [limits.h] under the LP64 data model. *)
Definition ULONG_MAX : Z := 2 ^ 64 - 1.

(** Reduction of a result to [unsigned long long]. *)
Definition ull (x : Z) : Z := x mod 2 ^ 64.

(** How the loop of [bin] is left: through [return 0] inside the loop, or
    through [return c] after it. *)
Inductive bin_exit : Type :=
  | BinOverflow
  | BinDone (c : Z).

(** The loop [for (i = 1; i <= k; i++, n--)].  Its guard holds for exactly
    the first [k] iterations, so the model recurses on the number of
    iterations left. *)
Fixpoint bin_loop (iters : nat) (c i n : Z) : bin_exit :=
  match iters with
  | O => BinDone c
  | S iters' =>
      if ULONG_MAX / n <? c / i then BinOverflow
      else bin_loop iters'
             (ull (ull (c / i * n) + ull (c mod i * n) / i))
             (ull (i + 1)) (ull (n - 1))
  end.

Definition bin_run (n k : Z) : bin_exit := bin_loop (Z.to_nat k) 1 1 n.

Definition bin (n k : Z) : Z :=
  match bin_run n k with
  | BinOverflow => 0
  | BinDone c => c
  end.

(** The mathematical binomial coefficient, by Pascal's rule. *)
Fixpoint binom (n k : nat) : Z :=
  match k, n with
  | O, _ => 1
  | S _, O => 0
  | S k', S n' => binom n' k' + binom n' k
  end.

(** Falling factorial and factorial, used to evaluate [binom] at large
    arguments. *)
Fixpoint ffact (n : Z) (k : nat) : Z :=
  match k with
  | O => 1
  | S k' => ffact n k' * (n - Z.of_nat k')
  end.

Fixpoint zfact (k : nat) : Z :=
  match k with
  | O => 1
  | S k' => zfact k' * Z.of_nat (S k')
  end.

Definition choose (n : Z) (k : nat) : Z := ffact n k / zfact k.

(** For each [i] in [2..34], the least [n] with [binom n i > ULONG_MAX]. *)
Definition thresholds : list Z :=
  [ 0; 0; 6074001001; 4801281; 145057; 18581; 4869; 1914; 968; 578; 387;
    283; 219; 178; 151; 131; 117; 106; 98; 92; 87; 83; 79; 77; 75; 73; 72;
    71; 70; 69; 69; 68; 68; 68; 68 ].

Definition threshold (i : nat) : Z := nth i thresholds 0.

(** What is checked of a threshold [t] for index [i]: below it the
    coefficient fits; at it the test of [bin] fires; from [t + 1] on the
    coefficient exceeds [ULONG_MAX] by more than [n]. *)
Definition threshold_ok (i : nat) (t : Z) : bool :=
  (Z.of_nat i <=? t - 1)
  && (choose (t - 1) i <=? ULONG_MAX)
  && (ULONG_MAX <? choose t (i - 1) / Z.of_nat i * (t - Z.of_nat i + 1))
  && (ULONG_MAX + t + 1 <=? choose (t + 1) i).

(** ** Arrays and loops *)

(** [arr[i]] as a read; outside the array the default [d]. *)
Definition rd {A : Type} (d : A) (arr : list A) (i : Z) : A :=
  if i <? 0 then d else default d (arr !! Z.to_nat i).

(** [arr[i] = x]; outside the array nothing is written. *)
Definition wr {A : Type} (arr : list A) (i : Z) (x : A) : list A :=
  if i <? 0 then arr else <[Z.to_nat i := x]> arr.

(** [for (int i = lo; i < hi; i++) body], the state threaded through. *)
Definition for_loop {St : Type} (lo hi : Z) (body : Z -> St -> St) (s : St)
  : St :=
  fold_left (fun s i => body i s) (seqZ lo (hi - lo)) s.

(** [for (int i = hi; i >= lo; i--) body]. *)
Definition for_down {St : Type} (hi lo : Z) (body : Z -> St -> St) (s : St)
  : St :=
  fold_left (fun s i => body i s) (reverse (seqZ lo (hi - lo + 1))) s.

(** ** The arithmetic of [float] *)

(** The operations the program applies to [float] values, and the functions
    of [math.h] it calls.  [flt] is C's [<] and [feq] C's [==];
    [of_int] is the conversion of an integer, [lit] the value of a decimal
    literal.  [not_nan] tells the values that take part in the order:
    everything but a NaN. *)
Class FloatArith (F : Type) : Type := {
  fadd : F -> F -> F;
  fsub : F -> F -> F;
  fdiv : F -> F -> F;
  flt : F -> F -> bool;
  feq : F -> F -> bool;
  of_int : Z -> F;
  lit : Q -> F;
  neg_infinity : F;
  fabs : F -> F;
  erff : F -> F;
  sqrtf : F -> F;
  log2f : F -> F;
  not_nan : F -> bool
}.

(** The laws of [<]: a strict order, in which any two values that are not
    NaN compare. *)
Class FloatOrder (F : Type) `{FloatArith F} : Prop := {
  flt_irrefl : forall a, flt a a = false;
  flt_trans : forall a b c, flt a b = true -> flt b c = true -> flt a c = true;
  flt_connex : forall a b c,
    not_nan a = true -> not_nan b = true -> not_nan c = true ->
    flt a c = true -> flt a b = true \/ flt b c = true
}.

(** The three output buffers of the caller. *)
Record outputs (F : Type) : Type := Outputs {
  rec_scores : list F;
  con_scores : list F;
  con_lengths : list Z
}.
Arguments Outputs {F} _ _ _.
Arguments rec_scores {F} _.
Arguments con_scores {F} _.
Arguments con_lengths {F} _.

Section Program.
Context {F : Type} `{FloatArith F}.

(** The table [NUMERATORS] is declared in [_constants.h], which is not
    part of the sources at hand; it is a parameter of the program. *)
Variable NUMERATORS : list F.

Definition fzero : F := of_int 0.

(** [PyMem_Calloc(n, sizeof(float))]. *)
Definition calloc_float (n : Z) : list F := replicate (Z.to_nat n) fzero.

(** [PyMem_Calloc(n, sizeof(int))]. *)
Definition calloc_int (n : Z) : list Z := replicate (Z.to_nat n) 0.

(** *** ScoreMath *)

Definition norm_cdf (x mu sigma : F) : F :=
  let z := fdiv (fsub x mu) (fabs sigma) in
  fdiv (fadd (of_int 1) (erff (fdiv z (sqrtf (lit 2.0))))) (lit 2.00).

Definition norm_pf (x mu sigma : F) : F :=
  if negb (feq sigma (of_int 0)) then
    fsub (norm_cdf (fadd x (lit 0.5)) mu sigma)
         (norm_cdf (fsub x (lit 0.5)) mu sigma)
  else if feq x mu then lit 1.00
  else lit 0.00.

Definition get_numerator (dna_length distance : Z) (mu sigma : F) : F :=
  let numerator := norm_pf (of_int distance) mu sigma in
  if feq sigma (lit 0.00) then numerator
  else
    let auc := fsub (norm_cdf (of_int (dna_length - 1)) mu sigma)
                    (norm_cdf (of_int 0) mu sigma) in
    let auc := if flt auc (lit 0.000001) then lit 0.000001 else auc in
    let numerator :=
      if flt numerator (lit 0.00001) then lit 0.00001 else numerator in
    fdiv numerator auc.

Definition get_denominator (d N L : Z) : F :=
  if (1 <=? d) && (d <=? L - N + 1) then
    fdiv (of_int (bin (ull (L - d)) (ull (N - 1))))
         (of_int (bin (ull L) (ull N)))
  else lit 0.0001.

Definition get_score (arr : list F)
    (dna_length effective_length num_rec gap_size max_length curr_conn : Z)
    (is_precomputed : bool) : F :=
  if negb is_precomputed then
    log2f (fdiv (get_numerator dna_length gap_size
                   (rd fzero arr (curr_conn * 2))
                   (rd fzero arr (curr_conn * 2 + 1)))
                (get_denominator (gap_size + 1) num_rec effective_length))
  else
    fsub (log2f (rd fzero arr (curr_conn * max_length + gap_size)))
      (fsub
         (fsub
            (fsub (rd fzero NUMERATORS ((effective_length - (gap_size + 1)) - 1))
                  (rd fzero NUMERATORS ((num_rec - 1) - 1)))
            (rd fzero NUMERATORS
               (effective_length - (gap_size + 1) - (num_rec - 1) - 1)))
         (fsub
            (fsub (rd fzero NUMERATORS (effective_length - 1))
                  (rd fzero NUMERATORS (num_rec - 1)))
            (rd fzero NUMERATORS (effective_length - num_rec - 1)))).

(** *** OffsetGeometry *)

Definition get_forward_offset (index : Z) (cols : list Z) (num_rec : Z) : Z :=
  for_loop 0 index (fun i offset => offset + rd 0 cols i) 0.

Definition get_reverse_offset (index : Z) (cols : list Z) (num_rec : Z) : Z :=
  for_down (num_rec - 1) index (fun i offset => offset + rd 0 cols i) 0 - 1.

(** *** Arg-max *)

Definition max_index (arr : list F) (size : Z) : Z :=
  for_loop 0 size
    (fun i max_index =>
       if flt (rd fzero arr max_index) (rd fzero arr i) then i else max_index)
    0.

(** *** TracebackReconstructor *)

Definition traceback (num_rec len_seq : Z) (con_matrices rec_score_matrix : list F)
    (num_alignments : Z) (rec_alignments : list F) (con_alignments : list Z)
    (out : outputs F) (max_seq_len effective_len : Z) (is_precomputed : bool)
    : outputs F :=
  let index := max_index rec_alignments num_alignments in
  let con_lengths :=
    wr (con_lengths out) (num_rec - 1)
       (rd 0 con_alignments ((num_rec - 2) * num_alignments + index)) in
  let rec_scores := wr (rec_scores out) num_rec (rd fzero rec_alignments index) in
  let '(con_lengths, index) :=
    for_down (num_rec - 3) 0
      (fun i '(con_lengths, index) =>
         let con_lengths :=
           wr con_lengths (i + 1)
              (rd 0 con_alignments
                  (i * num_alignments + index - rd 0 con_lengths (i + 2))) in
         (con_lengths, index - rd 0 con_lengths (i + 2)))
      (con_lengths, index) in
  let con_lengths := wr con_lengths 0 (index - rd 0 con_lengths 1) in
  let con_scores :=
    for_loop 0 (num_rec - 1)
      (fun i con_scores =>
         wr con_scores i
            (get_score con_matrices len_seq effective_len num_rec
                       (rd 0 con_lengths (i + 1)) max_seq_len i is_precomputed))
      (con_scores out) in
  let '(rec_scores, _) :=
    for_loop 0 num_rec
      (fun i '(rec_scores, gapOffset) =>
         let gapOffset := gapOffset + rd 0 con_lengths i in
         (wr rec_scores i (rd fzero rec_score_matrix (i * num_alignments + gapOffset)),
          gapOffset))
      (rec_scores, 0) in
  Outputs rec_scores con_scores con_lengths.

(** *** PlacementSolver *)

(** The scratch arrays of [fill_traceback_matrix]. *)
Record dp_state : Type := DpState {
  alignments : list F;
  gap_alignments : list Z;
  temp_max_scores : list F;
  temp_gap_lengths : list Z
}.

Section Stage.
Variables (score_matrix gapMatrix : list F).
Variables (num_alignments num_rec len_seq effective_length max_length : Z).
Variable is_precomputed : bool.

(** The score tried in the body of the innermost loop. *)
Definition candidate (alignments : list F) (i j k : Z) : F :=
  let gap_length := j - k in
  let temp_gap_score :=
    get_score gapMatrix len_seq effective_length num_rec gap_length
              max_length (i - 1) is_precomputed in
  fadd (fadd (rd fzero alignments k) temp_gap_score)
       (rd fzero score_matrix (i * num_alignments + j)).

(** Body of [for (int k = 0; k <= j; k++)]. *)
Definition dp_try (i j k : Z) (st : dp_state) : dp_state :=
  let gap_length := j - k in
  if k =? 0 then
    DpState (alignments st) (gap_alignments st)
            (wr (temp_max_scores st) j (candidate (alignments st) i j k))
            (wr (temp_gap_lengths st) j gap_length)
  else if flt (rd fzero (temp_max_scores st) j)
              (candidate (alignments st) i j k) then
    DpState (alignments st) (gap_alignments st)
            (wr (temp_max_scores st) j (candidate (alignments st) i j k))
            (wr (temp_gap_lengths st) j gap_length)
  else st.

(** Body of [for (int l = 0; l < num_alignments; l++)]. *)
Definition dp_commit (i l : Z) (st : dp_state) : dp_state :=
  DpState (wr (alignments st) l (rd fzero (temp_max_scores st) l))
          (wr (gap_alignments st) ((i - 1) * num_alignments + l)
              (rd 0 (temp_gap_lengths st) l))
          (wr (temp_max_scores st) l neg_infinity)
          (wr (temp_gap_lengths st) l 0).

(** Body of [for (int i = 1; i < num_rec; i++)]. *)
Definition dp_stage (i : Z) (st : dp_state) : dp_state :=
  let st :=
    for_loop 0 num_alignments
      (fun j st => for_loop 0 (j + 1) (fun k st => dp_try i j k st) st) st in
  for_loop 0 num_alignments (fun l st => dp_commit i l st) st.

(** The state before the first stage: both score rows hold row 0 of the
    score matrix. *)
Definition dp_init : dp_state :=
  for_loop 0 num_alignments
    (fun i st =>
       DpState (wr (alignments st) i (rd fzero score_matrix i))
               (gap_alignments st)
               (wr (temp_max_scores st) i (rd fzero score_matrix i))
               (temp_gap_lengths st))
    (DpState (calloc_float num_alignments)
             (calloc_int (num_alignments * (num_rec - 1)))
             (calloc_float num_alignments)
             (calloc_int num_alignments)).

Definition dp_run : dp_state := for_loop 1 num_rec dp_stage dp_init.
End Stage.

Definition fill_traceback_matrix (score_matrix : list F) (num_alignments : Z)
    (gapMatrix : list F) (cols : list Z) (num_rec len_seq : Z)
    (out : outputs F) (max_length : Z) (is_precomputed : bool) : outputs F :=
  let sum_of_lengths := for_loop 0 num_rec (fun i s => s + rd 0 cols i) 0 in
  let effective_length := len_seq - sum_of_lengths in
  let st := dp_run score_matrix gapMatrix num_alignments num_rec len_seq
                   effective_length max_length is_precomputed in
  traceback num_rec len_seq gapMatrix score_matrix num_alignments
            (alignments st) (gap_alignments st) out max_length
            effective_length is_precomputed.

(** *** RecognizerScorer *)

(** The [switch] on [seq[j + k]]: the column of the base in the
    recognizer's row, added to the running score; any other symbol leaves
    the score as it is. *)
Definition add_base (pssm : list F) (row : Z) (c : ascii) (score : F) : F :=
  match c with
  | "A"%char | "a"%char => fadd score (rd fzero pssm (row * 4 + 0))
  | "G"%char | "g"%char => fadd score (rd fzero pssm (row * 4 + 1))
  | "C"%char | "c"%char => fadd score (rd fzero pssm (row * 4 + 2))
  | "T"%char | "t"%char => fadd score (rd fzero pssm (row * 4 + 3))
  | _ => score
  end.

(** The score of recognizer [i] placed at [j]: the loop over [k]. *)
Definition window_score (seq : list ascii) (pssm : list F) (cols : list Z)
    (i forward_offset j : Z) : F :=
  for_loop 0 (rd 0 cols i)
    (fun k score => add_base pssm (forward_offset + k) (rd zero seq (j + k)) score)
    fzero.

Definition fill_matrix (seq : list ascii) (len_seq : Z) (pssm : list F)
    (cols : list Z) (num_rec : Z) (score_matrix : list F) (num_alignments : Z)
    : list F :=
  for_loop 0 num_rec
    (fun i score_matrix =>
       let forward_offset := get_forward_offset i cols num_rec in
       let reverse_offset := get_reverse_offset i cols num_rec in
       for_loop forward_offset (len_seq - reverse_offset)
         (fun j score_matrix =>
            wr score_matrix (i * num_alignments + j - forward_offset)
               (window_score seq pssm cols i forward_offset j))
         score_matrix)
    score_matrix.

(** *** The entry point *)

(** [py_calculate] after the arguments are parsed.  [sequence] is the byte
    string, [con_matrices] the flattened connector data, whose length
    stands for [con_matrices.shape[0]]. *)
Definition py_calculate (seq : list ascii) (rec_matrices : list F)
    (rec_lengths : list Z) (con_matrices : list F) (out : outputs F)
    (max_length : Z) : outputs F :=
  let len_seq := Z.of_nat (length seq) in
  let num_rec := Z.of_nat (length rec_lengths) in
  let forward_offset := get_forward_offset 0 rec_lengths num_rec in
  let reverse_offset := get_reverse_offset 0 rec_lengths num_rec in
  let num_alignments := len_seq - forward_offset - reverse_offset in
  let score_matrix :=
    fill_matrix seq len_seq rec_matrices rec_lengths num_rec
                (calloc_float (num_alignments * num_rec)) num_alignments in
  let is_precomputed :=
    negb (Z.of_nat (length con_matrices) =? (num_rec - 1) * 2) in
  if num_rec =? 1 then
    let con_lengths :=
      wr (con_lengths out) 0
         (max_index score_matrix (len_seq - forward_offset - reverse_offset)) in
    let rec_scores :=
      wr (rec_scores out) 0 (rd fzero score_matrix (rd 0 con_lengths 0)) in
    let con_scores := wr (con_scores out) 0 (lit 0.00) in
    Outputs rec_scores con_scores con_lengths
  else
    fill_traceback_matrix score_matrix num_alignments con_matrices rec_lengths
                          num_rec len_seq out max_length is_precomputed.
End Program.

(** ** Two arithmetics for the program *)

(** *** Rational approximations of the [math.h] functions

    [erff] and [log2f] have no closed form; the two instances below run
    the program with these approximations, which are exact where the
    functions take rational values the program relies on (elsewhere they
    are evaluated in fixed point, to some 60 binary digits): [erf] is [0] at
    [0] and is taken as [1] or [-1] from [4] on (closer to [1] than half a
    binary32 unit in the last place), and [log2] is exact on the powers of
    two. *)

Definition Qtrunc (bits : positive) (x : Q) : Q :=
  Qred (Qmake (Qfloor (x * inject_Z (2 ^ Zpos bits))) (2 ^ bits)).

Fixpoint erf_series (fuel : nat) (n : Z) (term x2 acc : Q) : Q :=
  match fuel with
  | O => acc
  | S fuel' =>
      erf_series fuel' (n + 1)
        (Qtrunc 80 (- (term * x2) / inject_Z (n + 1))) x2
        (Qtrunc 80 (acc + term / inject_Z (2 * n + 1)))
  end.

Definition two_over_sqrt_pi : Q := 1.1283791670955126%Q.

Definition erf_approx (x : Q) : Q :=
  if Qle_bool 4 x then 1%Q
  else if Qle_bool x (-4) then (-1)%Q
  else
    let x := Qtrunc 40 x in
    Qtrunc 60 (two_over_sqrt_pi * erf_series 90 0 x (x * x) 0).

Fixpoint atanh_series (fuel : nat) (n : Z) (pow t2 acc : Q) : Q :=
  match fuel with
  | O => acc
  | S fuel' =>
      atanh_series fuel' (n + 1) (Qtrunc 80 (pow * t2)) t2
        (Qtrunc 80 (acc + pow / inject_Z (2 * n + 1)))
  end.

Definition ln_2 : Q := 0.6931471805599453%Q.

(** [log2 x] for [0 < x]. *)
Definition log2_approx (x : Q) : Q :=
  let e := Z.log2 (Qnum x) - Z.log2 (Zpos (Qden x)) in
  let m := Qtrunc 60 (x / Qpower 2 e) in
  let t := Qtrunc 80 ((m - 1) / (m + 1)) in
  Qred (inject_Z e + Qtrunc 60 (2 * atanh_series 30 0 t (t * t) 0 / ln_2)).

Definition sqrt_approx (x : Q) : Q :=
  Qred (Qmake (Z.sqrt (Qnum x * Zpos (Qden x) * 4 ^ 40)) (Qden x * 2 ^ 40)).

(** *** Exact rational arithmetic

    No rounding, no infinities and no NaN: division by zero yields [0],
    and [-INFINITY] and the logarithm of a non-positive number are
    represented by a number below every binary32 value. *)
Module ExactQ.
Definition minus_inf : Q := inject_Z (- 2 ^ 129).

#[global] Instance arith : FloatArith Q := {|
  fadd a b := Qred (a + b);
  fsub a b := Qred (a - b);
  fdiv a b := Qred (a / b);
  flt a b := negb (Qle_bool b a);
  feq a b := Qeq_bool a b;
  of_int z := inject_Z z;
  lit q := Qred q;
  neg_infinity := minus_inf;
  fabs a := Qred (Qabs a);
  erff := erf_approx;
  sqrtf := sqrt_approx;
  log2f a := if Qle_bool a 0 then minus_inf else log2_approx a;
  not_nan _ := true
|}.
End ExactQ.

(** *** Exact real arithmetic

    The arithmetic in which the two connector scores are compared: real
    numbers with the real logarithm.  [erf] is taken as the antiderivative
    of [2/sqrt(pi) * exp(-x^2)] that vanishes at [0]; there are no
    infinities, [-INFINITY] is represented as in [ExactQ]. *)
Module ExactR.
Definition log2 (x : R) : R := (ln x / ln 2)%R.

Definition erf : R -> R :=
  epsilon (inhabits (fun _ : R => 0%R))
    (fun f => f 0%R = 0%R
              /\ forall x : R,
                   derivable_pt_lim f x (2 / sqrt PI * exp (- (x * x)))%R).

#[global] Instance arith : FloatArith R := {|
  fadd := Rplus;
  fsub := Rminus;
  fdiv := Rdiv;
  flt a b := if Rlt_dec a b then true else false;
  feq a b := if Req_dec_T a b then true else false;
  of_int := IZR;
  lit := Q2R;
  neg_infinity := IZR (- 2 ^ 129);
  fabs := Rabs;
  erff := erf;
  sqrtf := sqrt;
  log2f := log2;
  not_nan _ := true
|}.

(** Modelled from the spec: the table [NUMERATORS] of [_constants.h], which
    is not part of the sources at hand; the precomputed log-binomial
    values, entry [m - 1] being [log2 (m!)], here with [n] entries. *)
Definition numerators (n : nat) : list R :=
  map (fun m : nat => log2 (IZR (zfact (S m)))) (seq 0 n).
End ExactR.

(** *** IEEE 754 binary32

    The [float] of the C program: 24 bits of precision, round to nearest
    even, with signed zeros, infinities and NaN, as specified by
    [SpecFloat]. *)
Module Binary32.
Definition prec : Z := 24.
Definition emax : Z := 128.

Definition of_Z (z : Z) : spec_float := binary_normalize prec emax z 0 false.

(** The value of a finite float. *)
Definition to_Q (x : spec_float) : Q :=
  match x with
  | S754_finite s m e =>
      Qred (inject_Z (if s then Zneg m else Zpos m) * Qpower 2 e)
  | _ => 0%Q
  end.

(** Rounding of a rational: 65 bits of the quotient and a sticky bit are
    handed to [binary_normalize]. *)
Definition of_Q (q : Q) : spec_float :=
  let n := Z.abs (Qnum q) in
  let d := Zpos (Qden q) in
  if n =? 0 then S754_zero false
  else
    let k := Z.max 0 (65 + Z.log2 d - Z.log2 n) in
    let qz := (n * 2 ^ k) / d in
    let sticky := if (n * 2 ^ k) mod d =? 0 then 0 else 1 in
    let mant := 2 * qz + sticky in
    binary_normalize prec emax (if Qnum q <? 0 then - mant else mant)
                     (- k - 1) false.

Definition erff32 (x : spec_float) : spec_float :=
  match x with
  | S754_nan => S754_nan
  | S754_zero s => S754_zero s
  | S754_infinity s => of_Z (if s then -1 else 1)
  | S754_finite _ _ _ => of_Q (erf_approx (to_Q x))
  end.

Definition log2f32 (x : spec_float) : spec_float :=
  match x with
  | S754_nan => S754_nan
  | S754_zero _ => S754_infinity true
  | S754_infinity s => if s then S754_nan else x
  | S754_finite s _ _ => if s then S754_nan else of_Q (log2_approx (to_Q x))
  end.

(** Modelled from the spec: the table [NUMERATORS] of [_constants.h], which
    is not part of the sources at hand; the precomputed log-binomial
    values, entry [m - 1] being [log2 (m!)] rounded, here with [n]
    entries.  [m] is the next factor and [acc] is [log2 ((m - 1)!)]. *)
Fixpoint numerators_from (n : nat) (m : Z) (acc : Q) : list spec_float :=
  match n with
  | O => []
  | S n' =>
      let acc' := Qred (acc + log2_approx (inject_Z m)) in
      of_Q acc' :: numerators_from n' (m + 1) acc'
  end.

Definition numerators (n : nat) : list spec_float := numerators_from n 1 0.

Definition is_nan (x : spec_float) : bool :=
  match x with
  | S754_nan => true
  | _ => false
  end.

(** A zero or a finite value: neither a NaN nor an infinity. *)
Definition is_finite (x : spec_float) : bool :=
  match x with
  | S754_zero _ | S754_finite _ _ _ => true
  | _ => false
  end.

(** The place of a value that is not a NaN in the order of [SFcompare]:
    by sign class, then exponent, then mantissa. *)
Definition order_key (x : spec_float) : Z * Z * Z :=
  match x with
  | S754_infinity true => (0, 0, 0)
  | S754_finite true m e => (1, - e, Zneg m)
  | S754_zero _ | S754_nan => (2, 0, 0)
  | S754_finite false m e => (3, e, Zpos m)
  | S754_infinity false => (4, 0, 0)
  end.

Definition key_lt (a b : Z * Z * Z) : Prop :=
  a.1.1 < b.1.1
  \/ (a.1.1 = b.1.1 /\ (a.1.2 < b.1.2 \/ (a.1.2 = b.1.2 /\ a.2 < b.2))).

#[global] Instance arith : FloatArith spec_float := {|
  fadd := SFadd prec emax;
  fsub := SFsub prec emax;
  fdiv := SFdiv prec emax;
  flt := SFltb;
  feq := SFeqb;
  of_int := of_Z;
  lit q := SFdiv prec emax (of_Z (Qnum q)) (of_Z (Zpos (Qden q)));
  neg_infinity := S754_infinity true;
  fabs := SFabs;
  erff := erff32;
  sqrtf := SFsqrt prec emax;
  log2f := log2f32;
  not_nan x := negb (is_nan x)
|}.
End Binary32.

(** ** Notions used to state the properties *)

(** The upper-case form of a letter. *)
Definition to_upper (c : ascii) : ascii :=
  let n := nat_of_ascii c in
  if (97 <=? n)%nat && (n <=? 122)%nat then ascii_of_nat (n - 32) else c.

(** The column of a base in a recognizer's row, in the order A, G, C, T,
    whatever its case; no column for any other symbol. *)
Definition base_column (c : ascii) : option Z :=
  match to_upper c with
  | "A"%char => Some 0
  | "G"%char => Some 1
  | "C"%char => Some 2
  | "T"%char => Some 3
  | _ => None
  end.

(** Sum of the entries [lo .. hi - 1] of an array of integers. *)
Definition sum_range (l : list Z) (lo hi : Z) : Z :=
  for_loop lo hi (fun i s => s + rd 0 l i) 0.

Section Notions.
Context {F : Type} `{FloatArith F}.

(** [m] is a position below [n] at which [f] is not exceeded. *)
Definition is_argmax (f : Z -> F) (n m : Z) : Prop :=
  0 <= m < n /\ forall q, 0 <= q < n -> flt (f m) (f q) = false.

(** Every position before [m] is strictly worse than [m]. *)
Definition is_first (f : Z -> F) (m : Z) : Prop :=
  forall q, 0 <= q < m -> flt (f q) (f m) = true.

(** The running arg-max both [max_index] and the innermost loop of the
    dynamic program keep: a later position replaces the current one only
    if it is strictly better. *)
Definition first_argmax (f : Z -> F) (n : Z) : Z :=
  for_loop 0 n (fun k m => if flt (f m) (f k) then k else m) 0.

(** [rs[0] + cs[0] + rs[1] + cs[1] + ... + rs[n-1]], added from left to
    right in the order of the placement. *)
Definition placement_sum (rs cs : list F) (n : Z) : F :=
  for_loop 1 n
    (fun i acc => fadd (fadd acc (rd fzero cs (i - 1))) (rd fzero rs i))
    (rd fzero rs 0).

(** [l[lo] + l[lo+1] + ... + l[hi-1]], added from left to right. *)
Definition fsum (l : list F) (lo hi : Z) : F :=
  for_loop (lo + 1) hi (fun i acc => fadd acc (rd fzero l i)) (rd fzero l lo).
End Notions.


Section DpNotions.
Context {F : Type} `{FloatArith F}.
Variables (NUMERATORS score_matrix gapMatrix : list F).
Variables (num_alignments num_rec len_seq effective_length max_length : Z).
Variable is_precomputed : bool.

(** The state of the dynamic program after the stages [1 .. i]. *)
Definition dp_after (i : Z) : dp_state :=
  for_loop 1 (i + 1)
    (dp_stage NUMERATORS score_matrix gapMatrix num_alignments num_rec len_seq
              effective_length max_length is_precomputed)
    (dp_init score_matrix num_alignments num_rec).

(** The sizes of the four scratch arrays. *)
Definition dp_sized (st : @dp_state F) : Prop :=
  Z.of_nat (length (alignments st)) = num_alignments
  /\ Z.of_nat (length (temp_max_scores st)) = num_alignments
  /\ Z.of_nat (length (temp_gap_lengths st)) = num_alignments
  /\ Z.of_nat (length (gap_alignments st)) = num_alignments * (num_rec - 1).

(** The starting position that stage [i] keeps for the ending position
    [j], given the cumulative table of the stage before. *)
Definition dp_best (table : list F) (i j : Z) : Z :=
  first_argmax
    (candidate NUMERATORS score_matrix gapMatrix num_alignments num_rec len_seq
               effective_length max_length is_precomputed table i j)
    (j + 1).

(** The way back through the gap-choice table from the ending position
    [pN] of the last recognizer: the position of recognizer
    [num_rec - 1 - d]. *)
Fixpoint trace_pos (gaps : list Z) (pN : Z) (d : nat) : Z :=
  match d with
  | O => pN
  | S d' =>
      let p := trace_pos gaps pN d' in
      p - rd 0 gaps ((num_rec - 1 - Z.of_nat d' - 1) * num_alignments + p)
  end.

(** The reading of the tie-break under which, of two starting positions
    with equal best scores, the one with the smaller gap is recorded. *)
Definition smaller_gap_wins_ties : Prop :=
  forall i j k1 k2,
    1 <= i < num_rec -> 0 <= j < num_alignments -> 0 <= k1 -> k1 < k2 <= j ->
    let table := alignments (dp_after (i - 1)) in
    let cand :=
      candidate NUMERATORS score_matrix gapMatrix num_alignments num_rec
                len_seq effective_length max_length is_precomputed table i j in
    cand k1 = cand k2 ->
    (forall q, 0 <= q <= j -> flt (cand k1) (cand q) = false) ->
    rd 0 (gap_alignments (dp_after i)) ((i - 1) * num_alignments + j) <= j - k2.
End DpNotions.

(** ** Notions used to state the further properties *)

(** Two more laws of [<] and [+]: a comparison that holds involves no NaN,
    and adding the same value on the right of both sides of [a >= b] (read
    as "not [a < b]") keeps it.  Exact arithmetic has both. *)
Class FloatMonotone (F : Type) `{FloatOrder F} : Prop := {
  flt_defined : forall a b,
    flt a b = true -> not_nan a = true /\ not_nan b = true;
  fadd_mono : forall a b c,
    flt a b = false -> flt (fadd a c) (fadd b c) = false
}.

Section ChainNotions.
Context {F : Type} `{FloatArith F}.
Variables (NUMERATORS score_matrix gapMatrix : list F).
Variables (num_alignments num_rec len_seq effective_length max_length : Z).
Variable is_precomputed : bool.

(** The score of the first [n] recognizers placed at the columns [p 0],
    ..., [p (n - 1)] of the score matrix, with the connector scores of the
    gaps between them, added from left to right in the order in which the
    dynamic program adds them. *)
Definition chain_score (p : Z -> Z) (n : Z) : F :=
  for_loop 1 n
    (fun i acc =>
       fadd (fadd acc
               (get_score NUMERATORS gapMatrix len_seq effective_length num_rec
                          (p i - p (i - 1)) max_length (i - 1) is_precomputed))
            (rd fzero score_matrix (i * num_alignments + p i)))
    (rd fzero score_matrix (p 0)).
End ChainNotions.

(** The denominators of the gaps [d = 1 .. L - N + 1], added from left to
    right. *)
Definition denominator_mass {F : Type} `{FloatArith F} (N L : Z) : F :=
  for_loop 2 (L - N + 2) (fun d acc => fadd acc (get_denominator d N L))
           (get_denominator 1 N L).

(** The sum of the floats [l[lo], ..., l[hi - 1]] as a rational number,
    with no rounding. *)
Definition exact_sum (l : list spec_float) (lo hi : Z) : Q :=
  for_loop lo hi (fun i acc => Qred (acc + Binary32.to_Q (rd fzero l i))) 0%Q.

(** The reading of the sum of the reported scores with a fixed tolerance:
    the [n] recognizer scores and the [n - 1] connector scores in the
    output buffers add up, as numbers, to the optimum in slot [n], within
    [tol]. *)
Definition scores_sum_within (tol : Q) (out : outputs spec_float) (n : Z)
  : Prop :=
  (Qabs (exact_sum (rec_scores out) 0 n + exact_sum (con_scores out) 0 (n - 1)
         - Binary32.to_Q (rd fzero (rec_scores out) n)) <= tol)%Q.

(** A binary32 value that is a zero or a finite value of magnitude below
    [2 ^ K]. *)
Definition below_pow2 (K : Z) (x : spec_float) : bool :=
  match x with
  | S754_zero _ => true
  | S754_finite _ m e => Zpos (digits2_pos m) + e <=? K
  | _ => false
  end.

(** A bound on the magnitudes of [erf_series] for an argument [x] with
    [x * x <= 16]: [bt] bounds the current term and [ba] the sum so far;
    each truncation adds at most [1]. *)
Fixpoint erf_series_bound (fuel : nat) (n : Z) (bt ba : Q) : Q :=
  match fuel with
  | O => ba
  | S fuel' =>
      erf_series_bound fuel' (n + 1)
        (Qred (bt * 16 / inject_Z (n + 1) + 1))
        (Qred (ba + bt / inject_Z (2 * n + 1) + 1))
  end.

(** ** Inputs on which the program is run below *)

Module Example.
(** One recognizer of width 2 that scores [C] then [G], on [ACGTCG]. *)
Definition seq1 : list ascii := ["A"; "C"; "G"; "T"; "C"; "G"]%char.

Definition pssm1 : list spec_float :=
  map Binary32.of_Z [0; 0; 1; 0;  0; 1; 0; 0].

Definition out1 : outputs spec_float :=
  Outputs (map Binary32.of_Z [0; 0]) (map Binary32.of_Z [0]) [0].

(** Two recognizers of width 1 that both score [A], on [AAA], with a
    statistical connector of mean 100 and deviation 1. *)
Definition seq2 : list ascii := ["A"; "A"; "A"]%char.

Definition pssm2 : list spec_float :=
  map Binary32.of_Z [1; 0; 0; 0;  1; 0; 0; 0].

Definition con2 : list spec_float := map Binary32.of_Z [100; 1].

Definition sm2 : list spec_float :=
  fill_matrix seq2 3 pssm2 [1; 1] 2 (calloc_float (2 * 2)) 2.

Definition out2 : outputs spec_float :=
  Outputs (map Binary32.of_Z [0; 0; 0]) (map Binary32.of_Z [0]) [0; 0].

(** Twenty recognizers with an effective length of 90: one statistical
    connector of mean 0 and deviation 0, and the lookup table derived from
    it for the gaps 0 to 3. *)
Definition stat4 : list spec_float := map Binary32.of_Z [0; 0].

Definition pre4 : list spec_float :=
  map (fun gap => get_numerator 200 gap (Binary32.of_Z 0) (Binary32.of_Z 0))
      [0; 1; 2; 3].

(** Two recognizers with an effective length of 4 over the reals: one
    statistical connector of mean 1 and deviation 0, and the lookup table
    derived from it. *)
Definition stat5 : list R := [1%R; 0%R].

Definition pre5 : list R :=
  map (fun gap => get_numerator 6 gap 1%R 0%R) [0; 1; 2; 3].

(** The same two recognizers on [AAA] in exact arithmetic, with a connector
    of mean 1 and deviation 0. *)
Definition pssm3 : list Q := map inject_Z [1; 0; 0; 0;  1; 0; 0; 0].

Definition con3 : list Q := map inject_Z [1; 0].

Definition out3 : outputs Q :=
  Outputs (map inject_Z [0; 0; 0]) (map inject_Z [0]) [0; 0].

(** A score matrix of two rows and two columns whose first entry is a
    NaN. *)
Definition sm_nan : list spec_float :=
  [S754_nan; Binary32.of_Z 0; Binary32.of_Z 1; Binary32.of_Z 2].

(** [ACGTCG] with some letters in lower case. *)
Definition seq1_mixed : list ascii := ["a"; "C"; "g"; "T"; "c"; "G"]%char.

(** Output buffers with one slot more than a single recognizer needs. *)
Definition out4 : outputs spec_float :=
  Outputs (map Binary32.of_Z [7; 7; 7]) (map Binary32.of_Z [7; 7]) [7; 7].

(** Two recognizers of width 1 that score [A] with [8192] and [-8192], on
    [AA], where they have one placement. *)
Definition seq_aa : list ascii := ["A"; "A"]%char.

Definition pssm_big : list spec_float :=
  map Binary32.of_Z [8192; 0; 0; 0;  -8192; 0; 0; 0].
End Example.

(** * Properties *)

(** ** Facts on [binom] *)

Lemma zfact_pos k : 0 < zfact k.
Proof. induction k as [|k IH]; simpl; lia. Qed.

Lemma ffact_zero k : ffact 0 (S k) = 0.
Proof. induction k as [|k IH]; [reflexivity|]. simpl in *. rewrite IH. lia. Qed.

Lemma ffact_shift n k : ffact (n + 1) (S k) = (n + 1) * ffact n k.
Proof.
  induction k as [|k IH]; [simpl; lia|].
  change (ffact (n + 1) (S (S k)))
    with (ffact (n + 1) (S k) * (n + 1 - Z.of_nat (S k))).
  rewrite IH. simpl ffact. lia.
Qed.

Lemma binom_fact n k : binom n k * zfact k = ffact (Z.of_nat n) k.
Proof.
  revert k. induction n as [|n IH]; intros [|k]; try reflexivity.
  - rewrite ffact_zero. reflexivity.
  - change (binom (S n) (S k)) with (binom n k + binom n (S k)).
    replace (Z.of_nat (S n)) with (Z.of_nat n + 1) by lia.
    rewrite ffact_shift, Z.mul_add_distr_r, (IH (S k)).
    change (zfact (S k)) with (zfact k * Z.of_nat (S k)).
    rewrite Z.mul_assoc, (IH k). simpl ffact. lia.
Qed.

Lemma binom_choose n k : binom n k = choose (Z.of_nat n) k.
Proof.
  unfold choose. rewrite <- binom_fact.
  symmetry. apply Z.div_mul. pose proof (zfact_pos k). lia.
Qed.

Lemma binom_nonneg n k : 0 <= binom n k.
Proof.
  revert k. induction n as [|n IH]; intros [|k]; simpl; try lia.
  pose proof (IH k). pose proof (IH (S k)). lia.
Qed.

Lemma binom_pos n k : (k <= n)%nat -> 1 <= binom n k.
Proof.
  revert k. induction n as [|n IH]; intros [|k] Hk; simpl; try lia.
  pose proof (IH k ltac:(lia)). pose proof (binom_nonneg n (S k)). lia.
Qed.

Lemma binom_gt n k : (n < k)%nat -> binom n k = 0.
Proof.
  revert k. induction n as [|n IH]; intros [|k] Hk; simpl; try lia.
  rewrite !IH by lia. reflexivity.
Qed.

Lemma binom_0 n : binom n 0 = 1.
Proof. destruct n; reflexivity. Qed.

Lemma binom_1 n : binom n 1 = Z.of_nat n.
Proof. induction n as [|n IH]; [reflexivity|]. simpl binom. destruct n; simpl in *; lia. Qed.

Lemma binom_diag n : binom n n = 1.
Proof.
  induction n as [|n IH]; [reflexivity|].
  simpl. rewrite IH, binom_gt by lia. reflexivity.
Qed.

(** [C(n,k+1) * (k+1) = C(n,k) * (n-k)]: one step of the multiplicative
    formula that [bin] iterates. *)
Lemma binom_step n k :
  binom n (S k) * Z.of_nat (S k) = binom n k * (Z.of_nat n - Z.of_nat k).
Proof.
  apply (Z.mul_reg_r _ _ (zfact k)); [pose proof (zfact_pos k); lia|].
  transitivity (binom n (S k) * zfact (S k)); [simpl zfact; lia|].
  rewrite binom_fact. simpl ffact. rewrite <- binom_fact. lia.
Qed.

Lemma binom_succ_le n k : binom n k <= binom (S n) k.
Proof.
  destruct k as [|k]; [destruct n; simpl; lia|].
  change (binom (S n) (S k)) with (binom n k + binom n (S k)).
  pose proof (binom_nonneg n k). lia.
Qed.

Lemma binom_mono_n n m k : (n <= m)%nat -> binom n k <= binom m k.
Proof.
  induction 1 as [|m _ IH]; [lia|].
  pose proof (binom_succ_le m k). lia.
Qed.

Lemma binom_incr n k : (2 * k + 1 <= n)%nat -> binom n k <= binom n (S k).
Proof.
  intros Hk. pose proof (binom_step n k) as Hs.
  pose proof (binom_nonneg n k) as Hb.
  apply (Z.mul_le_mono_pos_r _ _ (Z.of_nat (S k))); [lia|].
  rewrite Hs. transitivity (binom n k * Z.of_nat (S k)); [lia|].
  apply Z.mul_le_mono_nonneg_l; lia.
Qed.

Lemma binom_mono_k n k1 k2 :
  (k1 <= k2)%nat -> (2 * k2 <= n)%nat -> binom n k1 <= binom n k2.
Proof.
  induction 1 as [|k2 _ IH]; [lia|]. intros Hn.
  pose proof (binom_incr n k2 ltac:(lia)). lia.
Qed.

(** Where the coefficient still grows, the index is in the first half. *)
Lemma binom_growing n k :
  binom n k < binom n (S k) -> (2 * k + 1 < n)%nat.
Proof.
  intros Hlt. pose proof (binom_step n k) as Hs.
  pose proof (binom_nonneg n k).
  destruct (decide (2 * k + 1 < n)%nat) as [|Hn]; [done|]. exfalso.
  assert (binom n k * (Z.of_nat n - Z.of_nat k) <= binom n k * Z.of_nat (S k))
    by (apply Z.mul_le_mono_nonneg_l; lia).
  assert (binom n k * Z.of_nat (S k) < binom n (S k) * Z.of_nat (S k))
    by (apply Z.mul_lt_mono_pos_r; lia).
  lia.
Qed.

Lemma ffact_fact n k : (k <= n)%nat -> ffact (Z.of_nat n) k * zfact (n - k) = zfact n.
Proof.
  induction k as [|k IH]; intros Hk.
  - simpl. rewrite Nat.sub_0_r. lia.
  - simpl ffact. rewrite <- IH by lia.
    replace (n - k)%nat with (S (n - S k)) by lia.
    change (zfact (S (n - S k))) with (zfact (n - S k) * Z.of_nat (S (n - S k))).
    replace (Z.of_nat (S (n - S k))) with (Z.of_nat n - Z.of_nat k) by lia.
    ring.
Qed.

Lemma binom_sym n k : (k <= n)%nat -> binom n k = binom n (n - k).
Proof.
  intros Hk.
  apply (Z.mul_reg_r _ _ (zfact k * zfact (n - k))).
  { pose proof (zfact_pos k). pose proof (zfact_pos (n - k)). nia. }
  transitivity (zfact n).
  - rewrite Z.mul_assoc, binom_fact. apply ffact_fact; done.
  - rewrite (Z.mul_comm (zfact k)), Z.mul_assoc, binom_fact.
    pose proof (ffact_fact n (n - k) ltac:(lia)) as Hf.
    replace (n - (n - k))%nat with k in Hf by lia. lia.
Qed.

(** ** The thresholds *)

Lemma thresholds_ok :
  forallb (fun i => threshold_ok i (threshold i)) (seq 2 33) = true.
Proof. vm_compute. reflexivity. Qed.

Lemma threshold_facts i :
  (2 <= i <= 34)%nat ->
  let t := threshold i in
  Z.of_nat i <= t - 1
  /\ binom (Z.to_nat (t - 1)) i <= ULONG_MAX
  /\ ULONG_MAX < binom (Z.to_nat t) (i - 1) / Z.of_nat i * (t - Z.of_nat i + 1)
  /\ ULONG_MAX + t + 1 <= binom (Z.to_nat (t + 1)) i.
Proof.
  intros Hi t.
  pose proof thresholds_ok as Hall. rewrite forallb_forall in Hall.
  specialize (Hall i). rewrite in_seq in Hall. specialize (Hall ltac:(lia)).
  fold t in Hall. unfold threshold_ok in Hall.
  rewrite !andb_true_iff in Hall. destruct Hall as [[[H1 H2] H3] H4].
  apply Z.leb_le in H1, H2, H4. apply Z.ltb_lt in H3.
  rewrite !binom_choose, !Z2Nat.id by lia. done.
Qed.

(** From the threshold on, the coefficient exceeds [ULONG_MAX] by more
    than [n]. *)
Lemma binom_above_threshold i (n : nat) :
  (2 <= i <= 34)%nat -> threshold i + 1 <= Z.of_nat n ->
  ULONG_MAX + Z.of_nat n <= binom n i.
Proof.
  intros Hi Hn. destruct (threshold_facts i Hi) as (Hit & _ & _ & Hbase).
  set (t := threshold i) in *.
  assert (exists d, n = (Z.to_nat (t + 1) + d)%nat) as [d ->]
    by (exists (n - Z.to_nat (t + 1))%nat; lia).
  clear Hn. induction d as [|d IH].
  - rewrite Nat.add_0_r. lia.
  - replace (Z.to_nat (t + 1) + S d)%nat with (S (Z.to_nat (t + 1) + d)) by lia.
    destruct i as [|i]; [lia|].
    change (binom (S (Z.to_nat (t + 1) + d)) (S i))
      with (binom (Z.to_nat (t + 1) + d) i + binom (Z.to_nat (t + 1) + d) (S i)).
    pose proof (binom_pos (Z.to_nat (t + 1) + d) i ltac:(lia)). lia.
Qed.

Lemma binom_68_34 : ULONG_MAX < binom 68 34.
Proof. rewrite binom_choose. vm_compute. reflexivity. Qed.

(** ** One iteration of [bin] *)

Lemma ull_small x : 0 <= x <= ULONG_MAX -> ull x = x.
Proof. unfold ull, ULONG_MAX. intros Hx. apply Z.mod_small. lia. Qed.

(** If the next coefficient does not fit, the test of [bin] fires: no
    product wraps around unnoticed. *)
Lemma bin_test_fires (n0 j : nat) :
  (j < n0)%nat -> Z.of_nat n0 <= ULONG_MAX ->
  binom n0 j <= ULONG_MAX -> ULONG_MAX < binom n0 (S j) ->
  ULONG_MAX / (Z.of_nat n0 - Z.of_nat j) < binom n0 j / (Z.of_nat j + 1).
Proof.
  intros Hj Hn0 Hfit Hexc.
  assert (1 <= j)%nat as Hj1.
  { destruct j; [|lia]. rewrite binom_1 in Hexc. lia. }
  pose proof (binom_growing n0 j ltac:(lia)) as Hhalf.
  assert (S j <= 34)%nat as Hi34.
  { destruct (decide (S j <= 34)%nat) as [|Hbig]; [done|]. exfalso.
    pose proof (binom_mono_k n0 34 j ltac:(lia) ltac:(lia)).
    pose proof (binom_mono_n 68 n0 34 ltac:(lia)).
    pose proof binom_68_34. lia. }
  destruct (threshold_facts (S j) ltac:(lia)) as (Hit & Hbelow & Hat & _).
  set (t := threshold (S j)) in *.
  assert (t <= Z.of_nat n0) as Hge.
  { destruct (decide (t <= Z.of_nat n0)) as [|Hlt]; [done|]. exfalso.
    pose proof (binom_mono_n n0 (Z.to_nat (t - 1)) (S j) ltac:(lia)). lia. }
  apply Z.div_lt_upper_bound; [lia|].
  destruct (decide (Z.of_nat n0 = t)) as [Heq|Hne].
  - replace (Z.to_nat t) with n0 in Hat by lia.
    replace (S j - 1)%nat with j in Hat by lia.
    replace (Z.of_nat (S j)) with (Z.of_nat j + 1) in Hat by lia.
    replace (t - (Z.of_nat j + 1) + 1) with (Z.of_nat n0 - Z.of_nat j) in Hat by lia.
    lia.
  - pose proof (binom_above_threshold (S j) n0 ltac:(lia) ltac:(lia)) as Habove.
    pose proof (binom_step n0 j) as Hstep.
    set (B := binom n0 (S j)) in *. set (c := binom n0 j) in *.
    set (i := Z.of_nat j + 1). set (n := Z.of_nat n0 - Z.of_nat j).
    replace (Z.of_nat (S j)) with i in Hstep by lia. fold n in Hstep.
    pose proof (Z.div_mod c i ltac:(lia)) as Hdm.
    pose proof (Z.mod_pos_bound c i ltac:(lia)) as Hr.
    set (q := c / i) in *. set (r := c mod i) in *.
    destruct (decide (ULONG_MAX < n * q)) as [|Hle]; [done|]. exfalso.
    assert (r * n <= (i - 1) * n) by (apply Z.mul_le_mono_nonneg_r; lia).
    assert (i * (n * q) <= i * ULONG_MAX)
      by (apply Z.mul_le_mono_nonneg_l; lia).
    assert (i * (ULONG_MAX + n) <= i * B)
      by (apply Z.mul_le_mono_nonneg_l; lia).
    assert (B * i = i * (n * q) + r * n) by (rewrite Hstep, Hdm; ring).
    nia.
Qed.

(** If the next coefficient fits, the test passes and the body computes
    it, no operation wrapping around. *)
Lemma bin_body_exact (n0 j : nat) :
  (j < n0)%nat -> Z.of_nat n0 <= ULONG_MAX ->
  (forall j', (j' <= S j)%nat -> binom n0 j' <= ULONG_MAX) ->
  let c := binom n0 j in
  let i := Z.of_nat j + 1 in
  let n := Z.of_nat n0 - Z.of_nat j in
  (ULONG_MAX / n <? c / i) = false
  /\ ull (ull (c / i * n) + ull (c mod i * n) / i) = binom n0 (S j).
Proof.
  intros Hj Hn0 Hfits c i n.
  pose proof (binom_step n0 j) as Hstep.
  pose proof (Hfits (S j) ltac:(lia)) as HB.
  pose proof (binom_nonneg n0 (S j)) as HB0.
  pose proof (binom_nonneg n0 j) as Hc0.
  set (B := binom n0 (S j)) in *. fold c in Hstep, Hc0.
  replace (Z.of_nat (S j)) with i in Hstep by lia. fold n in Hstep.
  pose proof (Z.div_mod c i ltac:(lia)) as Hdm.
  pose proof (Z.mod_pos_bound c i ltac:(lia)) as Hr.
  assert (0 <= c / i) as Hq0 by (apply Z.div_pos; lia).
  set (q := c / i) in *. set (r := c mod i) in *.
  assert (B * i = i * (q * n) + r * n) as Hexp by (rewrite Hstep, Hdm; ring).
  assert (0 <= q * n) as Hqn0 by (apply Z.mul_nonneg_nonneg; lia).
  assert (0 <= r * n) as Hrn0 by (apply Z.mul_nonneg_nonneg; lia).
  assert (q * n <= B) as HqnB.
  { apply (Z.mul_le_mono_pos_l _ _ i); lia. }
  assert (B = q * n + r * n / i) as HBdiv.
  { rewrite <- (Z.div_add_l (q * n) i (r * n)) by lia.
    replace (q * n * i + r * n) with (B * i) by (rewrite Hexp; ring).
    symmetry. apply Z.div_mul. lia. }
  assert (r * n <= ULONG_MAX) as Hrn.
  { destruct (decide (j <= 1)%nat).
    - assert (r * n <= 1 * n) by (apply Z.mul_le_mono_nonneg_r; lia). lia.
    - destruct (decide (n = 1)) as [->|]; [lia|].
      pose proof (Hfits 2%nat ltac:(lia)) as H2.
      pose proof (binom_fact n0 2) as Hf. simpl ffact in Hf. simpl zfact in Hf.
      assert (r * n <= Z.of_nat j * n) by (apply Z.mul_le_mono_nonneg_r; lia).
      nia. }
  split.
  - apply Z.ltb_ge. apply Z.div_le_lower_bound; lia.
  - rewrite (ull_small (q * n)), (ull_small (r * n)) by lia.
    rewrite <- HBdiv. apply ull_small. lia.
Qed.

(** ** The loop of [bin] *)

Lemma bin_loop_S iters c i n :
  bin_loop (S iters) c i n =
  if ULONG_MAX / n <? c / i then BinOverflow
  else bin_loop iters (ull (ull (c / i * n) + ull (c mod i * n) / i))
                (ull (i + 1)) (ull (n - 1)).
Proof. reflexivity. Qed.

(** After [j] iterations [c] is [binom n0 j]; if the coefficients up to
    index [j + iters] fit in 64 bits, the loop ends with the last one. *)
Lemma bin_loop_done (n0 iters j : nat) :
  (j + iters <= n0)%nat -> Z.of_nat n0 <= ULONG_MAX ->
  (forall a, (a <= j + iters)%nat -> binom n0 a <= ULONG_MAX) ->
  bin_loop iters (binom n0 j) (Z.of_nat j + 1) (Z.of_nat n0 - Z.of_nat j)
  = BinDone (binom n0 (j + iters)).
Proof.
  revert j. induction iters as [|iters IH]; intros j Hle Hn0 Hfits.
  - simpl. rewrite Nat.add_0_r. done.
  - rewrite bin_loop_S.
    destruct (bin_body_exact n0 j) as [-> ->];
      [lia|done|intros; apply Hfits; lia|].
    destruct iters as [|iters].
    + simpl. replace (j + 1)%nat with (S j) by lia. done.
    + rewrite !ull_small by lia.
      replace (Z.of_nat j + 1 + 1) with (Z.of_nat (S j) + 1) by lia.
      replace (Z.of_nat n0 - Z.of_nat j - 1)
        with (Z.of_nat n0 - Z.of_nat (S j)) by lia.
      rewrite IH by (try done; try lia; intros; apply Hfits; lia).
      do 2 f_equal. lia.
Qed.

(** If one of the coefficients on the way does not fit, the loop is left
    through [return 0]. *)
Lemma bin_loop_overflow (n0 iters j j' : nat) :
  (j + iters <= n0)%nat -> Z.of_nat n0 <= ULONG_MAX ->
  (forall a, (a <= j)%nat -> binom n0 a <= ULONG_MAX) ->
  (j < j' <= j + iters)%nat -> ULONG_MAX < binom n0 j' ->
  bin_loop iters (binom n0 j) (Z.of_nat j + 1) (Z.of_nat n0 - Z.of_nat j)
  = BinOverflow.
Proof.
  revert j. induction iters as [|iters IH]; intros j Hle Hn0 Hfits Hj' Hexc;
    [lia|].
  rewrite bin_loop_S.
  destruct (decide (binom n0 (S j) <= ULONG_MAX)) as [Hnext|Hnext].
  - assert (forall a, (a <= S j)%nat -> binom n0 a <= ULONG_MAX) as Hfits'.
    { intros a Ha. destruct (decide (a = S j)) as [->|]; [done|].
      apply Hfits. lia. }
    destruct (bin_body_exact n0 j) as [-> ->]; [lia|done|done|].
    assert (j' <> S j) by (intros ->; lia).
    destruct iters as [|iters]; [lia|].
    rewrite !ull_small by lia.
    replace (Z.of_nat j + 1 + 1) with (Z.of_nat (S j) + 1) by lia.
    replace (Z.of_nat n0 - Z.of_nat j - 1)
      with (Z.of_nat n0 - Z.of_nat (S j)) by lia.
    apply IH; try done; lia.
  - pose proof (bin_test_fires n0 j ltac:(lia) Hn0 (Hfits j ltac:(lia))
                  ltac:(lia)) as Hfire.
    apply Z.ltb_lt in Hfire. rewrite Hfire. done.
Qed.

Lemma binom_fits_dec (n0 k : nat) :
  (forall a, (a <= k)%nat -> binom n0 a <= ULONG_MAX)
  \/ (exists a, (a <= k)%nat /\ ULONG_MAX < binom n0 a).
Proof.
  induction k as [|k [IH|(a & Ha & Hexc)]].
  - left. intros a Ha. replace a with 0%nat by lia. rewrite binom_0. done.
  - destruct (decide (binom n0 (S k) <= ULONG_MAX)) as [Hk|Hk].
    + left. intros a Ha. destruct (decide (a = S k)) as [->|]; [done|].
      apply IH. lia.
    + right. exists (S k). split; [done|lia].
  - right. exists a. split; [lia|done].
Qed.

Lemma bin_run_fits (n k : Z) :
  0 <= k <= n -> n <= ULONG_MAX ->
  (forall a, (a <= Z.to_nat k)%nat -> binom (Z.to_nat n) a <= ULONG_MAX) ->
  bin_run n k = BinDone (binom (Z.to_nat n) (Z.to_nat k)).
Proof.
  intros Hk Hn Hfits. unfold bin_run.
  pose proof (bin_loop_done (Z.to_nat n) (Z.to_nat k) 0 ltac:(lia) ltac:(lia)
                Hfits) as Hloop.
  rewrite binom_0, Z2Nat.id in Hloop by lia.
  replace (Z.of_nat 0 + 1) with 1 in Hloop by lia.
  replace (n - Z.of_nat 0) with n in Hloop by lia.
  rewrite Hloop. done.
Qed.

Lemma bin_run_exceeds (n k : Z) (a : nat) :
  0 <= k <= n -> n <= ULONG_MAX ->
  (a <= Z.to_nat k)%nat -> ULONG_MAX < binom (Z.to_nat n) a ->
  bin_run n k = BinOverflow.
Proof.
  intros Hk Hn Ha Hexc. unfold bin_run.
  assert (a <> 0)%nat by (intros ->; rewrite binom_0 in Hexc; done).
  pose proof (bin_loop_overflow (Z.to_nat n) (Z.to_nat k) 0 a ltac:(lia)
                ltac:(lia)) as Hloop.
  rewrite binom_0, Z2Nat.id in Hloop by lia.
  replace (Z.of_nat 0 + 1) with 1 in Hloop by lia.
  replace (n - Z.of_nat 0) with n in Hloop by lia.
  apply Hloop; [|lia|done].
  intros b Hb. replace b with 0%nat by lia. rewrite binom_0. done.
Qed.

(** [bin] never returns a wrapped value: when its loop runs to the end the
    result is the binomial coefficient. *)
Lemma bin_run_exact (n k c : Z) :
  0 <= k <= n -> n <= ULONG_MAX -> bin_run n k = BinDone c ->
  c = binom (Z.to_nat n) (Z.to_nat k).
Proof.
  intros Hk Hn Hrun.
  destruct (binom_fits_dec (Z.to_nat n) (Z.to_nat k)) as [Hfits|(a & Ha & Hexc)].
  - rewrite bin_run_fits in Hrun by done. congruence.
  - rewrite (bin_run_exceeds n k a) in Hrun by done. done.
Qed.

(** ** Claims on [bin] and [get_denominator] *)

(** C7.  [bin] is symmetric, [bin n k = bin n (n - k)], for [0 <= k <= n]
    whenever neither evaluation leaves through the overflow return (both
    then equal the binomial coefficient); for every [0 <= k <= n] whose
    binomial coefficient exceeds [ULONG_MAX] it leaves through the
    overflow return and gives the sentinel [0]; [C(1000, 500)] is such an
    input. *)
Theorem bin_symmetric_and_overflow_sentinel :
  (forall n k a b : Z,
      0 <= k <= n -> n <= ULONG_MAX ->
      bin_run n k = BinDone a -> bin_run n (n - k) = BinDone b ->
      bin n k = bin n (n - k) /\ bin n k = binom (Z.to_nat n) (Z.to_nat k))
  /\ (forall n k : Z,
        0 <= k <= n -> n <= ULONG_MAX ->
        ULONG_MAX < binom (Z.to_nat n) (Z.to_nat k) ->
        bin_run n k = BinOverflow /\ bin n k = 0)
  /\ ULONG_MAX < binom 1000 500
  /\ bin_run 1000 500 = BinOverflow
  /\ bin 1000 500 = 0.
Proof.
  split; [|split; [|split; [|split; vm_compute; reflexivity]]].
  - intros n k a b Hk Hn Ha Hb. unfold bin. rewrite Ha, Hb.
    apply bin_run_exact in Ha, Hb; [|lia..]. subst a b.
    split; [|done].
    rewrite (binom_sym (Z.to_nat n) (Z.to_nat k)) by lia.
    f_equal. lia.
  - intros n k Hk Hn Hexc.
    assert (bin_run n k = BinOverflow) as Hrun.
    { apply (bin_run_exceeds n k (Z.to_nat k)); [done|done|lia|done]. }
    split; [done|]. unfold bin. rewrite Hrun. done.
  - rewrite binom_choose. vm_compute. reflexivity.
Qed.

Lemma bin_symmetric_witness :
  (bin 10 3 = bin 10 (10 - 3) /\ bin 10 3 = binom (Z.to_nat 10) (Z.to_nat 3))
  /\ (bin_run 68 34 = BinOverflow /\ bin 68 34 = 0).
Proof.
  split.
  - apply (proj1 bin_symmetric_and_overflow_sentinel 10 3 120 120);
      [lia | vm_compute; discriminate | reflexivity | reflexivity].
  - apply (proj1 (proj2 bin_symmetric_and_overflow_sentinel) 68 34);
      [lia | vm_compute; discriminate |].
    change (Z.to_nat 68) with 68%nat. change (Z.to_nat 34) with 34%nat.
    rewrite binom_choose. vm_compute. reflexivity.
Defined.

(** ** Arrays and loops *)

Section ArrayFacts.
Context {A : Type}.
Implicit Types (l : list A) (d x y : A) (i j : Z).

Lemma length_wr l i x : length (wr l i x) = length l.
Proof. unfold wr. destruct (i <? 0); [done|]. apply length_insert. Qed.

Lemma rd_wr_eq d l i x :
  0 <= i < Z.of_nat (length l) -> rd d (wr l i x) i = x.
Proof.
  intros Hi. unfold rd, wr.
  destruct (Z.ltb_spec i 0) as [|_]; [lia|].
  rewrite list_lookup_insert_eq by lia. done.
Qed.

Lemma rd_wr_ne d l i j x : i <> j -> rd d (wr l i x) j = rd d l j.
Proof.
  intros Hij. unfold rd, wr.
  destruct (Z.ltb_spec j 0) as [|Hj]; [done|].
  destruct (Z.ltb_spec i 0) as [|Hi]; [done|].
  rewrite list_lookup_insert_ne by lia. done.
Qed.

Lemma wr_wr_eq l i x y : wr (wr l i x) i y = wr l i y.
Proof. unfold wr. destruct (i <? 0); [done|]. apply list_insert_insert_eq. Qed.

Lemma rd_replicate d n i : rd d (replicate n d) i = d.
Proof.
  unfold rd. destruct (i <? 0); [done|].
  destruct (replicate n d !! Z.to_nat i) as [x|] eqn:Hx; [|done].
  apply lookup_replicate in Hx as [-> _]. done.
Qed.
End ArrayFacts.

Section LoopFacts.
Context {St : Type}.
Implicit Types (body : Z -> St -> St) (s : St).

Lemma for_loop_nil lo hi body s : hi <= lo -> for_loop lo hi body s = s.
Proof. intros Hle. unfold for_loop. rewrite seqZ_nil by lia. done. Qed.

Lemma for_loop_snoc lo hi body s :
  lo <= hi -> for_loop lo (hi + 1) body s = body hi (for_loop lo hi body s).
Proof.
  intros Hle. unfold for_loop.
  replace (hi + 1 - lo) with ((hi - lo) + 1) by lia.
  rewrite seqZ_app, fold_left_app by lia.
  replace (lo + (hi - lo)) with hi by lia.
  rewrite seqZ_cons, seqZ_nil by lia. done.
Qed.

(** The invariant rule of the counting loop. *)
Lemma for_loop_ind (P : Z -> St -> Prop) lo hi body s :
  lo <= hi -> P lo s ->
  (forall i s', lo <= i < hi -> P i s' -> P (i + 1) (body i s')) ->
  P hi (for_loop lo hi body s).
Proof.
  intros Hle H0 Hstep.
  assert (forall n : nat, lo + Z.of_nat n <= hi ->
            P (lo + Z.of_nat n) (for_loop lo (lo + Z.of_nat n) body s)) as Hn.
  { induction n as [|n IH]; intros Hb.
    - rewrite Z.add_0_r, for_loop_nil by lia. done.
    - replace (lo + Z.of_nat (S n)) with (lo + Z.of_nat n + 1) by lia.
      rewrite for_loop_snoc by lia. apply Hstep; [lia|]. apply IH. lia. }
  specialize (Hn (Z.to_nat (hi - lo))).
  replace (lo + Z.of_nat (Z.to_nat (hi - lo))) with hi in Hn by lia.
  apply Hn. lia.
Qed.

Lemma for_down_nil hi lo body s : hi < lo -> for_down hi lo body s = s.
Proof. intros Hlt. unfold for_down. rewrite seqZ_nil by lia. done. Qed.

Lemma for_down_cons hi lo body s :
  lo <= hi -> for_down hi lo body s = for_down (hi - 1) lo body (body hi s).
Proof.
  intros Hle. unfold for_down.
  replace (hi - lo + 1) with ((hi - 1 - lo + 1) + 1) by lia.
  rewrite seqZ_app, reverse_app by lia.
  replace (lo + (hi - 1 - lo + 1)) with hi by lia.
  rewrite seqZ_cons, seqZ_nil by lia. done.
Qed.

(** The invariant rule of the loop counting down: [P i s] holds when the
    iteration for [i] is about to run. *)
Lemma for_down_ind (P : Z -> St -> Prop) hi lo body s :
  lo - 1 <= hi -> P hi s ->
  (forall i s', lo <= i <= hi -> P i s' -> P (i - 1) (body i s')) ->
  P (lo - 1) (for_down hi lo body s).
Proof.
  intros Hle H0 Hstep.
  assert (forall (n : nat) h s', h = lo - 1 + Z.of_nat n -> h <= hi ->
            P h s' -> P (lo - 1) (for_down h lo body s')) as Hn.
  { induction n as [|n IH]; intros h s' Hh Hb Hs'.
    - rewrite for_down_nil by lia. replace (lo - 1) with h by lia. done.
    - rewrite for_down_cons by lia.
      apply IH; [lia|lia|]. apply Hstep; [lia|done]. }
  apply (Hn (Z.to_nat (hi - lo + 1)) hi s); [lia|lia|done].
Qed.
End LoopFacts.

(** ** Offsets *)

Lemma sum_range_nil l lo hi : hi <= lo -> sum_range l lo hi = 0.
Proof. intros. unfold sum_range. apply for_loop_nil. done. Qed.

Lemma sum_range_snoc l lo hi :
  lo <= hi -> sum_range l lo (hi + 1) = sum_range l lo hi + rd 0 l hi.
Proof. intros. unfold sum_range. rewrite for_loop_snoc by done. done. Qed.

Lemma sum_range_split l lo mid hi :
  lo <= mid <= hi -> sum_range l lo hi = sum_range l lo mid + sum_range l mid hi.
Proof.
  intros [Hlo Hhi].
  assert (forall n : nat, sum_range l lo (mid + Z.of_nat n)
            = sum_range l lo mid + sum_range l mid (mid + Z.of_nat n)) as Hn.
  { induction n as [|n IH].
    - rewrite Z.add_0_r, (sum_range_nil l mid mid) by lia. lia.
    - replace (mid + Z.of_nat (S n)) with (mid + Z.of_nat n + 1) by lia.
      rewrite !sum_range_snoc, IH by lia. lia. }
  specialize (Hn (Z.to_nat (hi - mid))).
  replace (mid + Z.of_nat (Z.to_nat (hi - mid))) with hi in Hn by lia. done.
Qed.

Lemma sum_range_nonneg l lo hi :
  (forall i, lo <= i < hi -> 0 <= rd 0 l i) -> 0 <= sum_range l lo hi.
Proof.
  intros Hpos. destruct (Z.le_gt_cases lo hi) as [Hle|Hgt].
  - unfold sum_range.
    apply (for_loop_ind (fun _ s => 0 <= s)); [done|lia|].
    intros i s Hi Hs. pose proof (Hpos i Hi). lia.
  - rewrite sum_range_nil by lia. done.
Qed.

Section OffsetFacts.
Context {F : Type} `{FloatArith F}.

Lemma get_forward_offset_sum index cols num_rec :
  get_forward_offset index cols num_rec = sum_range cols 0 index.
Proof. reflexivity. Qed.

Lemma get_reverse_offset_sum index cols num_rec :
  index <= num_rec ->
  get_reverse_offset index cols num_rec = sum_range cols index num_rec - 1.
Proof.
  intros Hle. unfold get_reverse_offset. f_equal.
  replace (sum_range cols index num_rec)
    with (sum_range cols (index - 1 + 1) num_rec) by (f_equal; lia).
  apply (for_down_ind
           (fun i s => s = sum_range cols (i + 1) num_rec)
           (num_rec - 1) index); [lia| |].
  - rewrite sum_range_nil by lia. done.
  - intros i s Hi ->.
    rewrite (sum_range_split cols (i - 1 + 1) (i + 1) num_rec) by lia.
    replace (i - 1 + 1) with i by lia.
    rewrite (sum_range_snoc cols i i), (sum_range_nil cols i i) by lia. lia.
Qed.
End OffsetFacts.

(** ** The order of the two arithmetics *)

Lemma SFltb_key (x y : spec_float) :
  SFltb x y = true <->
  Binary32.is_nan x = false /\ Binary32.is_nan y = false
  /\ Binary32.key_lt (Binary32.order_key x) (Binary32.order_key y).
Proof.
  unfold SFltb, Binary32.key_lt.
  destruct x as [sx|sx| |sx mx ex], y as [sy|sy| |sy my ey]; simpl;
    try (destruct sx); try (destruct sy); simpl;
    try (split; [intros; lia|intros (_ & _ & ?); lia || done]);
    try (split; [done|intros (? & ? & ?); done || lia]).
  - destruct (Z.compare_spec ex ey) as [->|?|?];
      [|split; [done|lia]|split; [intros; lia|done]].
    change (Pos.compare_cont Eq mx my) with (mx ?= my)%positive.
    destruct (Pos.compare_spec mx my) as [->|?|?]; simpl;
      (split; [intros; lia || done|intros (_ & _ & ?); lia || done]).
  - destruct (Z.compare_spec ex ey) as [->|?|?];
      [|split; [intros; lia|done]|split; [done|lia]].
    change (Pos.compare_cont Eq mx my) with (mx ?= my)%positive.
    destruct (Pos.compare_spec mx my) as [->|?|?]; simpl;
      (split; [intros; lia || done|intros (_ & _ & ?); lia || done]).
Qed.

#[global] Instance Binary32_order : FloatOrder spec_float.
Proof.
  split.
  - intros a. destruct (SFltb a a) eqn:Hlt; [|done].
    apply SFltb_key in Hlt as (_ & _ & Hk). unfold Binary32.key_lt in Hk. lia.
  - intros a b c Hab Hbc. simpl in *.
    apply SFltb_key in Hab as (Ha & Hb & Hab), Hbc as (_ & Hc & Hbc).
    apply SFltb_key. unfold Binary32.key_lt in *. repeat split; try done. lia.
  - intros a b c Ha Hb Hc Hac. simpl in *.
    apply negb_true_iff in Ha, Hb, Hc.
    apply SFltb_key in Hac as (_ & _ & Hac).
    rewrite !SFltb_key. unfold Binary32.key_lt in *.
    destruct (decide (Binary32.key_lt (Binary32.order_key a) (Binary32.order_key b)))
      as [Hk|Hk]; unfold Binary32.key_lt in Hk; [left|right];
      repeat split; try done; lia.
Qed.

#[global] Instance ExactQ_order : FloatOrder Q.
Proof.
  split; simpl.
  - intros a. apply negb_false_iff, Qle_bool_iff, Qle_refl.
  - intros a b c Hab Hbc. apply negb_true_iff in Hab, Hbc.
    apply negb_true_iff. destruct (Qle_bool c a) eqn:Hca; [|done].
    apply Qle_bool_iff in Hca.
    assert (~ (b <= a)%Q) as Hnab by (rewrite <- Qle_bool_iff; congruence).
    assert (~ (c <= b)%Q) as Hncb by (rewrite <- Qle_bool_iff; congruence).
    apply Qnot_le_lt in Hnab, Hncb.
    exfalso. apply (Qlt_irrefl a).
    eapply Qlt_le_trans; [|exact Hca]. eapply Qlt_trans; eauto.
  - intros a b c _ _ _ Hac. apply negb_true_iff in Hac.
    assert (~ (c <= a)%Q) as Hnca by (rewrite <- Qle_bool_iff; congruence).
    apply Qnot_le_lt in Hnca.
    destruct (Qle_bool b a) eqn:Hba; [right|left; done].
    apply Qle_bool_iff in Hba. apply negb_true_iff.
    destruct (Qle_bool c b) eqn:Hcb; [|done]. apply Qle_bool_iff in Hcb.
    exfalso. apply (Qlt_irrefl a).
    eapply Qlt_le_trans; [exact Hnca|]. eapply Qle_trans; eauto.
Qed.

(** ** The running arg-max *)

Section ArgmaxFacts.
Context {F : Type} `{FloatOrder F}.
Implicit Types (f g : Z -> F) (n m : Z).

Lemma first_argmax_0 f n : n <= 0 -> first_argmax f n = 0.
Proof. intros. unfold first_argmax. apply for_loop_nil. lia. Qed.

Lemma first_argmax_step f n :
  0 <= n ->
  first_argmax f (n + 1) =
  if flt (f (first_argmax f n)) (f n) then n else first_argmax f n.
Proof. intros. unfold first_argmax. rewrite for_loop_snoc by done. done. Qed.

Lemma first_argmax_1 f : first_argmax f 1 = 0.
Proof.
  change 1 with (0 + 1).
  rewrite (first_argmax_step f 0), first_argmax_0, flt_irrefl by lia. done.
Qed.

Lemma first_argmax_is_argmax f n :
  0 < n -> is_argmax f n (first_argmax f n).
Proof.
  intros Hn.
  assert (forall k : nat, is_argmax f (Z.of_nat (S k)) (first_argmax f (Z.of_nat (S k))))
    as Hk.
  { induction k as [|k [Hrange Hmax]].
    - change (Z.of_nat 1) with 1. rewrite first_argmax_1.
      split; [lia|]. intros q Hq. replace q with 0 by lia. apply flt_irrefl.
    - replace (Z.of_nat (S (S k))) with (Z.of_nat (S k) + 1) by lia.
      rewrite first_argmax_step by lia.
      set (n' := Z.of_nat (S k)) in *. set (m := first_argmax f n') in *.
      destruct (flt (f m) (f n')) eqn:Hlt.
      + split; [lia|]. intros q Hq.
        destruct (decide (q = n')) as [->|]; [apply flt_irrefl|].
        destruct (flt (f n') (f q)) eqn:Hq'; [|done].
        rewrite <- (Hmax q ltac:(lia)). symmetry.
        eapply flt_trans; eauto.
      + split; [lia|]. intros q Hq.
        destruct (decide (q = n')) as [->|]; [done|]. apply Hmax. lia. }
  specialize (Hk (Z.to_nat (n - 1))).
  replace (Z.of_nat (S (Z.to_nat (n - 1)))) with n in Hk by lia. done.
Qed.

Lemma first_argmax_is_first f n :
  (forall q, 0 <= q < n -> not_nan (f q) = true) ->
  is_first f (first_argmax f n).
Proof.
  intros Hnan.
  destruct (Z.le_gt_cases n 0) as [Hn|Hn].
  { rewrite first_argmax_0 by done. intros q Hq. lia. }
  assert (forall k : nat, Z.of_nat (S k) <= n ->
            is_first f (first_argmax f (Z.of_nat (S k)))) as Hk.
  { induction k as [|k IH]; intros Hle.
    - change (Z.of_nat 1) with 1. rewrite first_argmax_1. intros q Hq. lia.
    - replace (Z.of_nat (S (S k))) with (Z.of_nat (S k) + 1) by lia.
      rewrite first_argmax_step by lia.
      specialize (IH ltac:(lia)).
      destruct (first_argmax_is_argmax f (Z.of_nat (S k)) ltac:(lia))
        as [Hrange Hmax].
      set (n' := Z.of_nat (S k)) in *. set (m := first_argmax f n') in *.
      destruct (flt (f m) (f n')) eqn:Hlt; [|done].
      intros q Hq.
      destruct (flt_connex (f m) (f q) (f n')) as [Hmq|Hqn]; try done;
        try (apply Hnan; lia).
      rewrite Hmax in Hmq by lia. done. }
  specialize (Hk (Z.to_nat (n - 1))).
  replace (Z.of_nat (S (Z.to_nat (n - 1)))) with n in Hk by lia.
  apply Hk. lia.
Qed.

Lemma first_argmax_ext f g n :
  (forall q, 0 <= q < n -> f q = g q) -> first_argmax f n = first_argmax g n.
Proof.
  intros Hfg.
  destruct (Z.le_gt_cases n 0) as [Hn|Hn].
  { rewrite !first_argmax_0 by done. done. }
  assert (forall k : nat, Z.of_nat k <= n ->
            first_argmax f (Z.of_nat k) = first_argmax g (Z.of_nat k)
            /\ 0 <= first_argmax f (Z.of_nat k) <= Z.max 0 (Z.of_nat k - 1)) as Hk.
  { induction k as [|k IH]; intros Hle.
    - rewrite !first_argmax_0 by done. lia.
    - replace (Z.of_nat (S k)) with (Z.of_nat k + 1) by lia.
      rewrite !first_argmax_step by lia.
      destruct (IH ltac:(lia)) as [<- Hr].
      destruct (decide (k = 0)%nat) as [->|].
      + simpl Z.of_nat in *. rewrite !first_argmax_0 in * by lia.
        rewrite !flt_irrefl. lia.
      + rewrite <- !Hfg by lia.
        destruct (flt _ _); lia. }
  specialize (Hk (Z.to_nat n)). rewrite Z2Nat.id in Hk by lia.
  apply Hk. lia.
Qed.

Lemma max_index_first_argmax (arr : list F) size :
  max_index arr size = first_argmax (rd fzero arr) size.
Proof. reflexivity. Qed.
End ArgmaxFacts.

(** ** Loops that fill an array *)

Lemma for_loop_wr {A : Type} (d : A) (idx : Z -> Z) (g : Z -> A) lo hi
    (l : list A) :
  lo <= hi ->
  (forall j, lo <= j < hi -> 0 <= idx j < Z.of_nat (length l)) ->
  (forall j j', lo <= j < hi -> lo <= j' < hi -> idx j = idx j' -> j = j') ->
  let r := for_loop lo hi (fun j l' => wr l' (idx j) (g j)) l in
  length r = length l
  /\ (forall j, lo <= j < hi -> rd d r (idx j) = g j)
  /\ (forall p, (forall j, lo <= j < hi -> idx j <> p) -> rd d r p = rd d l p).
Proof.
  intros Hle Hin Hinj r. subst r.
  apply (for_loop_ind
           (fun j' s =>
              length s = length l
              /\ (forall j, lo <= j < j' -> rd d s (idx j) = g j)
              /\ (forall p, (forall j, lo <= j < j' -> idx j <> p) ->
                            rd d s p = rd d l p))); [done| |].
  - split; [done|]. split; [intros; lia|done].
  - intros i s Hi (Hlen & Hset & Hold).
    split; [rewrite length_wr; done|]. split.
    + intros j Hj. destruct (decide (j = i)) as [->|Hne].
      * apply rd_wr_eq. rewrite Hlen. apply Hin. lia.
      * rewrite rd_wr_ne; [apply Hset; lia|].
        intros Heq. apply Hne. symmetry. apply Hinj; [lia|lia|done].
    + intros p Hp. rewrite rd_wr_ne by (apply Hp; lia).
      apply Hold. intros j Hj. apply Hp. lia.
Qed.

(** ** RecognizerScorer *)

Section ScorerFacts.
Context {F : Type} `{FloatArith F}.

Lemma add_base_column (pssm : list F) row c score :
  add_base pssm row c score =
  match base_column c with
  | Some col => fadd score (rd fzero pssm (row * 4 + col))
  | None => score
  end.
Proof.
  destruct c as [[] [] [] [] [] [] [] []]; reflexivity.
Qed.

Lemma base_column_cases c :
  match base_column c with
  | Some col =>
      (col = 0 /\ (c = "A" \/ c = "a"))%char
      \/ (col = 1 /\ (c = "G" \/ c = "g"))%char
      \/ (col = 2 /\ (c = "C" \/ c = "c"))%char
      \/ (col = 3 /\ (c = "T" \/ c = "t"))%char
  | None =>
      (c <> "A" /\ c <> "a" /\ c <> "G" /\ c <> "g"
       /\ c <> "C" /\ c <> "c" /\ c <> "T" /\ c <> "t")%char
  end.
Proof.
  destruct c as [[] [] [] [] [] [] [] []]; cbv;
    first [ repeat split; discriminate | tauto ].
Qed.

(** Each cell of the score matrix holds the score of its recognizer at its
    position: row [i], column [p] is recognizer [i] placed at
    [forward offset + p]. *)
Lemma fill_matrix_cells seq len_seq (pssm : list F) cols num_rec sm0 A i p :
  0 <= num_rec ->
  A = len_seq - sum_range cols 0 num_rec + 1 -> 0 <= A ->
  num_rec * A <= Z.of_nat (length sm0) ->
  0 <= i < num_rec -> 0 <= p < A ->
  rd fzero (fill_matrix seq len_seq pssm cols num_rec sm0 A) (i * A + p)
  = window_score seq pssm cols i (sum_range cols 0 i) (sum_range cols 0 i + p).
Proof.
  intros HN HA HA0 Hlen Hi Hp. unfold fill_matrix.
  revert i p Hi Hp.
  apply (for_loop_ind
           (fun n sm =>
              length sm = length sm0
              /\ forall i p, 0 <= i < n -> 0 <= p < A ->
                   rd fzero sm (i * A + p)
                   = window_score seq pssm cols i (sum_range cols 0 i)
                                  (sum_range cols 0 i + p))); [done| |].
  - split; [done|]. intros; lia.
  - intros n sm Hn (Hlen' & Hrows).
    rewrite get_forward_offset_sum, get_reverse_offset_sum by lia.
    set (fo := sum_range cols 0 n).
    assert (len_seq - (sum_range cols n num_rec - 1) = fo + A) as ->.
    { rewrite (sum_range_split cols 0 n num_rec) in HA by lia. subst fo. lia. }
    assert (forall q, 0 <= q < A -> 0 <= n * A + q < num_rec * A) as Hbound.
    { intros q Hq. nia. }
    destruct (for_loop_wr fzero (fun j => n * A + j - fo)
                (fun j => window_score seq pssm cols n fo j) fo (fo + A) sm)
      as (Hlen'' & Hnew & Hold); [lia| | |].
    { intros j Hj. specialize (Hbound (j - fo) ltac:(lia)). lia. }
    { intros; lia. }
    split; [congruence|].
    intros i p Hi Hp. destruct (decide (i = n)) as [->|Hne].
    + specialize (Hnew (fo + p) ltac:(lia)).
      replace (n * A + (fo + p) - fo) with (n * A + p) in Hnew by lia. done.
    + rewrite Hold; [apply Hrows; lia|].
      intros j Hj. specialize (Hbound (j - fo) ltac:(lia)).
      assert (i * A + p < n * A) by nia. lia.
Qed.
End ScorerFacts.

Lemma for_loop_ext {St : Type} lo hi (body body' : Z -> St -> St) s :
  (forall i s', lo <= i < hi -> body i s' = body' i s') ->
  for_loop lo hi body s = for_loop lo hi body' s.
Proof.
  intros Hext. destruct (Z.le_gt_cases lo hi) as [Hle|Hgt].
  - apply (for_loop_ind (fun n r => r = for_loop lo n body' s)); [done| |].
    + rewrite for_loop_nil by lia. done.
    + intros i r Hi ->. rewrite for_loop_snoc by lia. apply Hext. done.
  - rewrite !for_loop_nil by lia. done.
Qed.

(** ** Claims on the recognizer scorer and on a single recognizer *)

(** C10.  The score stored for recognizer [i] at position [p] is the sum,
    over the columns [k] of the recognizer, of the matrix entry of row
    [forward offset + k] in the column of the base read at that place, the
    columns being A -> 0, G -> 1, C -> 2, T -> 3 in either case; any other
    symbol has no column and leaves the running score as it is. *)
Theorem recognizer_scorer_column_order {F : Type} `{FloatArith F}
    (seq : list ascii) (pssm : list F) (cols : list Z) (sm0 : list F)
    (i p : Z) :
  let num_rec := Z.of_nat (length cols) in
  let len_seq := Z.of_nat (length seq) in
  let A := len_seq - sum_range cols 0 num_rec + 1 in
  0 <= A -> num_rec * A <= Z.of_nat (length sm0) ->
  0 <= i < num_rec -> 0 <= p < A ->
  rd fzero (fill_matrix seq len_seq pssm cols num_rec sm0 A) (i * A + p)
  = for_loop 0 (rd 0 cols i)
      (fun k score =>
         match base_column (rd zero seq (sum_range cols 0 i + p + k)) with
         | Some col =>
             fadd score (rd fzero pssm ((sum_range cols 0 i + k) * 4 + col))
         | None => score
         end)
      fzero
  /\ (base_column "A" = Some 0 /\ base_column "a" = Some 0
      /\ base_column "G" = Some 1 /\ base_column "g" = Some 1
      /\ base_column "C" = Some 2 /\ base_column "c" = Some 2
      /\ base_column "T" = Some 3 /\ base_column "t" = Some 3)%char
  /\ (forall c : ascii,
        (c <> "A" /\ c <> "a" /\ c <> "G" /\ c <> "g"
         /\ c <> "C" /\ c <> "c" /\ c <> "T" /\ c <> "t")%char ->
        base_column c = None).
Proof.
  intros num_rec len_seq A HA Hlen Hi Hp. split; [|split].
  - rewrite fill_matrix_cells by (try done; lia).
    unfold window_score. apply for_loop_ext. intros k score _.
    rewrite add_base_column. done.
  - repeat split; reflexivity.
  - intros c Hc. pose proof (base_column_cases c) as Hcase.
    destruct (base_column c) as [col|]; [|done]. exfalso.
    destruct Hcase as [[_ [?|?]]|[[_ [?|?]]|[[_ [?|?]]|[_ [?|?]]]]];
      subst c; tauto.
Qed.

Lemma recognizer_scorer_witness :
  rd fzero
     (fill_matrix Example.seq1 6 Example.pssm1 [2] 1 (calloc_float 5) 5)
     (0 * 5 + 1)
  = for_loop 0 2
      (fun k score =>
         match base_column (rd zero Example.seq1 (0 + 1 + k)) with
         | Some col => fadd score (rd fzero Example.pssm1 ((0 + k) * 4 + col))
         | None => score
         end)
      fzero.
Proof.
  refine (proj1 (recognizer_scorer_column_order
                   Example.seq1 Example.pssm1 [2] (calloc_float 5) 0 1
                   _ _ _ _)).
  - vm_compute. discriminate.
  - vm_compute. discriminate.
  - vm_compute. split; [discriminate|reflexivity].
  - vm_compute. split; [discriminate|reflexivity].
Defined.

(** With one recognizer, the position written to slot [0] of the connector
    lengths lies in the score vector. *)
Lemma single_recognizer_range {F : Type} `{FloatOrder F}
    (NUMERATORS : list F) (seq : list ascii) (pssm : list F) (w : Z)
    (con : list F) (out : outputs F) (max_length : Z) :
  let A := Z.of_nat (length seq) - w + 1 in
  let out' := py_calculate NUMERATORS seq pssm [w] con out max_length in
  0 <= w <= Z.of_nat (length seq) ->
  (0 < length (con_lengths out))%nat ->
  0 <= rd 0 (con_lengths out') 0 < A.
Proof.
  intros A out' Hw Hcl.
  assert (sum_range [w] 0 0 = 0) as Hs0 by (apply sum_range_nil; lia).
  assert (sum_range [w] 0 1 = w) as Hs1.
  { change 1 with (0 + 1). rewrite sum_range_snoc, Hs0 by lia. reflexivity. }
  subst out'. unfold py_calculate.
  rewrite get_forward_offset_sum, get_reverse_offset_sum by (simpl; lia).
  change (Z.of_nat (length [w])) with 1. rewrite Hs0, Hs1.
  replace (Z.of_nat (length seq) - 0 - (w - 1)) with A by (subst A; lia).
  cbn [Z.eqb Pos.eqb con_lengths].
  rewrite rd_wr_eq by lia. rewrite max_index_first_argmax.
  apply first_argmax_is_argmax. subst A. lia.
Qed.

(** C1.  With one recognizer, the first connector-length slot receives the
    arg-max position of the recognizer's score vector (the first one among
    equal maxima when no score is a NaN), the first recognizer-score slot
    the score at that position, and the first connector-score slot [0]. *)
Theorem single_recognizer_placement {F : Type} `{FloatOrder F}
    (NUMERATORS : list F) (seq : list ascii) (pssm : list F) (w : Z)
    (con : list F) (out : outputs F) (max_length : Z) :
  let A := Z.of_nat (length seq) - w + 1 in
  let scores := fun p => window_score seq pssm [w] 0 0 p in
  let out' := py_calculate NUMERATORS seq pssm [w] con out max_length in
  let m := rd 0 (con_lengths out') 0 in
  0 <= w <= Z.of_nat (length seq) ->
  (0 < length (rec_scores out))%nat ->
  (0 < length (con_scores out))%nat ->
  (0 < length (con_lengths out))%nat ->
  is_argmax scores A m
  /\ ((forall q, 0 <= q < A -> not_nan (scores q) = true) -> is_first scores m)
  /\ rd fzero (rec_scores out') 0 = scores m
  /\ rd fzero (con_scores out') 0 = lit 0.00%Q.
Proof.
  intros A scores out' m Hw Hrs Hcs Hcl.
  assert (sum_range [w] 0 0 = 0) as Hs0 by (apply sum_range_nil; lia).
  assert (sum_range [w] 0 1 = w) as Hs1.
  { change 1 with (0 + 1). rewrite sum_range_snoc, Hs0 by lia. reflexivity. }
  set (sm := fill_matrix seq (Z.of_nat (length seq)) pssm [w] 1
               (calloc_float (A * 1)) A).
  assert (forall q, 0 <= q < A -> rd fzero sm q = scores q) as Hsm.
  { intros q Hq. subst sm scores. simpl.
    pose proof (fill_matrix_cells seq (Z.of_nat (length seq)) pssm [w] 1
                  (calloc_float (A * 1)) A 0 q) as Hcell.
    rewrite Hs0, Hs1 in Hcell. simpl in Hcell. apply Hcell; try lia.
    unfold calloc_float. rewrite length_replicate. lia. }
  assert (out' = Outputs (wr (rec_scores out) 0
                            (rd fzero sm (rd 0 (wr (con_lengths out) 0
                                                   (max_index sm A)) 0)))
                         (wr (con_scores out) 0 (lit 0.00%Q))
                         (wr (con_lengths out) 0 (max_index sm A))) as Hout.
  { subst out'. unfold py_calculate.
    rewrite get_forward_offset_sum, get_reverse_offset_sum by (simpl; lia).
    change (Z.of_nat (length [w])) with 1. rewrite Hs0, Hs1.
    replace (Z.of_nat (length seq) - 0 - (w - 1)) with A by (subst A; lia).
    reflexivity. }
  assert (m = first_argmax scores A) as Hm.
  { subst m. rewrite Hout. simpl.
    rewrite rd_wr_eq by lia. rewrite max_index_first_argmax.
    apply first_argmax_ext. done. }
  assert (0 < A) by (subst A; lia).
  split; [rewrite Hm; apply first_argmax_is_argmax; done|].
  split; [rewrite Hm; apply first_argmax_is_first|].
  destruct (first_argmax_is_argmax scores A ltac:(done)) as [Hrange _].
  rewrite Hout. simpl. rewrite !rd_wr_eq by lia.
  split; [|done].
  rewrite max_index_first_argmax, (first_argmax_ext _ scores) by done.
  rewrite Hsm by done. rewrite Hm. done.
Qed.

Lemma single_recognizer_witness :
  let scores := fun p => window_score Example.seq1 Example.pssm1 [2] 0 0 p in
  let out' := py_calculate [] Example.seq1 Example.pssm1 [2] []
                           Example.out1 0 in
  let m := rd 0 (con_lengths out') 0 in
  is_argmax scores 5 m
  /\ ((forall q, 0 <= q < 5 -> not_nan (scores q) = true) -> is_first scores m)
  /\ rd fzero (rec_scores out') 0 = scores m
  /\ rd fzero (con_scores out') 0 = lit 0.00%Q.
Proof.
  refine (single_recognizer_placement
            [] Example.seq1 Example.pssm1 2 [] Example.out1 0 _ _ _ _).
  - vm_compute. split; discriminate.
  - simpl. lia.
  - simpl. lia.
  - simpl. lia.
Defined.

(** ** PlacementSolver *)

Section DpFacts.
Context {F : Type} `{FloatOrder F}.
Variables (NUMERATORS score_matrix gapMatrix : list F).
Variables (A N L eff max_length : Z).
Variable is_precomputed : bool.

Local Abbreviation cand :=
  (candidate NUMERATORS score_matrix gapMatrix A N L eff max_length
             is_precomputed).
Local Abbreviation dtry :=
  (dp_try NUMERATORS score_matrix gapMatrix A N L eff max_length
          is_precomputed).
Local Abbreviation stage :=
  (dp_stage NUMERATORS score_matrix gapMatrix A N L eff max_length
            is_precomputed).
Local Abbreviation best :=
  (dp_best NUMERATORS score_matrix gapMatrix A N L eff max_length
           is_precomputed).
Local Abbreviation after :=
  (dp_after NUMERATORS score_matrix gapMatrix A N L eff max_length
            is_precomputed).
Local Abbreviation sized := (dp_sized A N).

(** The innermost loop, run over [k < n], leaves in slot [j] of the two
    temporary rows the running arg-max of the candidates and its gap. *)
Lemma dp_try_loop i j n (st : @dp_state F) :
  0 <= j < Z.of_nat (length (temp_max_scores st)) -> 0 < n ->
  for_loop 0 n (fun k st' => dtry i j k st') st
  = DpState (alignments st) (gap_alignments st)
      (wr (temp_max_scores st) j
          (cand (alignments st) i j (first_argmax (cand (alignments st) i j) n)))
      (wr (temp_gap_lengths st) j
          (j - first_argmax (cand (alignments st) i j) n)).
Proof.
  intros Hj Hn.
  assert (forall k : nat,
    for_loop 0 (Z.of_nat (S k)) (fun k st' => dtry i j k st') st
    = DpState (alignments st) (gap_alignments st)
        (wr (temp_max_scores st) j
            (cand (alignments st) i j
                  (first_argmax (cand (alignments st) i j) (Z.of_nat (S k)))))
        (wr (temp_gap_lengths st) j
            (j - first_argmax (cand (alignments st) i j) (Z.of_nat (S k)))))
    as Hk.
  { induction k as [|k IH].
    - change (Z.of_nat 1) with 1. rewrite first_argmax_1.
      change 1 with (0 + 1). rewrite for_loop_snoc, for_loop_nil by lia.
      reflexivity.
    - replace (Z.of_nat (S (S k))) with (Z.of_nat (S k) + 1) by lia.
      rewrite for_loop_snoc, IH, first_argmax_step by lia.
      set (n' := Z.of_nat (S k)).
      set (m := first_argmax (cand (alignments st) i j) n').
      unfold dp_try. destruct (Z.eqb_spec n' 0) as [|_]; [lia|].
      cbn [alignments gap_alignments temp_max_scores temp_gap_lengths].
      rewrite rd_wr_eq by done.
      destruct (flt _ _); [|done].
      rewrite !wr_wr_eq. done. }
  specialize (Hk (Z.to_nat (n - 1))).
  replace (Z.of_nat (S (Z.to_nat (n - 1)))) with n in Hk by lia. done.
Qed.

(** The loop over [j]: the temporary rows hold, for every ending position
    done so far, the best candidate and its gap. *)
Lemma dp_rows_loop i (st : @dp_state F) :
  sized st -> 0 <= A ->
  let st' :=
    for_loop 0 A
      (fun j st' => for_loop 0 (j + 1) (fun k st'' => dtry i j k st'') st') st in
  alignments st' = alignments st
  /\ gap_alignments st' = gap_alignments st
  /\ Z.of_nat (length (temp_max_scores st')) = A
  /\ Z.of_nat (length (temp_gap_lengths st')) = A
  /\ forall j, 0 <= j < A ->
       rd fzero (temp_max_scores st') j
       = cand (alignments st) i j (best (alignments st) i j)
       /\ rd 0 (temp_gap_lengths st') j = j - best (alignments st) i j.
Proof.
  intros (Hal & Htm & Htg & Hga) HA st'. subst st'.
  apply (for_loop_ind
    (fun J st' =>
       alignments st' = alignments st
       /\ gap_alignments st' = gap_alignments st
       /\ Z.of_nat (length (temp_max_scores st')) = A
       /\ Z.of_nat (length (temp_gap_lengths st')) = A
       /\ forall j, 0 <= j < J ->
            rd fzero (temp_max_scores st') j
            = cand (alignments st) i j (best (alignments st) i j)
            /\ rd 0 (temp_gap_lengths st') j = j - best (alignments st) i j));
    [done| |].
  - repeat split; try done; lia.
  - intros J st' HJ (Hal' & Hga' & Htm' & Htg' & Hrows).
    rewrite dp_try_loop by lia.
    cbn [alignments gap_alignments temp_max_scores temp_gap_lengths].
    rewrite !length_wr. repeat split; try done.
    + destruct (decide (j = J)) as [->|Hne].
      * rewrite rd_wr_eq by lia. rewrite Hal'. done.
      * rewrite rd_wr_ne by done. apply Hrows. lia.
    + destruct (decide (j = J)) as [->|Hne].
      * rewrite rd_wr_eq by lia. rewrite Hal'. done.
      * rewrite rd_wr_ne by done. apply Hrows. lia.
Qed.

(** The loop over [l]: the temporary rows are committed to the cumulative
    table and to row [i - 1] of the gap-choice table. *)
Lemma dp_commit_loop i (st : @dp_state F) :
  sized st -> 0 <= A -> 1 <= i < N ->
  let st' := for_loop 0 A (fun l st' => dp_commit A i l st') st in
  sized st'
  /\ (forall l, 0 <= l < A ->
        rd fzero (alignments st') l = rd fzero (temp_max_scores st) l
        /\ rd 0 (gap_alignments st') ((i - 1) * A + l)
           = rd 0 (temp_gap_lengths st) l)
  /\ (forall p, ~ ((i - 1) * A <= p < (i - 1) * A + A) ->
        rd 0 (gap_alignments st') p = rd 0 (gap_alignments st) p).
Proof.
  intros (Hal & Htm & Htg & Hga) HA Hi st'. subst st'.
  cut ((fun n st' =>
       sized st'
       /\ (forall l, 0 <= l < n ->
             rd fzero (alignments st') l = rd fzero (temp_max_scores st) l
             /\ rd 0 (gap_alignments st') ((i - 1) * A + l)
                = rd 0 (temp_gap_lengths st) l)
       /\ (forall l, n <= l ->
             rd fzero (temp_max_scores st') l = rd fzero (temp_max_scores st) l
             /\ rd 0 (temp_gap_lengths st') l = rd 0 (temp_gap_lengths st) l)
       /\ (forall p, ~ ((i - 1) * A <= p < (i - 1) * A + n) ->
             rd 0 (gap_alignments st') p = rd 0 (gap_alignments st) p))
         A (for_loop 0 A (fun l st' => dp_commit A i l st') st)).
  { intros (Hs & Hdone & _ & Hout). done. }
  apply (for_loop_ind
    (fun n st' =>
       sized st'
       /\ (forall l, 0 <= l < n ->
             rd fzero (alignments st') l = rd fzero (temp_max_scores st) l
             /\ rd 0 (gap_alignments st') ((i - 1) * A + l)
                = rd 0 (temp_gap_lengths st) l)
       /\ (forall l, n <= l ->
             rd fzero (temp_max_scores st') l = rd fzero (temp_max_scores st) l
             /\ rd 0 (temp_gap_lengths st') l = rd 0 (temp_gap_lengths st) l)
       /\ (forall p, ~ ((i - 1) * A <= p < (i - 1) * A + n) ->
             rd 0 (gap_alignments st') p = rd 0 (gap_alignments st) p)));
    [done| |].
  - repeat split; try done; intros; lia.
  - intros n st' Hn ((Hal' & Htm' & Htg' & Hga') & Hdone & Hrest & Hout).
    unfold dp_commit, dp_sized.
    cbn [alignments gap_alignments temp_max_scores temp_gap_lengths].
    rewrite !length_wr.
    assert (0 <= (i - 1) * A + n < A * (N - 1)) as Hidx by nia.
    split; [done|]. split; [|split].
    + intros l Hl. destruct (decide (l = n)) as [->|Hne].
      * rewrite !rd_wr_eq by lia. apply Hrest. lia.
      * rewrite !rd_wr_ne by lia. apply Hdone. lia.
    + intros l Hl. rewrite !rd_wr_ne by lia. apply Hrest. lia.
    + intros p Hp. rewrite rd_wr_ne by lia. apply Hout. lia.
Qed.

(** One stage: the cumulative table and row [i - 1] of the gap-choice table
    after it, in terms of the table before it. *)
Lemma dp_stage_spec i (st : @dp_state F) :
  sized st -> 0 <= A -> 1 <= i < N ->
  let st' := stage i st in
  sized st'
  /\ (forall j, 0 <= j < A ->
        rd fzero (alignments st') j
        = cand (alignments st) i j (best (alignments st) i j)
        /\ rd 0 (gap_alignments st') ((i - 1) * A + j)
           = j - best (alignments st) i j)
  /\ (forall p, ~ ((i - 1) * A <= p < (i - 1) * A + A) ->
        rd 0 (gap_alignments st') p = rd 0 (gap_alignments st) p).
Proof.
  intros Hs HA Hi st'. subst st'. unfold dp_stage.
  destruct (dp_rows_loop i st Hs HA) as (Hal & Hga & Htm & Htg & Hrows).
  set (mid := for_loop 0 A _ st) in *.
  assert (sized mid) as Hmid.
  { unfold dp_sized. rewrite Hal, Hga. destruct Hs as (? & ? & ? & ?). done. }
  destruct (dp_commit_loop i mid Hmid HA Hi) as (Hs' & Hrow & Hout).
  split; [done|]. split.
  - intros j Hj. destruct (Hrow j Hj) as [-> ->]. apply Hrows. done.
  - intros p Hp. rewrite Hout by done. rewrite Hga. done.
Qed.

Lemma dp_init_spec :
  0 <= A -> 1 <= N ->
  sized (dp_init score_matrix A N)
  /\ forall j, 0 <= j < A ->
       rd fzero (alignments (dp_init score_matrix A N)) j
       = rd fzero score_matrix j.
Proof.
  intros HA HN. unfold dp_init.
  apply (for_loop_ind
    (fun n st =>
       sized st
       /\ forall j, 0 <= j < n ->
            rd fzero (alignments st) j = rd fzero score_matrix j)); [done| |].
  - split; [|intros; lia]. unfold dp_sized, calloc_float, calloc_int. simpl.
    rewrite !length_replicate. nia.
  - intros n st Hn ((Hal & Htm & Htg & Hga) & Hrows).
    unfold dp_sized. simpl. rewrite !length_wr. split; [done|].
    intros j Hj. destruct (decide (j = n)) as [->|Hne].
    + rewrite rd_wr_eq by lia. done.
    + rewrite rd_wr_ne by done. apply Hrows. lia.
Qed.

Lemma dp_after_0 : after 0 = dp_init score_matrix A N.
Proof. unfold dp_after. apply for_loop_nil. lia. Qed.

Lemma dp_after_succ i : 0 <= i -> after (i + 1) = stage (i + 1) (after i).
Proof. intros Hi. unfold dp_after. rewrite for_loop_snoc by lia. done. Qed.

Lemma dp_run_after :
  dp_run NUMERATORS score_matrix gapMatrix A N L eff max_length is_precomputed
  = after (N - 1).
Proof. unfold dp_run, dp_after. f_equal. lia. Qed.

(** The tables of the whole run: every stage [s] done so far has committed,
    for every ending position, the candidate of its best starting
    position, and row [s - 1] of the gap-choice table still holds the gap of
    that position. *)
Lemma dp_after_spec (n : nat) :
  0 <= A -> Z.of_nat n < N ->
  sized (after (Z.of_nat n))
  /\ forall s j, 1 <= s <= Z.of_nat n -> 0 <= j < A ->
       rd fzero (alignments (after s)) j
       = cand (alignments (after (s - 1))) s j
              (best (alignments (after (s - 1))) s j)
       /\ rd 0 (gap_alignments (after (Z.of_nat n))) ((s - 1) * A + j)
          = j - best (alignments (after (s - 1))) s j.
Proof.
  intros HA. induction n as [|n IH]; intros Hn.
  - change (Z.of_nat 0) with 0. rewrite dp_after_0.
    split; [apply dp_init_spec; lia|]. intros; lia.
  - destruct (IH ltac:(lia)) as (Hs & Hrows).
    replace (Z.of_nat (S n)) with (Z.of_nat n + 1) by lia.
    rewrite dp_after_succ by lia.
    destruct (dp_stage_spec (Z.of_nat n + 1) (after (Z.of_nat n)) Hs HA
                ltac:(lia)) as (Hs' & Hnew & Hold).
    split; [done|].
    intros s j Hsr Hj. destruct (decide (s = Z.of_nat n + 1)) as [->|Hne].
    + rewrite dp_after_succ by lia.
      replace (Z.of_nat n + 1 - 1) with (Z.of_nat n) in * by lia.
      apply Hnew. done.
    + destruct (Hrows s j ltac:(lia) Hj) as [Hcum Hgap].
      split; [done|]. rewrite Hold; [done|].
      replace (Z.of_nat n + 1 - 1) with (Z.of_nat n) by lia. nia.
Qed.

(** The best starting position of a stage is the first arg-max of its
    candidates. *)
Lemma dp_best_spec table i j :
  0 <= j ->
  is_argmax (cand table i j) (j + 1) (best table i j)
  /\ ((forall q, 0 <= q <= j -> not_nan (cand table i j q) = true) ->
      is_first (cand table i j) (best table i j)).
Proof.
  intros Hj. unfold dp_best. split.
  - apply first_argmax_is_argmax. lia.
  - intros Hnan. apply first_argmax_is_first. intros q Hq. apply Hnan. lia.
Qed.
End DpFacts.

(** ** Claims on the stages of the dynamic program *)

(** C2 (as amended).  At every stage [i] and ending position [j] the
    committed cumulative score is [table[k] + connectorScore(j - k) +
    recognizerScore(i, j)] for the recorded [k = j - gap], no starting
    position [k <= j] scores more, and, no candidate being a NaN, every
    starting position before the recorded one scores strictly less: on a
    tie the first [k] met wins, which is the larger gap. *)
Theorem dp_stage_keeps_first_maximum {F : Type} `{FloatOrder F}
    (NUMERATORS score_matrix gapMatrix : list F)
    (num_alignments num_rec len_seq effective_length max_length : Z)
    (is_precomputed : bool) (i j : Z) :
  let after :=
    dp_after NUMERATORS score_matrix gapMatrix num_alignments num_rec len_seq
             effective_length max_length is_precomputed in
  let run :=
    dp_run NUMERATORS score_matrix gapMatrix num_alignments num_rec len_seq
           effective_length max_length is_precomputed in
  let table := alignments (after (i - 1)) in
  let score := fun k =>
    fadd (fadd (rd fzero table k)
               (get_score NUMERATORS gapMatrix len_seq effective_length num_rec
                          (j - k) max_length (i - 1) is_precomputed))
         (rd fzero score_matrix (i * num_alignments + j)) in
  let committed := rd fzero (alignments (after i)) j in
  let gap := rd 0 (gap_alignments run) ((i - 1) * num_alignments + j) in
  0 <= num_alignments -> 1 <= i < num_rec -> 0 <= j < num_alignments ->
  0 <= gap <= j
  /\ committed = score (j - gap)
  /\ (forall k, 0 <= k <= j -> flt committed (score k) = false)
  /\ ((forall k, 0 <= k <= j -> not_nan (score k) = true) ->
      forall k, 0 <= k < j - gap -> flt (score k) committed = true).
Proof.
  intros after run table score committed gap HA Hi Hj.
  destruct (dp_after_spec NUMERATORS score_matrix gapMatrix num_alignments
              num_rec len_seq effective_length max_length is_precomputed
              (Z.to_nat (num_rec - 1)) HA ltac:(lia)) as (_ & Hrows).
  rewrite Z2Nat.id in Hrows by lia.
  destruct (Hrows i j ltac:(lia) Hj) as [Hcum Hgap].
  fold after in Hcum, Hgap. fold table in Hcum, Hgap.
  destruct (dp_best_spec NUMERATORS score_matrix gapMatrix num_alignments
              num_rec len_seq effective_length max_length is_precomputed
              table i j ltac:(lia)) as [[Hrange Hmax] Hfirst].
  set (b := dp_best _ _ _ _ _ _ _ _ _ table i j) in *.
  assert (gap = j - b) as Hg.
  { subst gap run. rewrite dp_run_after. exact Hgap. }
  assert (committed = score b) as Hc by exact Hcum.
  replace (j - gap) with b by lia.
  split; [lia|]. split; [done|]. split.
  - intros k Hk. rewrite Hc. apply (Hmax k). lia.
  - intros Hnan k Hk. rewrite Hc. apply (Hfirst Hnan k). lia.
Qed.

Lemma dp_stage_witness :
  let after := dp_after [] Example.sm2 Example.con2 2 2 3 1 0 false in
  let run := dp_run [] Example.sm2 Example.con2 2 2 3 1 0 false in
  let table := alignments (after (1 - 1)) in
  let score := fun k =>
    fadd (fadd (rd fzero table k)
               (get_score [] Example.con2 3 1 2 (1 - k) 0 (1 - 1) false))
         (rd fzero Example.sm2 (1 * 2 + 1)) in
  let committed := rd fzero (alignments (after 1)) 1 in
  let gap := rd 0 (gap_alignments run) ((1 - 1) * 2 + 1) in
  0 <= gap <= 1
  /\ committed = score (1 - gap)
  /\ (forall k, 0 <= k <= 1 -> flt committed (score k) = false)
  /\ ((forall k, 0 <= k <= 1 -> not_nan (score k) = true) ->
      forall k, 0 <= k < 1 - gap -> flt (score k) committed = true).
Proof.
  refine (dp_stage_keeps_first_maximum
            [] Example.sm2 Example.con2 2 2 3 1 0 false 1 1 _ _ _).
  - lia.
  - lia.
  - lia.
Defined.

(** C2, the tie-break as the claim words it: on the run over [AAA] the
    starting positions [0] and [1] tie for the ending position [1] of stage
    [1], and the gap recorded is [1], the larger one. *)
Lemma tie_records_larger_gap :
  ~ smaller_gap_wins_ties [] Example.sm2 Example.con2 2 2 3 1 0 false.
Proof.
  intros Hclaim.
  specialize (Hclaim 1 1 0 1 ltac:(lia) ltac:(lia) ltac:(lia) ltac:(lia)).
  cbv zeta in Hclaim.
  assert (rd 0 (gap_alignments
                  (dp_after [] Example.sm2 Example.con2 2 2 3 1 0 false 1))
             ((1 - 1) * 2 + 1) = 1) as Hgap by (vm_compute; reflexivity).
  rewrite Hgap in Hclaim.
  assert (1 <= 1 - 1); [|lia].
  apply Hclaim.
  - vm_compute. reflexivity.
  - intros q Hq.
    assert (q = 0 \/ q = 1) as [-> | ->] by lia; vm_compute; reflexivity.
Qed.

(** ** TracebackReconstructor *)

Section TracebackFacts.
Context {F : Type} `{FloatArith F}.
Variables (NUMERATORS con_matrices sm T : list F) (G : list Z).
Variables (N L A max_seq_len eff : Z) (is_precomputed : bool).

Local Abbreviation pN := (max_index T A).
Local Abbreviation pos := (fun t => trace_pos A N G pN (Z.to_nat (N - 1 - t))).

Lemma trace_pos_last : pos (N - 1) = pN.
Proof. cbv beta. replace (N - 1 - (N - 1)) with 0 by lia. reflexivity. Qed.

Lemma trace_pos_pred t :
  1 <= t <= N - 1 -> pos (t - 1) = pos t - rd 0 G ((t - 1) * A + pos t).
Proof.
  intros Ht. cbv beta.
  replace (Z.to_nat (N - 1 - (t - 1))) with (S (Z.to_nat (N - 1 - t))) by lia.
  cbn [trace_pos]. rewrite Z2Nat.id by lia.
  replace (N - 1 - (N - 1 - t) - 1) with (t - 1) by lia. done.
Qed.

(** The loop that walks back through the gap-choice table. *)
Lemma traceback_gaps_loop (cl0 : list Z) :
  2 <= N -> N <= Z.of_nat (length cl0) ->
  let r :=
    for_down (N - 3) 0
      (fun i '(con_lengths, index) =>
         let con_lengths :=
           wr con_lengths (i + 1)
              (rd 0 G (i * A + index - rd 0 con_lengths (i + 2))) in
         (con_lengths, index - rd 0 con_lengths (i + 2)))
      (wr cl0 (N - 1) (rd 0 G ((N - 2) * A + pN)), pN) in
  r.2 = pos 1
  /\ length r.1 = length cl0
  /\ forall t, 1 <= t <= N - 1 -> rd 0 r.1 t = rd 0 G ((t - 1) * A + pos t).
Proof.
  intros HN Hlen r. subst r.
  replace 1 with (0 - 1 + 2) at 1 by lia.
  apply (for_down_ind
    (fun i (s : list Z * Z) =>
       s.2 = pos (i + 2)
       /\ length s.1 = length cl0
       /\ forall t, i + 2 <= t <= N - 1 ->
            rd 0 s.1 t = rd 0 G ((t - 1) * A + pos t))); [lia| |].
  - cbn [fst snd]. replace (N - 3 + 2) with (N - 1) by lia.
    rewrite length_wr, trace_pos_last. repeat split; try done.
    intros t Ht. replace t with (N - 1) by lia.
    rewrite rd_wr_eq, trace_pos_last by lia. f_equal. lia.
  - intros i [cl index] Hi (Hidx & Hlen' & Hset). cbn [fst snd] in *.
    rewrite length_wr.
    assert (rd 0 (wr cl (i + 1)
                     (rd 0 G (i * A + index - rd 0 cl (i + 2)))) (i + 2)
            = rd 0 cl (i + 2)) as -> by (apply rd_wr_ne; lia).
    rewrite (Hset (i + 2)) by lia. rewrite Hidx.
    pose proof (trace_pos_pred (i + 2) ltac:(lia)) as Hpred.
    cbv beta in *.
    replace (i + 2 - 1) with (i + 1) in * by lia.
    replace (i - 1 + 2) with (i + 1) by lia.
    split; [lia|]. split; [done|].
    intros t Ht. destruct (decide (t = i + 1)) as [->|Hne].
    + rewrite rd_wr_eq by lia. f_equal. rewrite Hpred.
      replace (i + 1 - 1) with i by lia. lia.
    + rewrite rd_wr_ne by lia. apply Hset. lia.
Qed.

(** What [traceback] leaves in the three buffers, in terms of the
    positions on the way back. *)
Lemma traceback_spec (out : outputs F) :
  2 <= N ->
  N <= Z.of_nat (length (con_lengths out)) ->
  N + 1 <= Z.of_nat (length (rec_scores out)) ->
  N - 1 <= Z.of_nat (length (con_scores out)) ->
  let out' := traceback NUMERATORS N L con_matrices sm A T G out max_seq_len
                        eff is_precomputed in
  rd 0 (con_lengths out') 0 = pos 0
  /\ (forall t, 1 <= t <= N - 1 ->
        rd 0 (con_lengths out') t = rd 0 G ((t - 1) * A + pos t))
  /\ rd fzero (rec_scores out') N = rd fzero T pN
  /\ (forall t, 0 <= t < N ->
        rd fzero (rec_scores out') t
        = rd fzero sm (t * A + sum_range (con_lengths out') 0 (t + 1)))
  /\ (forall t, 0 <= t < N - 1 ->
        rd fzero (con_scores out') t
        = get_score NUMERATORS con_matrices L eff N
                    (rd 0 (con_lengths out') (t + 1)) max_seq_len t
                    is_precomputed).
Proof.
  intros HN Hcl Hrs Hcs out'. subst out'. unfold traceback.
  destruct (traceback_gaps_loop (con_lengths out) HN Hcl) as (Hidx & Hlen & Hgaps).
  destruct (for_down (N - 3) 0 _ _) as [cl index]. cbn [fst snd] in *.
  set (cl' := wr cl 0 (index - rd 0 cl 1)).
  assert (rd 0 cl' 0 = pos 0) as Hcl0.
  { subst cl'. rewrite rd_wr_eq by lia. rewrite (Hgaps 1), Hidx by lia.
    pose proof (trace_pos_pred 1 ltac:(lia)) as Hp. cbv beta in *.
    replace (1 - 1) with 0 in * by lia. lia. }
  assert (forall t, 1 <= t <= N - 1 ->
            rd 0 cl' t = rd 0 G ((t - 1) * A + pos t)) as Hclt.
  { intros t Ht. subst cl'. rewrite rd_wr_ne by lia. apply Hgaps. done. }
  destruct (for_loop_wr fzero (fun i => i)
              (fun i => get_score NUMERATORS con_matrices L eff N
                          (rd 0 cl' (i + 1)) max_seq_len i is_precomputed)
              0 (N - 1) (con_scores out)) as (_ & Hcs' & _);
    [lia|intros; lia|intros; lia|].
  set (rsloop := for_loop 0 N _ _).
  assert (length rsloop.1 = length (rec_scores out)
          /\ rd fzero rsloop.1 N = rd fzero T pN
          /\ rsloop.2 = sum_range cl' 0 N
          /\ forall t, 0 <= t < N ->
               rd fzero rsloop.1 t
               = rd fzero sm (t * A + sum_range cl' 0 (t + 1))) as Hrsloop.
  { subst rsloop.
    apply (for_loop_ind
      (fun n (s : list F * Z) =>
         length s.1 = length (rec_scores out)
         /\ rd fzero s.1 N = rd fzero T pN
         /\ s.2 = sum_range cl' 0 n
         /\ forall t, 0 <= t < n ->
              rd fzero s.1 t
              = rd fzero sm (t * A + sum_range cl' 0 (t + 1)))); [lia| |].
    - cbn [fst snd]. rewrite length_wr, rd_wr_eq, sum_range_nil by lia.
      repeat split; try done. intros; lia.
    - intros n [rs off] Hn (Hlen' & HrsN & Hoff & Hdone). cbn [fst snd] in *.
      rewrite length_wr, rd_wr_ne, sum_range_snoc by lia.
      repeat split; try done; [congruence|].
      intros t Ht. destruct (decide (t = n)) as [->|Hne].
      + rewrite rd_wr_eq, sum_range_snoc by lia. rewrite Hoff. done.
      + rewrite rd_wr_ne by lia. apply Hdone. lia. }
  destruct rsloop as [rs off]. cbn [fst snd] in *.
  destruct Hrsloop as (_ & HrsN & _ & Hrst).
  cbn [con_lengths rec_scores con_scores].
  repeat split; try done.
Qed.
End TracebackFacts.

Lemma placement_sum_snoc {F : Type} `{FloatArith F} (rs cs : list F) (n : Z) :
  1 <= n ->
  placement_sum rs cs (n + 1)
  = fadd (fadd (placement_sum rs cs n) (rd fzero cs (n - 1))) (rd fzero rs n).
Proof. intros Hn. unfold placement_sum. rewrite for_loop_snoc by lia. done. Qed.

(** In an arithmetic whose addition is associative and commutative the
    placement sum is the sum of the recognizer scores plus the sum of the
    connector scores. *)
Lemma placement_sum_exact {F : Type} `{FloatArith F} (rs cs : list F) (n : Z) :
  2 <= n ->
  (forall a b c : F, fadd (fadd a b) c = fadd a (fadd b c)) ->
  (forall a b : F, fadd a b = fadd b a) ->
  placement_sum rs cs n = fadd (fsum rs 0 n) (fsum cs 0 (n - 1)).
Proof.
  intros Hn Hassoc Hcomm.
  assert (forall k : nat,
            placement_sum rs cs (Z.of_nat k + 2)
            = fadd (fsum rs 0 (Z.of_nat k + 2)) (fsum cs 0 (Z.of_nat k + 1)))
    as Hk.
  { induction k as [|k IH].
    - change (Z.of_nat 0 + 2) with (1 + 1). change (Z.of_nat 0 + 1) with 1.
      unfold placement_sum, fsum.
      change (0 + 1) with 1.
      rewrite !(for_loop_snoc 1 1), !for_loop_nil by lia.
      change (1 - 1) with 0.
      rewrite !Hassoc. f_equal. apply Hcomm.
    - replace (Z.of_nat (S k) + 2) with (Z.of_nat k + 2 + 1) by lia.
      replace (Z.of_nat (S k) + 1) with (Z.of_nat k + 1 + 1) by lia.
      unfold placement_sum, fsum in *.
      rewrite (for_loop_snoc 1 (Z.of_nat k + 2)) by lia. rewrite IH.
      rewrite (for_loop_snoc (0 + 1) (Z.of_nat k + 2)) by lia.
      rewrite (for_loop_snoc (0 + 1) (Z.of_nat k + 1)) by lia.
      replace (Z.of_nat k + 2 - 1) with (Z.of_nat k + 1) by lia.
      set (R := for_loop (0 + 1) (Z.of_nat k + 2) _ _).
      set (C := for_loop (0 + 1) (Z.of_nat k + 1) _ _).
      set (c := rd fzero cs (Z.of_nat k + 1)).
      set (r := rd fzero rs (Z.of_nat k + 2)).
      rewrite !Hassoc. f_equal.
      rewrite (Hcomm r (fadd C c)), !Hassoc. done. }
  specialize (Hk (Z.to_nat (n - 2))).
  replace (Z.of_nat (Z.to_nat (n - 2)) + 2) with n in Hk by lia.
  replace (Z.of_nat (Z.to_nat (n - 2)) + 1) with (n - 1) in Hk by lia. done.
Qed.

(** ** The placement reported for two or more recognizers *)

Section PlacementFacts.
Context {F : Type} `{FloatOrder F}.
Variables (NUMERATORS : list F) (seq : list ascii) (pssm : list F).
Variables (cols : list Z) (con : list F) (max_length : Z).

Local Abbreviation N := (Z.of_nat (length cols)).
Local Abbreviation L := (Z.of_nat (length seq)).
Local Abbreviation A := (L - sum_range cols 0 N + 1).
Local Abbreviation eff := (L - sum_range cols 0 N).
Local Abbreviation pre := (negb (Z.of_nat (length con) =? (N - 1) * 2)).
Local Abbreviation sm :=
  (fill_matrix seq L pssm cols N (calloc_float (A * N)) A).
Local Abbreviation after :=
  (dp_after NUMERATORS sm con A N L eff max_length pre).
Local Abbreviation T := (alignments (after (N - 1))).
Local Abbreviation G := (gap_alignments (after (N - 1))).
Local Abbreviation pos :=
  (fun t => trace_pos A N G (max_index T A) (Z.to_nat (N - 1 - t))).

Lemma py_calculate_traceback (out : outputs F) :
  2 <= N ->
  py_calculate NUMERATORS seq pssm cols con out max_length
  = traceback NUMERATORS N L con sm A T G out max_length eff pre.
Proof.
  intros HN. unfold py_calculate.
  rewrite !get_forward_offset_sum, !get_reverse_offset_sum by lia.
  rewrite (sum_range_nil cols 0 0) by lia.
  replace (L - 0 - (sum_range cols 0 N - 1)) with A by lia.
  destruct (Z.eqb_spec N 1) as [|_]; [lia|].
  unfold fill_traceback_matrix. rewrite dp_run_after. reflexivity.
Qed.

(** Every recorded gap lies between [0] and its ending position. *)
Lemma gap_range s j :
  0 < A -> 1 <= s <= N - 1 -> 0 <= j < A ->
  0 <= rd 0 G ((s - 1) * A + j) <= j.
Proof.
  intros HA Hs Hj.
  destruct (dp_after_spec NUMERATORS sm con A N L eff max_length pre
              (Z.to_nat (N - 1)) ltac:(lia) ltac:(lia)) as (_ & Hrows).
  rewrite Z2Nat.id in Hrows by lia.
  destruct (Hrows s j ltac:(lia) Hj) as [_ ->].
  destruct (dp_best_spec NUMERATORS sm con A N L eff max_length pre
              (alignments (after (s - 1))) s j ltac:(lia)) as [[Hr _] _].
  lia.
Qed.

Lemma max_index_range (arr : list F) size :
  0 < size -> 0 <= max_index arr size < size.
Proof.
  intros Hs. rewrite max_index_first_argmax.
  destruct (first_argmax_is_argmax (rd fzero arr) size Hs) as [Hr _]. done.
Qed.

(** The positions on the way back stay inside the table and do not grow
    towards the first recognizer. *)
Lemma trace_pos_range (d : nat) :
  0 < A -> Z.of_nat d <= N - 1 ->
  0 <= trace_pos A N G (max_index T A) d <= max_index T A.
Proof.
  intros HA. pose proof (max_index_range T A HA) as HpN.
  induction d as [|d IH]; intros Hd; [simpl; lia|].
  specialize (IH ltac:(lia)). cbn [trace_pos].
  set (p := trace_pos A N G (max_index T A) d) in *.
  pose proof (gap_range (N - 1 - Z.of_nat d) p HA ltac:(lia) ltac:(lia)). lia.
Qed.

Lemma pos_range t : 0 < A -> 0 <= t <= N - 1 -> 0 <= pos t < A.
Proof.
  intros HA Ht. pose proof (max_index_range T A HA).
  pose proof (trace_pos_range (Z.to_nat (N - 1 - t)) HA ltac:(lia)). cbv beta. lia.
Qed.

Lemma pos_step t :
  0 < A -> 1 <= t <= N - 1 ->
  pos (t - 1) = pos t - rd 0 G ((t - 1) * A + pos t)
  /\ 0 <= rd 0 G ((t - 1) * A + pos t) <= pos t.
Proof.
  intros HA Ht. split; [apply (trace_pos_pred T G N A); done|].
  apply gap_range; [done|done|]. apply pos_range; [done|lia].
Qed.
(** The connector lengths reported add up, from slot [0] on, to the
    positions on the way back. *)
Lemma reported_lengths (out : outputs F) :
  let out' := py_calculate NUMERATORS seq pssm cols con out max_length in
  2 <= N -> 0 < A ->
  N <= Z.of_nat (length (con_lengths out)) ->
  N + 1 <= Z.of_nat (length (rec_scores out)) ->
  N - 1 <= Z.of_nat (length (con_scores out)) ->
  (forall t, 0 <= t <= N - 1 -> 0 <= rd 0 (con_lengths out') t)
  /\ (forall t, 0 <= t <= N - 1 ->
        sum_range (con_lengths out') 0 (t + 1) = pos t).
Proof.
  intros out' HN HA Hcl Hrs Hcs. subst out'.
  rewrite py_calculate_traceback by done.
  destruct (traceback_spec NUMERATORS con sm T G N L A max_length eff pre out
              HN Hcl Hrs Hcs) as (Hz & Ht & _).
  set (out' := traceback _ _ _ _ _ _ _ _ _ _ _ _) in *.
  split.
  - intros t Ht'. destruct (decide (t = 0)) as [->|Hne].
    + rewrite Hz. apply pos_range; [done|lia].
    + rewrite Ht by lia. apply pos_step; [done|lia].
  - intros t Ht'.
    assert (forall n : nat, Z.of_nat n <= N - 1 ->
              sum_range (con_lengths out') 0 (Z.of_nat n + 1) = pos (Z.of_nat n))
      as Hn.
    { induction n as [|n IH]; intros Hle.
      - change (Z.of_nat 0) with 0.
        rewrite sum_range_snoc, sum_range_nil by lia. rewrite Hz. done.
      - replace (Z.of_nat (S n)) with (Z.of_nat n + 1) in * by lia.
        rewrite sum_range_snoc, IH by lia.
        rewrite Ht by lia.
        destruct (pos_step (Z.of_nat n + 1) HA ltac:(lia)) as [Hstep _].
        replace (Z.of_nat n + 1 - 1) with (Z.of_nat n) in * by lia.
        cbv beta in *. lia. }
    specialize (Hn (Z.to_nat t)). rewrite Z2Nat.id in Hn by lia.
    apply Hn. lia.
Qed.

(** ** Claims on the reported placement *)

(** C6.  On an input whose recognizers fit in the sequence, every reported
    connector length is non-negative, and the recognizer widths plus the
    reported connector lengths, slot [0] included, add up to at most the
    sequence length. *)
Theorem connector_lengths_fit (out : outputs F) :
  let out' := py_calculate NUMERATORS seq pssm cols con out max_length in
  1 <= N ->
  (forall i, 0 <= i < N -> 0 < rd 0 cols i) ->
  sum_range cols 0 N <= L ->
  N <= Z.of_nat (length (con_lengths out)) ->
  N + 1 <= Z.of_nat (length (rec_scores out)) ->
  1 <= Z.of_nat (length (con_scores out)) ->
  N - 1 <= Z.of_nat (length (con_scores out)) ->
  (forall t, 0 <= t < N -> 0 <= rd 0 (con_lengths out') t)
  /\ sum_range cols 0 N + sum_range (con_lengths out') 0 N <= L.
Proof.
  intros out' HN Hw Hfit Hcl Hrs Hcs1 Hcs.
  destruct (decide (N = 1)) as [H1|H1].
  - destruct cols as [|w [|]]; simpl in H1; try lia. clear H1.
    assert (sum_range [w] 0 1 = w) as Hsum.
    { change 1 with (0 + 1). rewrite sum_range_snoc, sum_range_nil by lia.
      reflexivity. }
    change (Z.of_nat (length [w])) with 1 in *. rewrite Hsum in *.
    pose proof (Hw 0 ltac:(lia)) as Hw0. change (rd 0 [w] 0) with w in Hw0.
    pose proof (single_recognizer_range NUMERATORS seq pssm w con out
                  max_length ltac:(lia) ltac:(lia)) as Hrange.
    fold out' in Hrange. split.
    + intros t Ht. replace t with 0 by lia. lia.
    + change 1 with (0 + 1). rewrite sum_range_snoc, sum_range_nil by lia. lia.
  - destruct (reported_lengths out ltac:(lia) ltac:(lia) Hcl Hrs Hcs)
      as [Hpos Hsum].
    fold out' in Hpos, Hsum. split.
    + intros t Ht. apply Hpos. lia.
    + specialize (Hsum (N - 1) ltac:(lia)).
      replace (N - 1 + 1) with N in Hsum by lia. rewrite Hsum.
      pose proof (pos_range (N - 1) ltac:(lia) ltac:(lia)). cbv beta in *. lia.
Qed.

(** C9.  With two or more recognizers and an output buffer of at least
    [N + 1] floats, slot [N] of the recognizer scores holds the entry of
    the final cumulative table at its arg-max, which no entry of the table
    exceeds: the global optimum. *)
Theorem optimum_written_past_recognizer_scores (out : outputs F) :
  let out' := py_calculate NUMERATORS seq pssm cols con out max_length in
  let table :=
    alignments (dp_run NUMERATORS sm con A N L eff max_length pre) in
  let optimum := rd fzero table (max_index table A) in
  2 <= N ->
  sum_range cols 0 N <= L ->
  N <= Z.of_nat (length (con_lengths out)) ->
  N + 1 <= Z.of_nat (length (rec_scores out)) ->
  N - 1 <= Z.of_nat (length (con_scores out)) ->
  rd fzero (rec_scores out') N = optimum
  /\ forall j, 0 <= j < A -> flt optimum (rd fzero table j) = false.
Proof.
  intros out' table optimum HN Hfit Hcl Hrs Hcs.
  subst out' table optimum. rewrite dp_run_after.
  rewrite py_calculate_traceback by done.
  destruct (traceback_spec NUMERATORS con sm T G N L A max_length eff pre out
              HN Hcl Hrs Hcs) as (_ & _ & HN' & _).
  split; [done|].
  rewrite max_index_first_argmax.
  destruct (first_argmax_is_argmax (rd fzero T) A ltac:(lia)) as [_ Hmax]. done.
Qed.

(** The entry of the cumulative table of stage [s] at the position of
    recognizer [s] is the placement sum of the scores reported up to
    [s]. *)
Lemma cumulative_is_placement_sum (out : outputs F) (s : nat) :
  let out' := py_calculate NUMERATORS seq pssm cols con out max_length in
  2 <= N -> 0 < A ->
  N <= Z.of_nat (length (con_lengths out)) ->
  N + 1 <= Z.of_nat (length (rec_scores out)) ->
  N - 1 <= Z.of_nat (length (con_scores out)) ->
  Z.of_nat s <= N - 1 ->
  rd fzero (alignments (after (Z.of_nat s))) (pos (Z.of_nat s))
  = placement_sum (rec_scores out') (con_scores out') (Z.of_nat s + 1).
Proof.
  intros out' HN HA Hcl Hrs Hcs.
  destruct (reported_lengths out HN HA Hcl Hrs Hcs) as [_ Hsum].
  fold out' in Hsum. revert Hsum. subst out'.
  rewrite py_calculate_traceback by done.
  destruct (traceback_spec NUMERATORS con sm T G N L A max_length eff pre out
              HN Hcl Hrs Hcs) as (_ & Hgap & _ & Hrec & Hcon).
  set (out' := traceback _ _ _ _ _ _ _ _ _ _ _ _) in *.
  intros Hsum.
  destruct (dp_after_spec NUMERATORS sm con A N L eff max_length pre
              (Z.to_nat (N - 1)) ltac:(lia) ltac:(lia)) as (_ & Hrows).
  rewrite Z2Nat.id in Hrows by lia.
  induction s as [|s IH]; intros Hs.
  - change (Z.of_nat 0) with 0. rewrite dp_after_0.
    destruct (dp_init_spec sm A N ltac:(lia) ltac:(lia)) as [_ Hinit].
    rewrite Hinit by (apply pos_range; [done|lia]).
    unfold placement_sum. rewrite for_loop_nil by lia.
    rewrite Hrec, Hsum by lia. f_equal.
  - specialize (IH ltac:(lia)).
    set (s' := Z.of_nat (S s)) in *.
    replace (Z.of_nat s) with (s' - 1) in IH by lia.
    destruct (Hrows s' (pos s') ltac:(lia)
                (pos_range s' HA ltac:(lia))) as [Hcum Hrow].
    destruct (pos_step s' HA ltac:(lia)) as [Hstep _].
    assert (dp_best NUMERATORS sm con A N L eff max_length pre
                    (alignments (after (s' - 1))) s' (pos s') = pos (s' - 1))
      as Hbest by (cbv beta in *; lia).
    rewrite Hcum, Hbest. unfold candidate. rewrite IH.
    replace (s' - 1 + 1) with s' by lia.
    rewrite placement_sum_snoc by lia.
    rewrite (Hrec s'), (Hsum s'), (Hcon (s' - 1)) by lia.
    replace (s' - 1 + 1) with s' by lia.
    rewrite (Hgap s') by lia.
    replace (rd 0 G ((s' - 1) * A + pos s')) with (pos s' - pos (s' - 1))
      by (cbv beta in *; lia).
    reflexivity.
Qed.

(** C5 (as amended).  With two or more recognizers, the optimum reported in
    slot [N] is exactly, with no tolerance, the sum of the reported scores
    taken from left to right in the order of the placement,
    [r0 + c0 + r1 + ... + r(N-1)], in the arithmetic of the program,
    binary32 included; in an arithmetic whose addition is associative and
    commutative it is the sum of the [N] recognizer scores plus the sum of
    the [N - 1] connector scores. *)
Theorem reported_scores_sum_to_optimum (out : outputs F) :
  let out' := py_calculate NUMERATORS seq pssm cols con out max_length in
  let optimum := rd fzero (rec_scores out') N in
  2 <= N ->
  sum_range cols 0 N <= L ->
  N <= Z.of_nat (length (con_lengths out)) ->
  N + 1 <= Z.of_nat (length (rec_scores out)) ->
  N - 1 <= Z.of_nat (length (con_scores out)) ->
  optimum = placement_sum (rec_scores out') (con_scores out') N
  /\ ((forall a b c : F, fadd (fadd a b) c = fadd a (fadd b c)) ->
      (forall a b : F, fadd a b = fadd b a) ->
      optimum = fadd (fsum (rec_scores out') 0 N)
                     (fsum (con_scores out') 0 (N - 1))).
Proof.
  intros out' optimum HN Hfit Hcl Hrs Hcs.
  assert (optimum = placement_sum (rec_scores out') (con_scores out') N) as Hopt.
  { pose proof (cumulative_is_placement_sum out (Z.to_nat (N - 1)) HN
                  ltac:(lia) Hcl Hrs Hcs ltac:(lia)) as Hcum.
    fold out' in Hcum. rewrite Z2Nat.id in Hcum by lia.
    replace (N - 1 + 1) with N in Hcum by lia. rewrite <- Hcum.
    subst optimum out'. rewrite py_calculate_traceback by done.
    destruct (traceback_spec NUMERATORS con sm T G N L A max_length eff pre
                out HN Hcl Hrs Hcs) as (_ & _ & -> & _).
    rewrite trace_pos_last. done. }
  split; [done|]. intros Hassoc Hcomm. rewrite Hopt.
  apply placement_sum_exact; [lia|done|done].
Qed.
End PlacementFacts.

Lemma connector_lengths_witness :
  let out' := py_calculate [] Example.seq2 Example.pssm2 [1; 1] Example.con2
                           Example.out2 0 in
  (forall t, 0 <= t < 2 -> 0 <= rd 0 (con_lengths out') t)
  /\ sum_range [1; 1] 0 2 + sum_range (con_lengths out') 0 2 <= 3.
Proof.
  refine (connector_lengths_fit [] Example.seq2 Example.pssm2 [1; 1]
            Example.con2 0 Example.out2 _ _ _ _ _ _ _).
  - vm_compute. discriminate.
  - intros i Hi. change (Z.of_nat (length [1; 1])) with 2 in Hi.
    assert (i = 0 \/ i = 1) as [-> | ->] by lia; reflexivity.
  - vm_compute. discriminate.
  - vm_compute. discriminate.
  - vm_compute. discriminate.
  - vm_compute. discriminate.
  - vm_compute. discriminate.
Defined.

Lemma optimum_slot_witness :
  let out' := py_calculate [] Example.seq2 Example.pssm2 [1; 1] Example.con2
                           Example.out2 0 in
  let table :=
    alignments (dp_run [] Example.sm2 Example.con2 2 2 3 1 0 false) in
  let optimum := rd fzero table (max_index table 2) in
  rd fzero (rec_scores out') 2 = optimum
  /\ forall j, 0 <= j < 2 -> flt optimum (rd fzero table j) = false.
Proof.
  refine (optimum_written_past_recognizer_scores
            [] Example.seq2 Example.pssm2 [1; 1] Example.con2 0 Example.out2
            _ _ _ _ _).
  - vm_compute. discriminate.
  - vm_compute. discriminate.
  - vm_compute. discriminate.
  - vm_compute. discriminate.
  - vm_compute. discriminate.
Defined.

Lemma ExactQ_fadd_assoc (a b c : Q) : fadd (fadd a b) c = fadd a (fadd b c).
Proof.
  simpl. apply Qred_complete. rewrite !Qred_correct.
  symmetry. apply Qplus_assoc.
Qed.

Lemma ExactQ_fadd_comm (a b : Q) : fadd a b = fadd b a.
Proof. simpl. apply Qred_complete. apply Qplus_comm. Qed.

Lemma reported_scores_witness :
  let out' := py_calculate [] Example.seq2 Example.pssm3 [1; 1] Example.con3
                           Example.out3 0 in
  let optimum := rd fzero (rec_scores out') 2 in
  optimum = placement_sum (rec_scores out') (con_scores out') 2
  /\ optimum = fadd (fsum (rec_scores out') 0 2)
                    (fsum (con_scores out') 0 (2 - 1)).
Proof.
  destruct (reported_scores_sum_to_optimum
              [] Example.seq2 Example.pssm3 [1; 1] Example.con3 0 Example.out3)
    as [Hsum Hexact].
  - vm_compute. discriminate.
  - vm_compute. discriminate.
  - vm_compute. discriminate.
  - vm_compute. discriminate.
  - vm_compute. discriminate.
  - split; [exact Hsum|].
    exact (Hexact ExactQ_fadd_assoc ExactQ_fadd_comm).
Defined.

(** C5, with the tolerance of the claim: on [AA] the two recognizers have
    one placement, reported with the scores [8192] and [-8192] and the
    connector score [c = 13933176 * 2^-20], about [13.2877].  The optimum
    in slot [2] is [(8192 + c) - 8192], in which [c] was rounded to a
    multiple of [2^-10]: it is [13933568 * 2^-20], which lies [49/131072],
    more than [0.0001], off the sum of the three reported scores, whether
    that sum is taken exactly or in binary32 with the recognizer scores
    first. *)
Lemma grouped_sum_misses_optimum :
  let out' := py_calculate [] Example.seq_aa Example.pssm_big [1; 1]
                           Example.stat4 Example.out2 0 in
  rec_scores out'
  = [S754_finite false 8388608 (-10); S754_finite true 8388608 (-10);
     S754_finite false 13933568 (-20)]
  /\ con_scores out' = [S754_finite false 13933176 (-20)]
  /\ con_lengths out' = [0; 0]
  /\ fadd (fsum (rec_scores out') 0 2) (fsum (con_scores out') 0 1)
     = S754_finite false 13933176 (-20)
  /\ ~ scores_sum_within (1 # 10000) out' 2.
Proof.
  split; [vm_compute; reflexivity|]. split; [vm_compute; reflexivity|].
  split; [vm_compute; reflexivity|]. split; [vm_compute; reflexivity|].
  unfold scores_sum_within. intros Hle. apply Qle_bool_iff in Hle.
  vm_compute in Hle. discriminate.
Qed.

(** ** Claims on the connector scores *)

Lemma get_denominator_binom {F : Type} `{FloatArith F} (d N L a b : Z) :
  1 <= N -> L <= ULONG_MAX -> 1 <= d <= L - N + 1 ->
  bin_run (L - d) (N - 1) = BinDone a -> bin_run L N = BinDone b ->
  get_denominator d N L
  = fdiv (of_int (binom (Z.to_nat (L - d)) (Z.to_nat (N - 1))))
         (of_int (binom (Z.to_nat L) (Z.to_nat N))).
Proof.
  intros HN HL Hd Ha Hb. unfold get_denominator.
  destruct (Z.leb_spec 1 d) as [_|]; [|lia].
  destruct (Z.leb_spec d (L - N + 1)) as [_|]; [|lia]. cbn [andb].
  rewrite !ull_small by lia. unfold bin. rewrite Ha, Hb.
  apply bin_run_exact in Ha, Hb; [|lia..]. subst a b. done.
Qed.

(** C4 (as amended).  For [d = gapLength + 1]: if [1 <= d <= L - N + 1] the
    result is the quotient of [bin (L - d) (N - 1)] by [bin L N], which is
    [C(L - d, N - 1) / C(L, N)] whenever neither evaluation of [bin] leaves
    through its overflow return; otherwise it is the constant [0.0001]. *)
Theorem get_denominator_quotient_or_constant {F : Type} `{FloatArith F}
    (d N L a b : Z) :
  1 <= N -> L <= ULONG_MAX ->
  (1 <= d <= L - N + 1 ->
   get_denominator d N L = fdiv (of_int (bin (L - d) (N - 1))) (of_int (bin L N))
   /\ (bin_run (L - d) (N - 1) = BinDone a -> bin_run L N = BinDone b ->
       get_denominator d N L
       = fdiv (of_int (binom (Z.to_nat (L - d)) (Z.to_nat (N - 1))))
              (of_int (binom (Z.to_nat L) (Z.to_nat N)))))
  /\ (~ (1 <= d <= L - N + 1) -> get_denominator d N L = lit 0.0001%Q).
Proof.
  intros HN HL. split.
  - intros Hd. unfold get_denominator.
    destruct (Z.leb_spec 1 d) as [_|]; [|lia].
    destruct (Z.leb_spec d (L - N + 1)) as [_|]; [|lia]. cbn [andb].
    rewrite !ull_small by lia. split; [done|].
    intros Ha Hb. rewrite <- (get_denominator_binom d N L a b) by done.
    unfold get_denominator.
    destruct (Z.leb_spec 1 d) as [_|]; [|lia].
    destruct (Z.leb_spec d (L - N + 1)) as [_|]; [|lia]. cbn [andb].
    rewrite !ull_small by lia. done.
  - intros Hd. unfold get_denominator.
    destruct (Z.leb_spec 1 d) as [|]; [|done].
    destruct (Z.leb_spec d (L - N + 1)) as [|]; [lia|done].
Qed.

Lemma get_denominator_witness :
  (1 <= 2 <= 10 - 2 + 1 ->
   @get_denominator spec_float _ 2 2 10
   = fdiv (of_int (bin (10 - 2) (2 - 1))) (of_int (bin 10 2))
   /\ (bin_run (10 - 2) (2 - 1) = BinDone 8 -> bin_run 10 2 = BinDone 45 ->
       @get_denominator spec_float _ 2 2 10
       = fdiv (of_int (binom (Z.to_nat (10 - 2)) (Z.to_nat (2 - 1))))
              (of_int (binom (Z.to_nat 10) (Z.to_nat 2)))))
  /\ (~ (1 <= 2 <= 10 - 2 + 1) ->
      @get_denominator spec_float _ 2 2 10 = lit 0.0001%Q).
Proof.
  refine (get_denominator_quotient_or_constant 2 2 10 8 45 _ _).
  - lia.
  - vm_compute. discriminate.
Defined.

(** C4, the overflow sentinel: for [d = 1], [N = 10] and [L = 400] the gap
    is feasible and [bin 400 10] is the sentinel [0]; the quotient is then
    taken with a zero divisor and is [+infinity], not [0.0001]. *)
Lemma overflow_sentinel_is_not_floored :
  1 <= 1 <= 400 - 10 + 1
  /\ bin 400 10 = 0
  /\ @get_denominator spec_float _ 1 10 400 = S754_infinity false
  /\ @get_denominator spec_float _ 1 10 400 <> lit 0.0001%Q.
Proof.
  split; [lia|]. split; [vm_compute; reflexivity|].
  split; [vm_compute; reflexivity|]. vm_compute. discriminate.
Qed.

(** ** Rounding in binary32

    What [SpecFloat]'s rounding returns: a valid binary32 value, which is
    not zero when the rounded number is positive and its exponent is not
    below the least one. *)

Section Rounding32.
Local Abbreviation valid32 := (valid_binary Binary32.prec Binary32.emax).

Lemma fexp32 z : fexp Binary32.prec Binary32.emax z = Z.max (z - 24) (-149).
Proof. reflexivity. Qed.

Lemma digits2_pos_log2 p : Zpos (digits2_pos p) = Z.log2 (Zpos p) + 1.
Proof.
  induction p as [p IH|p IH|]; cbn [digits2_pos]; [| |reflexivity].
  - rewrite Pos2Z.inj_succ, IH.
    change (Zpos p~1) with (2 * Zpos p + 1).
    rewrite Z.log2_succ_double by lia. lia.
  - rewrite Pos2Z.inj_succ, IH.
    change (Zpos p~0) with (2 * Zpos p).
    rewrite Z.log2_double by lia. lia.
Qed.

Lemma Zdigits2_log2 m : 0 < m -> Zdigits2 m = Z.log2 m + 1.
Proof. destruct m as [|p|p]; try lia. intros _. apply digits2_pos_log2. Qed.

Lemma Zdigits2_nonneg m : 0 <= Zdigits2 m.
Proof. destruct m; simpl; lia. Qed.

Lemma Zdigits2_bounds m :
  0 < m -> 2 ^ (Zdigits2 m - 1) <= m < 2 ^ Zdigits2 m.
Proof.
  intros Hm. rewrite Zdigits2_log2 by done.
  replace (Z.log2 m + 1 - 1) with (Z.log2 m) by lia.
  replace (Z.log2 m + 1) with (Z.succ (Z.log2 m)) by lia.
  apply Z.log2_spec. done.
Qed.

Lemma Zdigits2_unique m d :
  1 <= d -> 2 ^ (d - 1) <= m < 2 ^ d -> Zdigits2 m = d.
Proof.
  intros Hd Hm.
  assert (0 < m).
  { pose proof (Z.pow_pos_nonneg 2 (d - 1) ltac:(lia) ltac:(lia)). lia. }
  rewrite Zdigits2_log2 by done.
  rewrite (Z.log2_unique m (d - 1)); [lia|lia|].
  replace (Z.succ (d - 1)) with d by lia. done.
Qed.

Lemma Zdigits2_le m d : 0 <= m -> 0 <= d -> m < 2 ^ d -> Zdigits2 m <= d.
Proof.
  intros Hm Hd Hlt. destruct (decide (m = 0)) as [->|]; [simpl; lia|].
  pose proof (Zdigits2_bounds m ltac:(lia)) as [Hlo _].
  destruct (decide (Zdigits2 m <= d)); [done|].
  assert (2 ^ d <= 2 ^ (Zdigits2 m - 1)) by (apply Z.pow_le_mono_r; lia). lia.
Qed.

Lemma Zdigits2_ge m d : 1 <= d -> 2 ^ (d - 1) <= m -> d <= Zdigits2 m.
Proof.
  intros Hd Hlo.
  assert (0 < m).
  { pose proof (Z.pow_pos_nonneg 2 (d - 1) ltac:(lia) ltac:(lia)). lia. }
  pose proof (Zdigits2_bounds m ltac:(lia)) as [_ Hhi].
  destruct (decide (d <= Zdigits2 m)); [done|].
  assert (2 ^ Zdigits2 m <= 2 ^ (d - 1)).
  { apply Z.pow_le_mono_r; [lia|]. pose proof (Zdigits2_nonneg m). lia. }
  lia.
Qed.

Lemma shr_1_m mrs :
  0 <= shr_m mrs -> shr_m (shr_1 mrs) = shr_m mrs / 2.
Proof.
  destruct mrs as [m r s]. cbn [shr_m]. intros Hm.
  destruct m as [|[p|p|]|p]; cbn [shr_1 shr_m]; try lia; try reflexivity.
  - apply (Z.div_unique _ _ _ 1); [lia|]. rewrite Pos2Z.inj_xI. lia.
  - apply (Z.div_unique _ _ _ 0); [lia|]. rewrite Pos2Z.inj_xO. lia.
Qed.

Lemma iter_shr_1_m p mrs :
  0 <= shr_m mrs ->
  shr_m (SpecFloat.iter_pos shr_1 p mrs) = shr_m mrs / 2 ^ Zpos p.
Proof.
  revert mrs. induction p as [p IH|p IH|]; intros mrs Hm; cbn [SpecFloat.iter_pos].
  - assert (0 <= shr_m (shr_1 mrs)) as H1.
    { rewrite shr_1_m by done. apply Z.div_pos; lia. }
    assert (0 <= shr_m (SpecFloat.iter_pos shr_1 p (shr_1 mrs))) as H2.
    { rewrite IH by done. apply Z.div_pos; [done|]. apply Z.pow_pos_nonneg; lia. }
    rewrite IH, IH, shr_1_m by done.
    rewrite !Z.div_div by (try apply Z.pow_pos_nonneg; lia).
    f_equal. rewrite Pos2Z.inj_xI, <- Z.pow_add_r, <- Z.pow_succ_r by lia.
    f_equal. lia.
  - assert (0 <= shr_m (SpecFloat.iter_pos shr_1 p mrs)) as H2.
    { rewrite IH by done. apply Z.div_pos; [done|]. apply Z.pow_pos_nonneg; lia. }
    rewrite IH, IH by done.
    rewrite !Z.div_div by (try apply Z.pow_pos_nonneg; lia).
    f_equal. rewrite Pos2Z.inj_xO, <- Z.pow_add_r by lia. f_equal. lia.
  - rewrite shr_1_m by done. reflexivity.
Qed.

Lemma shr_record_of_loc_m m l : shr_m (shr_record_of_loc m l) = m.
Proof. destruct l as [|[]]; reflexivity. Qed.

Lemma shr_fexp_spec m e l :
  0 <= m ->
  let n := fexp Binary32.prec Binary32.emax (Zdigits2 m + e) - e in
  shr_m (shr_fexp Binary32.prec Binary32.emax m e l).1
  = (if 0 <? n then m / 2 ^ n else m)
  /\ (shr_fexp Binary32.prec Binary32.emax m e l).2
     = (if 0 <? n then e + n else e).
Proof.
  intros Hm n. unfold shr_fexp. fold n. unfold shr.
  destruct n as [|p|p]; cbn [fst snd Z.ltb Z.compare].
  - split; [apply shr_record_of_loc_m|done].
  - split; [|done]. rewrite iter_shr_1_m by (rewrite shr_record_of_loc_m; done).
    rewrite shr_record_of_loc_m. done.
  - split; [apply shr_record_of_loc_m|done].
Qed.

Lemma round_nearest_even_range m l :
  m <= round_nearest_even m l <= m + 1.
Proof.
  destruct l as [|[]]; cbn [round_nearest_even]; try lia.
  destruct (Z.even m); lia.
Qed.

Lemma binary_round_aux_unfold sx m e l :
  binary_round_aux Binary32.prec Binary32.emax sx m e l
  = let s1 := shr_fexp Binary32.prec Binary32.emax m e l in
    let m2 := round_nearest_even (shr_m s1.1) (loc_of_shr_record s1.1) in
    let s2 := shr_fexp Binary32.prec Binary32.emax m2 s1.2 loc_Exact in
    match shr_m s2.1 with
    | Z0 => S754_zero sx
    | Zpos p => if s2.2 <=? 104 then S754_finite sx p s2.2
                else S754_infinity sx
    | Zneg _ => S754_nan
    end.
Proof.
  unfold binary_round_aux.
  destruct (shr_fexp Binary32.prec Binary32.emax m e l) as [mrs1 e1].
  cbn [fst snd].
  destruct (shr_fexp Binary32.prec Binary32.emax _ e1 loc_Exact) as [mrs2 e2].
  reflexivity.
Qed.

Lemma pow2_23 : 2 ^ 23 = 8388608. Proof. reflexivity. Qed.
Lemma pow2_24 : 2 ^ 24 = 16777216. Proof. reflexivity. Qed.

Lemma binary_round_aux_shape sx m e l :
  0 <= m ->
  e <= fexp Binary32.prec Binary32.emax (Zdigits2 m + e) ->
  let r := binary_round_aux Binary32.prec Binary32.emax sx m e l in
  valid_binary Binary32.prec Binary32.emax r = true
  /\ (r = S754_zero sx \/ (exists p e', r = S754_finite sx p e')
      \/ r = S754_infinity sx)
  /\ (0 < m -> -149 <= e -> r <> S754_zero sx)
  /\ (forall K, Zdigits2 m + e <= K -> -126 <= K <= 126 ->
       below_pow2 (K + 1) r = true).
Proof.
  intros Hm HP r. subst r. rewrite binary_round_aux_unfold. cbv zeta.
  destruct (shr_fexp_spec m e l Hm) as [Hm1 He1].
  set (s1 := shr_fexp Binary32.prec Binary32.emax m e l) in *.
  set (m1 := shr_m s1.1) in *. set (e1 := s1.2) in *.
  set (m2 := round_nearest_even m1 (loc_of_shr_record s1.1)).
  pose proof (round_nearest_even_range m1 (loc_of_shr_record s1.1)) as Hm2.
  fold m2 in Hm2.
  set (d := Zdigits2 m) in *.
  pose proof (Zdigits2_nonneg m) as Hd. fold d in Hd.
  rewrite fexp32 in HP, Hm1, He1.
  set (n1 := Z.max (d + e - 24) (-149) - e) in *.
  assert (0 <= n1) as Hn1 by (subst n1; lia).
  assert (m1 = m / 2 ^ n1) as Hm1'.
  { rewrite Hm1. destruct (Z.ltb_spec 0 n1); [done|].
    replace n1 with 0 by lia. rewrite Z.pow_0_r, Z.div_1_r. done. }
  assert (e1 = e + n1) as He1'.
  { rewrite He1. destruct (Z.ltb_spec 0 n1); lia. }
  clear Hm1 He1.
  assert (0 < 2 ^ n1) as Hp1 by (apply Z.pow_pos_nonneg; lia).
  assert (0 <= m1) as Hm1nn by (rewrite Hm1'; apply Z.div_pos; lia).
  assert (0 <= m2) as Hm2nn by lia.
  destruct (shr_fexp_spec m2 e1 loc_Exact Hm2nn) as [Hm3 He3].
  set (s2 := shr_fexp Binary32.prec Binary32.emax m2 e1 loc_Exact) in *.
  rewrite fexp32 in Hm3, He3.
  destruct (decide (-149 <= d + e - 24)) as [Hnorm|Hsub].
  - (* normal range *)
    assert (0 < m) as Hmpos.
    { destruct (decide (m = 0)) as [->|]; [|lia]. subst d n1. simpl in *. lia. }
    assert (n1 = d - 24) as Hn1' by (subst n1; lia).
    pose proof (Zdigits2_bounds m Hmpos) as [Hlo Hhi]. fold d in Hlo, Hhi.
    assert (2 ^ 23 <= m1 < 2 ^ 24) as Hm1r.
    { rewrite Hm1'. split.
      - apply Z.div_le_lower_bound; [done|].
        rewrite <- Z.pow_add_r by lia. replace (n1 + 23) with (d - 1) by lia.
        done.
      - apply Z.div_lt_upper_bound; [done|].
        rewrite <- Z.pow_add_r by lia. replace (n1 + 24) with d by lia. done. }
    rewrite pow2_23, pow2_24 in Hm1r.
    assert (e1 = d + e - 24) as He1n by lia.
    destruct (decide (m2 < 2 ^ 24)) as [Hlt|Hge].
    + assert (Zdigits2 m2 = 24) as Hd2.
      { apply Zdigits2_unique; [lia|]. rewrite pow2_24 in *.
        change (2 ^ (24 - 1)) with 8388608. lia. }
      rewrite Hd2 in Hm3, He3.
      destruct (Z.ltb_spec 0 (Z.max (24 + e1 - 24) (-149) - e1)) as [|_]; [lia|].
      rewrite Hm3, He3.
      destruct m2 as [|p|p] eqn:Hm2e; [rewrite pow2_24 in *; lia| |lia].
      split; [|split; [|split]].
      * destruct (Z.leb_spec e1 104) as [Hle|]; [|done].
        cbn [valid_binary]. unfold SpecFloat.bounded, SpecFloat.canonical_mantissa.
        change (Zpos (digits2_pos p)) with (Zdigits2 (Zpos p)).
        rewrite Hd2, fexp32.
        apply andb_true_iff. split; [apply Z.eqb_eq; lia|].
        apply Z.leb_le. exact Hle.
      * destruct (e1 <=? 104); eauto.
      * intros _ _. destruct (e1 <=? 104); discriminate.
      * intros K HK HKr. destruct (Z.leb_spec e1 104) as [_|]; [|lia].
        cbn [below_pow2].
        change (Zpos (digits2_pos p)) with (Zdigits2 (Zpos p)).
        rewrite Hd2. apply Z.leb_le. lia.
    + assert (m2 = 2 ^ 24) as Hm2e by (rewrite pow2_24 in *; lia).
      assert (Zdigits2 m2 = 25) as Hd2 by (rewrite Hm2e; reflexivity).
      rewrite Hd2 in Hm3, He3.
      assert (Z.max (25 + e1 - 24) (-149) - e1 = 1) as Hn2 by lia.
      rewrite Hn2 in Hm3, He3. cbn [Z.ltb Z.compare] in Hm3, He3.
      rewrite Hm3, He3, Hm2e.
      change (2 ^ 24 / 2 ^ 1) with (Zpos 8388608).
      cbv iota beta.
      split; [|split; [|split]].
      * destruct (Z.leb_spec (e1 + 1) 104) as [Hle|]; [|done].
        cbn [valid_binary]. unfold SpecFloat.bounded, SpecFloat.canonical_mantissa.
        change (Zpos (digits2_pos 8388608)) with 24. rewrite fexp32.
        apply andb_true_iff. split; [apply Z.eqb_eq; lia|].
        apply Z.leb_le. exact Hle.
      * destruct (e1 + 1 <=? 104); eauto.
      * intros _ _. destruct (e1 + 1 <=? 104); discriminate.
      * intros K HK HKr. destruct (Z.leb_spec (e1 + 1) 104) as [_|]; [|lia].
        cbn [below_pow2]. change (Zpos (digits2_pos 8388608)) with 24.
        apply Z.leb_le. lia.
  - (* subnormal range *)
    assert (n1 = -149 - e) as Hn1' by (subst n1; lia).
    assert (e1 = -149) as He1s by lia.
    assert (m1 < 2 ^ 23) as Hm1r.
    { rewrite Hm1'. apply Z.div_lt_upper_bound; [done|].
      rewrite <- Z.pow_add_r by lia.
      destruct (decide (m = 0)) as [->|Hne].
      - apply Z.pow_pos_nonneg; lia.
      - pose proof (Zdigits2_bounds m ltac:(lia)) as [_ Hhi]. fold d in Hhi.
        eapply Z.lt_le_trans; [exact Hhi|].
        apply Z.pow_le_mono_r; lia. }
    assert (Zdigits2 m2 <= 24) as Hd2.
    { apply Zdigits2_le; [lia|lia|]. rewrite pow2_23, pow2_24 in *. lia. }
    pose proof (Zdigits2_nonneg m2) as Hd2nn.
    destruct (Z.ltb_spec 0 (Z.max (Zdigits2 m2 + e1 - 24) (-149) - e1))
      as [|_]; [lia|].
    rewrite Hm3, He3, He1s.
    destruct m2 as [|p|p] eqn:Hm2e; [| |lia].
    + split; [done|]. split; [eauto|]. split; [|done].
      intros Hmpos He. exfalso.
      assert (n1 = 0) as Hz by lia. rewrite Hz, Z.pow_0_r, Z.div_1_r in Hm1'.
      lia.
    + change (-149 <=? 104) with true. cbv iota.
      split; [|split; [eauto|split; [discriminate|]]].
      * cbn [valid_binary]. unfold SpecFloat.bounded, SpecFloat.canonical_mantissa.
        change (Zpos (digits2_pos p)) with (Zdigits2 (Zpos p)).
        rewrite fexp32. apply andb_true_iff.
        split; [apply Z.eqb_eq; lia|done].
      * intros K HK HKr. cbn [below_pow2].
        change (Zpos (digits2_pos p)) with (Zdigits2 (Zpos p)).
        apply Z.leb_le. lia.
Qed.

Lemma iter_xO_pow p d : Zpos (Pos.iter xO p d) = Zpos p * 2 ^ Zpos d.
Proof.
  induction d as [|d IH] using Pos.peano_ind.
  - cbn [Pos.iter]. rewrite Pos2Z.inj_xO. lia.
  - rewrite Pos.iter_succ, Pos2Z.inj_xO, IH, Pos2Z.inj_succ, Z.pow_succ_r by lia.
    lia.
Qed.

Lemma Zdigits2_mul_pow2 m n :
  0 < m -> 0 <= n -> Zdigits2 (m * 2 ^ n) = Zdigits2 m + n.
Proof.
  intros Hm Hn.
  assert (0 < 2 ^ n) by (apply Z.pow_pos_nonneg; lia).
  rewrite !Zdigits2_log2 by lia.
  rewrite Z.log2_mul_pow2 by lia. lia.
Qed.

Lemma binary_round_valid sx mx ex :
  valid32 (binary_round Binary32.prec Binary32.emax sx mx ex) = true.
Proof.
  unfold binary_round, shl_align. rewrite fexp32.
  set (d := Zpos (digits2_pos mx)).
  assert (d = Zdigits2 (Zpos mx)) as Hd by reflexivity.
  destruct (Z.max (d + ex - 24) (-149) - ex) as [|n|n] eqn:Hn.
  - apply binary_round_aux_shape; [lia|]. rewrite fexp32, <- Hd. lia.
  - apply binary_round_aux_shape; [lia|]. rewrite fexp32, <- Hd. lia.
  - apply binary_round_aux_shape; [lia|]. rewrite fexp32.
    rewrite iter_xO_pow, Zdigits2_mul_pow2, <- Hd by lia. lia.
Qed.

Lemma binary_normalize_valid m e sz :
  valid32 (binary_normalize Binary32.prec Binary32.emax m e sz) = true.
Proof. destruct m; [done|apply binary_round_valid..]. Qed.

Lemma SFsub_valid x y :
  valid32 x = true -> valid32 y = true ->
  valid32 (SFsub Binary32.prec Binary32.emax x y) = true.
Proof.
  intros Hx Hy.
  destruct x as [sx|sx| |sx mx ex], y as [sy|sy| |sy my ey];
    cbn [SFsub]; try done; try (destruct sx, sy; done).
  apply binary_normalize_valid.
Qed.

(** The quotient handed to the rounding by [SFdiv] meets its requirement. *)
Lemma SFdiv_core_ready mx ex my ey :
  let r := SFdiv_core_binary Binary32.prec Binary32.emax
                            (Zpos mx) ex (Zpos my) ey in
  0 <= r.1.1
  /\ r.1.2 <= fexp Binary32.prec Binary32.emax (Zdigits2 r.1.1 + r.1.2)
  /\ r.1.2 = Z.min (Z.max (Zdigits2 (Zpos mx) + ex - (Zdigits2 (Zpos my) + ey) - 24)
                          (-149)) (ex - ey)
  /\ r.1.1 = Zpos mx * 2 ^ (ex - ey - r.1.2) / Zpos my.
Proof.
  unfold SFdiv_core_binary. rewrite fexp32.
  set (d1 := Zdigits2 (Zpos mx)). set (d2 := Zdigits2 (Zpos my)).
  set (e' := Z.min (Z.max (d1 + ex - (d2 + ey) - 24) (-149)) (ex - ey)).
  set (s := ex - ey - e').
  assert (0 <= s) as Hs by (subst s e'; lia).
  set (m' := match s with Z0 => Zpos mx | Zpos _ => Z.shiftl (Zpos mx) s
             | Zneg _ => 0 end).
  assert (m' = Zpos mx * 2 ^ s) as Hm'.
  { subst m'. destruct s as [|p|p] eqn:Hse; [lia| |lia].
    rewrite Z.shiftl_mul_pow2 by lia. done. }
  assert (0 < 2 ^ s) as Hps by (apply Z.pow_pos_nonneg; lia).
  pose proof (Z_div_mod m' (Zpos my) ltac:(lia)) as Hdm.
  destruct (Z.div_eucl m' (Zpos my)) as [q r] eqn:Hqr.
  assert (q = m' / Zpos my) as Hq.
  { unfold Z.div. rewrite Hqr. done. }
  cbn [fst snd]. rewrite fexp32.
  assert (0 <= q) as Hq0.
  { rewrite Hq. apply Z.div_pos; lia. }
  split; [done|]. split; [|split; [reflexivity|rewrite Hq, Hm'; done]].
  destruct (decide (e' <= -149)) as [|Hbig]; [lia|].
  assert (e' <= d1 + ex - (d2 + ey) - 24) as He' by (subst e'; lia).
  set (k := d1 + s - d2).
  assert (24 <= k) as Hk by (subst k s; lia).
  pose proof (Zdigits2_bounds (Zpos mx) ltac:(lia)) as [Hlo1 _].
  pose proof (Zdigits2_bounds (Zpos my) ltac:(lia)) as [_ Hhi2].
  fold d1 in Hlo1. fold d2 in Hhi2.
  pose proof (Zdigits2_nonneg (Zpos my)) as Hd2. fold d2 in Hd2.
  assert (1 <= d1) as Hd1 by (subst d1; simpl; lia).
  assert (2 ^ (k - 1) <= q) as Hqlo.
  { rewrite Hq. apply Z.div_le_lower_bound; [lia|].
    rewrite Hm'.
    transitivity (2 ^ d2 * 2 ^ (k - 1)).
    - apply Z.mul_le_mono_nonneg_r; [apply Z.pow_nonneg|]; lia.
    - rewrite <- Z.pow_add_r by lia.
      replace (d2 + (k - 1)) with ((d1 - 1) + s) by (subst k; lia).
      rewrite Z.pow_add_r by lia.
      apply Z.mul_le_mono_nonneg_r; lia. }
  pose proof (Zdigits2_ge q k ltac:(lia) Hqlo) as Hdq.
  subst k s. lia.
Qed.

Lemma SFdiv_valid x y : valid32 (SFdiv Binary32.prec Binary32.emax x y) = true.
Proof.
  destruct x as [sx|sx| |sx mx ex], y as [sy|sy| |sy my ey];
    cbn [SFdiv]; try done.
  destruct (SFdiv_core_ready mx ex my ey) as (Hq & HP & _).
  destruct (SFdiv_core_binary _ _ _ _ _ _) as [[q e'] l]. cbn [fst snd] in *.
  apply binary_round_aux_shape; done.
Qed.

Lemma bounded_digits m e :
  SpecFloat.bounded Binary32.prec Binary32.emax m e = true ->
  Z.max (Zdigits2 (Zpos m) + e - 24) (-149) = e /\ e <= 104.
Proof.
  unfold SpecFloat.bounded, SpecFloat.canonical_mantissa. rewrite fexp32.
  intros [Hc He]%andb_true_iff. apply Z.eqb_eq in Hc. apply Z.leb_le in He.
  split; [exact Hc|exact He].
Qed.

(** What a floor leaves: [+infinity], or a valid positive number whose
    exponent is not below that of the floor. *)
Lemma floored_shape (x : spec_float) (mc : positive) (ec : Z) :
  let c := S754_finite false mc ec in
  let x' := if SFltb x c then c else x in
  valid32 c = true -> valid32 x = true -> Binary32.is_nan x = false ->
  x' = S754_infinity false
  \/ exists m e, x' = S754_finite false m e /\ ec <= e
                 /\ SpecFloat.bounded Binary32.prec Binary32.emax m e = true.
Proof.
  intros c x' Hc Hx Hnan. subst x' c.
  destruct x as [s|[]| |[] m e]; cbn [SFltb SFcompare]; try done; eauto.
  - right. exists mc, ec. split; [done|]. split; [lia|done].
  - right. exists mc, ec. split; [done|]. split; [lia|done].
  - right. exists mc, ec. split; [done|]. split; [lia|done].
  - destruct (Z.compare_spec e ec) as [Heq|Hlt|Hgt].
    + destruct (Pos.compare_cont Eq m mc).
      * right. exists m, e. split; [done|]. split; [lia|done].
      * right. exists mc, ec. split; [done|]. split; [lia|done].
      * right. exists m, e. split; [done|]. split; [lia|done].
    + right. exists mc, ec. split; [done|]. split; [lia|done].
    + right. exists m, e. split; [done|]. split; [lia|done].
Qed.

(** The quotient of a number that is at least [2^-17] by a valid positive
    number does not underflow to zero. *)
Lemma SFdiv_no_underflow mx ex my ey :
  -40 <= ex ->
  SpecFloat.bounded Binary32.prec Binary32.emax mx ex = true ->
  SpecFloat.bounded Binary32.prec Binary32.emax my ey = true ->
  SFltb (S754_zero false)
        (SFdiv Binary32.prec Binary32.emax (S754_finite false mx ex)
               (S754_finite false my ey)) = true.
Proof.
  intros Hex [Hcx _]%bounded_digits [Hcy Hey]%bounded_digits.
  cbn [SFdiv xorb].
  destruct (SFdiv_core_ready mx ex my ey) as (Hq0 & HP & He' & Hq).
  destruct (SFdiv_core_binary _ _ _ _ _ _) as [[q e'] l]. cbn [fst snd] in *.
  pose proof (Zdigits2_bounds (Zpos mx) ltac:(lia)) as [Hlo1 _].
  pose proof (Zdigits2_bounds (Zpos my) ltac:(lia)) as [_ Hhi2].
  assert (1 <= Zdigits2 (Zpos my)) as Hd2 by (simpl; lia).
  assert (Zdigits2 (Zpos mx) = 24) as Hd1 by lia.
  rewrite Hd1 in *. change (2 ^ (24 - 1)) with 8388608 in Hlo1.
  assert (Zpos my < 2 ^ 24) as Hmy.
  { eapply Z.lt_le_trans; [exact Hhi2|]. apply Z.pow_le_mono_r; lia. }
  rewrite pow2_24 in Hmy.
  assert (-149 <= e') as Hlo by lia.
  assert (1 <= ex - ey - e') as Hs by lia.
  assert (0 < q) as Hqpos.
  { rewrite Hq. apply Z.lt_le_trans with 1; [lia|].
    apply Z.div_le_lower_bound; [lia|].
    assert (2 ^ 1 <= 2 ^ (ex - ey - e')) by (apply Z.pow_le_mono_r; lia).
    change (2 ^ 1) with 2 in *. nia. }
  destruct (binary_round_aux_shape false q e' l Hq0 HP)
    as (_ & [Hz|[(p & e2 & Hf)|Hi]] & Hnz & _).
  - exfalso. apply Hnz; done.
  - rewrite Hf. reflexivity.
  - rewrite Hi. reflexivity.
Qed.

Lemma SFdiv_floored_positive (x y : spec_float) :
  let x' := if SFltb x (lit 0.00001%Q) then lit 0.00001%Q else x in
  let y' := if SFltb y (lit 0.000001%Q) then lit 0.000001%Q else y in
  valid32 x = true -> valid32 y = true ->
  Binary32.is_nan x = false -> Binary32.is_nan y = false ->
  y <> S754_infinity false ->
  SFltb (S754_zero false) (SFdiv Binary32.prec Binary32.emax x' y') = true.
Proof.
  intros x' y' Hvx Hvy Hnx Hny Hinf.
  change (lit 0.00001%Q : spec_float)
    with (S754_finite false 10995116 (-40)) in x'.
  change (lit 0.000001%Q : spec_float)
    with (S754_finite false 8796093 (-43)) in y'.
  destruct (floored_shape x 10995116 (-40) ltac:(reflexivity) Hvx Hnx)
    as [Hx|(mx & ex & Hx & Hex & Hbx)];
  destruct (floored_shape y 8796093 (-43) ltac:(reflexivity) Hvy Hny)
    as [Hy|(my & ey & Hy & Hey & Hby)];
    fold x' in Hx; fold y' in Hy.
  - exfalso. subst y'. destruct (SFltb y _); [discriminate|]. done.
  - rewrite Hx, Hy. reflexivity.
  - exfalso. subst y'. destruct (SFltb y _); [discriminate|]. done.
  - rewrite Hx, Hy. apply SFdiv_no_underflow; done.
Qed.

Lemma norm_cdf_valid (x mu sigma : spec_float) : valid32 (norm_cdf x mu sigma) = true.
Proof. unfold norm_cdf. apply SFdiv_valid. Qed.

(** *** Magnitudes

    The approximation of [erf] is bounded, so [erff] returns a number of
    moderate size on every argument that is not a NaN; sums, differences
    and quotients by a finite value of such numbers are such numbers. *)

Lemma Qtrunc_bound (b : positive) (y : Q) : (Qabs (Qtrunc b y) <= Qabs y + 1)%Q.
Proof.
  unfold Qtrunc. rewrite Qred_correct.
  set (s := inject_Z (2 ^ Zpos b)).
  assert (0 < 2 ^ Zpos b) as Hp by (apply Z.pow_pos_nonneg; lia).
  assert (0 < s)%Q as Hs.
  { subst s. change 0%Q with (inject_Z 0). rewrite <- Zlt_Qlt. done. }
  set (f := Qfloor (y * s)).
  assert ((f # 2 ^ b) == inject_Z f / s)%Q as Heq.
  { subst s. unfold Qeq, Qdiv, Qmult, Qinv, inject_Z. simpl.
    destruct (2 ^ Z.pos b) eqn:Hpow; try lia.
    simpl. rewrite Pos2Z.inj_pow in *.
    assert (Z.pos p = 2 ^ Z.pos b) by lia. nia. }
  rewrite Heq.
  pose proof (Qfloor_le (y * s)) as Hle. fold f in Hle.
  pose proof (Qlt_floor (y * s)) as Hlt. fold f in Hlt.
  assert (inject_Z f / s <= y)%Q as H1.
  { apply Qle_shift_div_r; done. }
  assert (y - 1 <= inject_Z f / s)%Q as H2.
  { apply Qle_shift_div_l; [done|].
    rewrite inject_Z_plus in Hlt.
    assert (1 <= s)%Q as Hs1.
    { subst s. change 1%Q with (inject_Z 1). rewrite <- Zle_Qle. lia. }
    assert ((y - 1) * s == y * s - s)%Q as -> by ring.
    apply Qlt_le_weak in Hlt.
    apply Qle_trans with (y * s - 1)%Q.
    - apply Qplus_le_r. apply Qopp_le_compat. done.
    - apply Qle_minus_iff. apply Qle_minus_iff in Hlt.
      assert (inject_Z f - (y * s - 1) == inject_Z f + inject_Z 1 + - (y * s))%Q
        as -> by (change (inject_Z 1) with 1%Q; ring).
      done. }
  apply Qabs_Qle_condition. split.
  - apply Qle_trans with (y - 1)%Q; [|done].
    assert (- (Qabs y + 1) == - Qabs y - 1)%Q as -> by ring.
    apply Qplus_le_l.
    pose proof (Qle_Qabs (- y)) as H. rewrite Qabs_opp in H.
    apply Qopp_le_compat in H. rewrite Qopp_involutive in H. done.
  - apply Qle_trans with y; [done|].
    apply Qle_trans with (Qabs y); [apply Qle_Qabs|].
    rewrite <- (Qplus_0_r (Qabs y)) at 1. apply Qplus_le_r. done.
Qed.

Lemma Qabs_div_pos (a : Q) (z : Z) :
  0 < z -> (Qabs (a / inject_Z z) == Qabs a / inject_Z z)%Q.
Proof.
  intros Hz. unfold Qdiv. rewrite Qabs_Qmult.
  assert (0 < / inject_Z z)%Q as Hinv.
  { apply Qinv_lt_0_compat. change 0%Q with (inject_Z 0).
    rewrite <- Zlt_Qlt. done. }
  rewrite (Qabs_pos (/ inject_Z z)) by (apply Qlt_le_weak; done).
  reflexivity.
Qed.

Lemma erf_series_bounded (fuel : nat) (n : Z) (term x2 acc bt ba : Q) :
  0 <= n -> (Qabs term <= bt)%Q -> (Qabs acc <= ba)%Q ->
  (0 <= x2)%Q -> (x2 <= 16)%Q ->
  (Qabs (erf_series fuel n term x2 acc) <= erf_series_bound fuel n bt ba)%Q.
Proof.
  revert n term acc bt ba.
  induction fuel as [|fuel IH]; intros n term acc bt ba Hn Ht Ha Hx0 Hx16;
    cbn [erf_series erf_series_bound]; [done|].
  assert (0 <= bt)%Q as Hbt.
  { eapply Qle_trans; [apply Qabs_nonneg|exact Ht]. }
  assert (0 < inject_Z (n + 1))%Q as Hn1.
  { change 0%Q with (inject_Z 0). rewrite <- Zlt_Qlt. lia. }
  assert (0 < inject_Z (2 * n + 1))%Q as Hn2.
  { change 0%Q with (inject_Z 0). rewrite <- Zlt_Qlt. lia. }
  apply IH; [lia| | |done|done].
  - eapply Qle_trans; [apply Qtrunc_bound|]. rewrite Qred_correct.
    apply Qplus_le_l.
    rewrite Qabs_div_pos by lia. rewrite Qabs_opp, Qabs_Qmult.
    unfold Qdiv. apply Qmult_le_compat_r;
      [|apply Qlt_le_weak, Qinv_lt_0_compat; done].
    rewrite (Qabs_pos x2) by done.
    apply Qle_trans with (bt * x2)%Q.
    + apply Qmult_le_compat_r; done.
    + rewrite !(Qmult_comm bt). apply Qmult_le_compat_r; done.
  - eapply Qle_trans; [apply Qtrunc_bound|]. rewrite Qred_correct.
    apply Qplus_le_l.
    eapply Qle_trans; [apply Qabs_triangle|].
    apply Qplus_le_compat; [done|].
    rewrite Qabs_div_pos by lia.
    unfold Qdiv. apply Qmult_le_compat_r;
      [done|apply Qlt_le_weak, Qinv_lt_0_compat; done].
Qed.

Lemma Qtrunc_40_range (q : Q) :
  (- (4) < q)%Q -> (q < 4)%Q -> (Qabs (Qtrunc 40 q) <= 4)%Q.
Proof.
  intros Hlo Hhi. unfold Qtrunc. rewrite Qred_correct.
  set (s := inject_Z (2 ^ 40)).
  set (f := Qfloor (q * s)).
  assert (0 < s)%Q as Hs by reflexivity.
  assert ((f # 2 ^ 40) == inject_Z f / s)%Q as Heq.
  { subst s. unfold Qeq, Qdiv, Qmult, Qinv, inject_Z. simpl. lia. }
  rewrite Heq.
  pose proof (Qfloor_le (q * s)) as Hle. fold f in Hle.
  assert (- (4) * s <= inject_Z f)%Q as Hf.
  { assert (- (4) * s == inject_Z (-4 * 2 ^ 40))%Q as Hc by reflexivity.
    rewrite Hc. rewrite <- Zle_Qle.
    rewrite <- (Qfloor_Z (-4 * 2 ^ 40)). subst f. apply Qfloor_resp_le.
    rewrite <- Hc. apply Qlt_le_weak. apply Qmult_lt_compat_r; done. }
  apply Qabs_Qle_condition. split.
  - apply Qle_shift_div_l; done.
  - apply Qle_shift_div_r; [done|].
    eapply Qle_trans; [exact Hle|].
    apply Qlt_le_weak. apply Qmult_lt_compat_r; done.
Qed.

Lemma erf_series_bound_value :
  Qle_bool (two_over_sqrt_pi * erf_series_bound 90 0 4 0 + 1) (inject_Z (2 ^ 40))
  = true.
Proof. vm_compute. reflexivity. Qed.

Lemma erf_approx_bounded (q : Q) : (Qabs (erf_approx q) <= inject_Z (2 ^ 40))%Q.
Proof.
  unfold erf_approx.
  destruct (Qle_bool 4 q) eqn:H4; [vm_compute; discriminate|].
  destruct (Qle_bool q (-4)) eqn:Hm4; [vm_compute; discriminate|].
  assert (q < 4)%Q as Hhi.
  { apply Qnot_le_lt. intros H. apply Qle_bool_iff in H. congruence. }
  assert (- (4) < q)%Q as Hlo.
  { apply Qnot_le_lt. intros H. apply Qle_bool_iff in H.
    change (-4)%Q with (- (4))%Q in Hm4. congruence. }
  cbv zeta. set (x := Qtrunc 40 q).
  pose proof (Qtrunc_40_range q Hlo Hhi) as Hx. fold x in Hx.
  eapply Qle_trans; [apply Qtrunc_bound|].
  eapply Qle_trans; [|apply Qle_bool_iff, erf_series_bound_value].
  apply Qplus_le_l. rewrite Qabs_Qmult.
  rewrite (Qabs_pos two_over_sqrt_pi) by (vm_compute; discriminate).
  apply Qmult_le_l; [reflexivity|].
  apply erf_series_bounded; [lia|done|vm_compute; discriminate| |].
  - apply Qle_trans with (x * x)%Q; [|apply Qle_refl].
    destruct (Qlt_le_dec x 0) as [Hneg|Hpos].
    + assert (x * x == (- x) * (- x))%Q as -> by ring.
      apply Qmult_le_0_compat; apply Qlt_le_weak;
        rewrite <- (Qopp_involutive 0); apply Qopp_lt_compat; done.
    + apply Qmult_le_0_compat; done.
  - assert (x * x == Qabs x * Qabs x)%Q as ->.
    { rewrite <- Qabs_Qmult. symmetry. apply Qabs_pos.
      destruct (Qlt_le_dec x 0) as [Hneg|Hpos].
      - assert (x * x == (- x) * (- x))%Q as -> by ring.
        apply Qmult_le_0_compat; apply Qlt_le_weak;
          rewrite <- (Qopp_involutive 0); apply Qopp_lt_compat; done.
      - apply Qmult_le_0_compat; done. }
    apply Qle_trans with (4 * Qabs x)%Q.
    + apply Qmult_le_compat_r; [done|apply Qabs_nonneg].
    + change 16%Q with (4 * 4)%Q. rewrite !(Qmult_comm 4).
      apply Qmult_le_compat_r; [done|discriminate].
Qed.

Lemma below_pow2_mono K K' x :
  K <= K' -> below_pow2 K x = true -> below_pow2 K' x = true.
Proof.
  intros HK. destruct x; cbn [below_pow2]; try done.
  intros H%Z.leb_le. apply Z.leb_le. lia.
Qed.

Lemma below_pow2_number K x :
  below_pow2 K x = true ->
  Binary32.is_nan x = false /\ x <> S754_infinity false.
Proof. destruct x; done. Qed.

Lemma binary_round_small sx mx ex K :
  Zdigits2 (Zpos mx) + ex <= K -> -126 <= K <= 126 ->
  below_pow2 (K + 1) (binary_round Binary32.prec Binary32.emax sx mx ex) = true.
Proof.
  intros HK HKr. unfold binary_round, shl_align. rewrite fexp32.
  set (d := Zpos (digits2_pos mx)).
  assert (d = Zdigits2 (Zpos mx)) as Hd by reflexivity.
  destruct (Z.max (d + ex - 24) (-149) - ex) as [|n|n] eqn:Hn.
  - apply binary_round_aux_shape; [lia| |lia|done].
    rewrite fexp32, <- Hd. lia.
  - apply binary_round_aux_shape; [lia| |lia|done].
    rewrite fexp32, <- Hd. lia.
  - apply binary_round_aux_shape; [lia| | |done].
    + rewrite fexp32, iter_xO_pow, Zdigits2_mul_pow2, <- Hd by lia. lia.
    + rewrite iter_xO_pow, Zdigits2_mul_pow2, <- Hd by lia. lia.
Qed.

Lemma binary_normalize_small m e sz K :
  Zdigits2 m + e <= K \/ m = 0 -> -126 <= K <= 126 ->
  below_pow2 (K + 1) (binary_normalize Binary32.prec Binary32.emax m e sz)
  = true.
Proof.
  intros HK HKr. destruct m as [|p|p]; [done| |].
  - apply binary_round_small; [|done]. destruct HK; [done|lia].
  - apply binary_round_small; [|done]. destruct HK; [done|lia].
Qed.

Lemma binary_normalize_number m e sz :
  Binary32.is_nan (binary_normalize Binary32.prec Binary32.emax m e sz) = false.
Proof.
  assert (forall sx mx,
            Binary32.is_nan (binary_round Binary32.prec Binary32.emax sx mx e)
            = false) as Hr.
  { intros sx mx. unfold binary_round, shl_align. rewrite fexp32.
    set (d := Zpos (digits2_pos mx)).
    assert (d = Zdigits2 (Zpos mx)) as Hd by reflexivity.
    assert (forall m' e', 0 <= m' ->
              e' <= fexp Binary32.prec Binary32.emax (Zdigits2 m' + e') ->
              Binary32.is_nan (binary_round_aux Binary32.prec Binary32.emax sx
                                 m' e' loc_Exact) = false) as Haux.
    { intros m' e' Hm' HP.
      destruct (binary_round_aux_shape sx m' e' loc_Exact Hm' HP)
        as (_ & [->|[(p & e2 & ->)| ->]] & _); done. }
    destruct (Z.max (d + e - 24) (-149) - e) as [|n|n] eqn:Hn.
    - apply Haux; [lia|]. rewrite fexp32, <- Hd. lia.
    - apply Haux; [lia|]. rewrite fexp32, <- Hd. lia.
    - apply Haux; [lia|].
      rewrite fexp32, iter_xO_pow, Zdigits2_mul_pow2, <- Hd by lia. lia. }
  destruct m; [done|apply Hr..].
Qed.

Lemma shl_align_fst mx ex ez :
  ez <= ex -> Zpos (shl_align mx ex ez).1 = Zpos mx * 2 ^ (ex - ez).
Proof.
  intros Hle. unfold shl_align.
  destruct (ez - ex) as [|n|n] eqn:Hn; cbn [fst].
  - replace (ex - ez) with 0 by lia. lia.
  - lia.
  - rewrite iter_xO_pow. f_equal. f_equal. lia.
Qed.

Lemma aligned_below mx ex ez K :
  ez <= ex -> Zdigits2 (Zpos mx) + ex <= K ->
  Zpos (shl_align mx ex ez).1 < 2 ^ (K - ez).
Proof.
  intros Hle HK. rewrite shl_align_fst by done.
  pose proof (Zdigits2_bounds (Zpos mx) ltac:(lia)) as [_ Hhi].
  assert (1 <= Zdigits2 (Zpos mx)) by (simpl; lia).
  assert (0 < 2 ^ (ex - ez)) by (apply Z.pow_pos_nonneg; lia).
  apply Z.lt_le_trans with (2 ^ Zdigits2 (Zpos mx) * 2 ^ (ex - ez)).
  - apply Z.mul_lt_mono_pos_r; done.
  - rewrite <- Z.pow_add_r by lia. apply Z.pow_le_mono_r; lia.
Qed.

Lemma Zdigits2_abs_le m d : 0 <= d -> Z.abs m < 2 ^ d -> Zdigits2 m <= d.
Proof.
  intros Hd Hm. destruct m as [|p|p]; [simpl; lia| |].
  - apply Zdigits2_le; lia.
  - change (Zdigits2 (Zneg p)) with (Zdigits2 (Zpos p)).
    apply Zdigits2_le; lia.
Qed.

(** The sum or difference of two aligned mantissas. *)
Lemma aligned_sum_small (sx sy : bool) mx ex my ey K (neg : bool) :
  Zdigits2 (Zpos mx) + ex <= K -> Zdigits2 (Zpos my) + ey <= K ->
  let ez := Z.min ex ey in
  let a := cond_Zopp sx (Zpos (shl_align mx ex ez).1) in
  let b := cond_Zopp sy (Zpos (shl_align my ey ez).1) in
  Zdigits2 (if neg then a - b else a + b) + ez <= K + 1.
Proof.
  intros Hx Hy ez a b.
  pose proof (aligned_below mx ex ez K ltac:(subst ez; lia) Hx) as Ha.
  pose proof (aligned_below my ey ez K ltac:(subst ez; lia) Hy) as Hb.
  assert (1 <= Zdigits2 (Zpos mx)) by (simpl; lia).
  assert (0 <= K - ez) by (subst ez; lia).
  assert (Z.abs (if neg then a - b else a + b) < 2 ^ (K - ez + 1)) as Hs.
  { rewrite Z.pow_add_r by lia. change (2 ^ 1) with 2.
    subst a b. destruct neg, sx, sy; cbn [cond_Zopp]; lia. }
  pose proof (Zdigits2_abs_le _ (K - ez + 1) ltac:(lia) Hs). lia.
Qed.

Lemma SFsub_small x y K :
  below_pow2 K x = true -> below_pow2 K y = true -> -126 <= K <= 124 ->
  below_pow2 (K + 2) (SFsub Binary32.prec Binary32.emax x y) = true.
Proof.
  intros Hx Hy HK.
  destruct x as [sx|sx| |sx mx ex], y as [sy|sy| |sy my ey];
    cbn [SFsub]; try done; try (destruct sx, sy; done).
  - apply (below_pow2_mono K); [lia|done].
  - apply (below_pow2_mono K); [lia|done].
  - cbn [below_pow2] in Hx, Hy. apply Z.leb_le in Hx, Hy.
    replace (K + 2) with (K + 1 + 1) by lia.
    apply binary_normalize_small; [|lia]. left.
    apply (aligned_sum_small sx sy mx ex my ey K true); done.
Qed.

Lemma SFadd_small x y K :
  below_pow2 K x = true -> below_pow2 K y = true -> -126 <= K <= 124 ->
  below_pow2 (K + 2) (SFadd Binary32.prec Binary32.emax x y) = true.
Proof.
  intros Hx Hy HK.
  destruct x as [sx|sx| |sx mx ex], y as [sy|sy| |sy my ey];
    cbn [SFadd]; try done; try (destruct sx, sy; done).
  - apply (below_pow2_mono K); [lia|done].
  - apply (below_pow2_mono K); [lia|done].
  - cbn [below_pow2] in Hx, Hy. apply Z.leb_le in Hx, Hy.
    replace (K + 2) with (K + 1 + 1) by lia.
    apply binary_normalize_small; [|lia]. left.
    apply (aligned_sum_small sx sy mx ex my ey K false); done.
Qed.

Lemma SFdiv_small x sy my ey K :
  below_pow2 K x = true -> -126 <= K - ey <= 126 ->
  below_pow2 (K - ey + 1)
    (SFdiv Binary32.prec Binary32.emax x (S754_finite sy my ey)) = true.
Proof.
  intros Hx HK. destruct x as [sx|sx| |sx mx ex]; cbn [SFdiv]; try done.
  cbn [below_pow2] in Hx. apply Z.leb_le in Hx.
  destruct (SFdiv_core_ready mx ex my ey) as (Hq0 & HP & He' & Hq).
  destruct (SFdiv_core_binary _ _ _ _ _ _) as [[q e'] l]. cbn [fst snd] in *.
  apply binary_round_aux_shape; [done|done| |done].
  assert (0 <= ex - ey - e') as Hs by lia.
  assert (0 < 2 ^ (ex - ey - e')) by (apply Z.pow_pos_nonneg; lia).
  pose proof (Zdigits2_bounds (Zpos mx) ltac:(lia)) as [_ Hhi].
  assert (1 <= Zdigits2 (Zpos mx)) by (simpl; lia).
  assert (q < 2 ^ (Zdigits2 (Zpos mx) + (ex - ey - e'))) as Hqhi.
  { rewrite Hq. apply Z.le_lt_trans with (Zpos mx * 2 ^ (ex - ey - e')).
    - apply Z.div_le_upper_bound; [lia|]. nia.
    - rewrite Z.pow_add_r by lia. apply Z.mul_lt_mono_pos_r; done. }
  pose proof (Zdigits2_le q (Zdigits2 (Zpos mx) + (ex - ey - e')) Hq0
                ltac:(lia) Hqhi).
  change (Zdigits2 (Zpos mx)) with (Zpos (digits2_pos mx)) in *. lia.
Qed.

Lemma SFdiv_number x sy my ey :
  Binary32.is_nan x = false ->
  Binary32.is_nan (SFdiv Binary32.prec Binary32.emax x (S754_finite sy my ey))
  = false.
Proof.
  intros Hx. destruct x as [sx|sx| |sx mx ex]; cbn [SFdiv]; try done.
  destruct (SFdiv_core_ready mx ex my ey) as (Hq0 & HP & _).
  destruct (SFdiv_core_binary _ _ _ _ _ _) as [[q e'] l]. cbn [fst snd] in *.
  destruct (binary_round_aux_shape (xorb sx sy) q e' l Hq0 HP)
    as (_ & [->|[(p & e2 & ->)| ->]] & _); done.
Qed.

Lemma SFsub_number x y :
  Binary32.is_nan x = false ->
  (exists s, y = S754_zero s) \/ (exists s m e, y = S754_finite s m e) ->
  Binary32.is_nan (SFsub Binary32.prec Binary32.emax x y) = false.
Proof.
  intros Hx [[s ->]|(s & m & e & ->)];
    destruct x as [sx|sx| |sx mx ex]; cbn [SFsub]; try done.
  - destruct sx, s; done.
  - apply binary_normalize_number.
Qed.

Lemma SFadd_number x y :
  Binary32.is_nan x = false ->
  (exists s m e, y = S754_finite s m e) ->
  Binary32.is_nan (SFadd Binary32.prec Binary32.emax x y) = false.
Proof.
  intros Hx (s & m & e & ->);
    destruct x as [sx|sx| |sx mx ex]; cbn [SFadd]; try done.
  apply binary_normalize_number.
Qed.

Lemma of_Q_small (q : Q) :
  (Qabs q <= inject_Z (2 ^ 40))%Q -> below_pow2 43 (Binary32.of_Q q) = true.
Proof.
  intros Hq. unfold Binary32.of_Q.
  set (n := Z.abs (Qnum q)). set (d := Zpos (Qden q)).
  assert (n <= 2 ^ 40 * d) as Hn.
  { destruct q as [qn qd]. unfold Qle in Hq. cbn in Hq. subst n d. cbn. lia. }
  destruct (n =? 0) eqn:Hn0; [done|]. apply Z.eqb_neq in Hn0.
  cbv zeta.
  set (k := Z.max 0 (65 + Z.log2 d - Z.log2 n)).
  set (qz := n * 2 ^ k / d).
  set (sticky := if n * 2 ^ k mod d =? 0 then 0 else 1).
  set (mant := 2 * qz + sticky).
  assert (0 <= k) as Hk by (subst k; lia).
  assert (0 < 2 ^ k) by (apply Z.pow_pos_nonneg; lia).
  assert (0 <= qz) as Hqz0 by (subst qz; apply Z.div_pos; subst n d; nia).
  assert (qz <= 2 ^ 40 * 2 ^ k) as Hqz.
  { subst qz. apply Z.div_le_upper_bound; [subst d; lia|]. nia. }
  assert (0 <= sticky <= 1) as Hst by (subst sticky; destruct (_ =? 0); lia).
  assert (0 <= mant < 2 ^ (42 + k)) as Hmant.
  { subst mant. rewrite Z.pow_add_r by lia. change (2 ^ 42) with (4 * 2 ^ 40).
    nia. }
  assert (Zdigits2 mant <= 42 + k) as Hd.
  { apply Zdigits2_le; lia. }
  replace 43 with (42 + 1) by lia.
  destruct (Qnum q <? 0).
  - apply binary_normalize_small; [|lia]. left.
    replace (Zdigits2 (- mant)) with (Zdigits2 mant)
      by (destruct mant; reflexivity). lia.
  - apply binary_normalize_small; [|lia]. left. lia.
Qed.

Lemma erff32_small (t : spec_float) :
  Binary32.is_nan t = false -> below_pow2 43 (Binary32.erff32 t) = true.
Proof.
  intros Ht. destruct t as [s|[]| |s m e]; cbn [Binary32.erff32]; try done.
  apply of_Q_small, erf_approx_bounded.
Qed.

Lemma of_Z_number z : Binary32.is_nan (of_int z) = false.
Proof. apply binary_normalize_number. Qed.

Lemma is_finite_cases x :
  Binary32.is_finite x = true ->
  (exists s, x = S754_zero s) \/ (exists s m e, x = S754_finite s m e).
Proof. destruct x; try done; eauto. Qed.

Lemma finite_nonzero (sigma : spec_float) :
  Binary32.is_finite sigma = true -> feq sigma (lit 0.00%Q) = false ->
  exists s m e, sigma = S754_finite s m e.
Proof. destruct sigma as [[]|[]| |s m e]; try done. eauto. Qed.

(** The standard-normal mass below a point is a number of moderate size,
    whatever the point, when the mean and the deviation are finite. *)
Lemma norm_cdf_small (x mu sigma : spec_float) :
  Binary32.is_nan x = false -> Binary32.is_finite mu = true ->
  (exists s m e, sigma = S754_finite s m e) ->
  below_pow2 68 (norm_cdf x mu sigma) = true.
Proof.
  intros Hx Hmu (s & m & e & ->). unfold norm_cdf.
  change (lit 2.00%Q : spec_float) with (S754_finite false 8388608 (-22)).
  change (sqrtf (lit 2.0%Q) : spec_float)
    with (S754_finite false 11863283 (-23)).
  change (of_int 1 : spec_float) with (S754_finite false 8388608 (-23)).
  change (fabs (S754_finite s m e)) with (S754_finite false m e).
  cbn [fdiv fadd fsub erff Binary32.arith].
  change 68 with (45 - (-22) + 1). apply SFdiv_small; [|lia].
  change 45 with (43 + 2). apply SFadd_small; [done| |lia].
  apply erff32_small, SFdiv_number, SFdiv_number, SFsub_number; [done|].
  apply is_finite_cases, Hmu.
Qed.

Lemma norm_mass_number (x y mu sigma : spec_float) :
  Binary32.is_nan x = false -> Binary32.is_nan y = false ->
  Binary32.is_finite mu = true -> (exists s m e, sigma = S754_finite s m e) ->
  let d := fsub (norm_cdf x mu sigma) (norm_cdf y mu sigma) in
  Binary32.is_nan d = false /\ d <> S754_infinity false.
Proof.
  intros Hx Hy Hmu Hs d. apply (below_pow2_number 70).
  change 70 with (68 + 2). apply SFsub_small; [| |lia];
    apply norm_cdf_small; done.
Qed.
End Rounding32.

(** C3 (as amended).  With [sigma == 0] the raw point mass is returned as
    it is.  With [sigma != 0] the result is the quotient of the raw point
    mass floored at [0.00001] by the normalizing mass floored at
    [0.000001]; in binary32 this quotient is strictly positive, since it
    cannot underflow to zero: when neither mass is a NaN and the
    normalizing mass is not [+infinity], and so for every finite [mu] and
    every finite [sigma]. *)
Theorem get_numerator_floors (dna_length distance : Z) (mu sigma : spec_float) :
  let raw := norm_pf (of_int distance) mu sigma in
  let mass := fsub (norm_cdf (of_int (dna_length - 1)) mu sigma)
                   (norm_cdf (of_int 0) mu sigma) in
  let floored (x c : spec_float) := if flt x c then c else x in
  (feq sigma (lit 0.00%Q) = true ->
   get_numerator dna_length distance mu sigma = raw)
  /\ (feq sigma (lit 0.00%Q) = false ->
      get_numerator dna_length distance mu sigma
      = fdiv (floored raw (lit 0.00001%Q)) (floored mass (lit 0.000001%Q))
      /\ flt (floored raw (lit 0.00001%Q)) (lit 0.00001%Q) = false
      /\ flt (floored mass (lit 0.000001%Q)) (lit 0.000001%Q) = false
      /\ (Binary32.is_nan raw = false -> Binary32.is_nan mass = false ->
          mass <> S754_infinity false ->
          flt fzero (get_numerator dna_length distance mu sigma) = true)
      /\ (Binary32.is_finite mu = true -> Binary32.is_finite sigma = true ->
          flt fzero (get_numerator dna_length distance mu sigma) = true)).
Proof.
  intros raw mass floored.
  assert (feq sigma (lit 0.00%Q) = false ->
          Binary32.is_nan raw = false -> Binary32.is_nan mass = false ->
          mass <> S754_infinity false ->
          flt fzero (get_numerator dna_length distance mu sigma) = true)
    as Hpos.
  { intros Hs Hraw Hmass Hinf. unfold get_numerator. fold raw. fold mass.
    rewrite Hs. apply SFdiv_floored_positive; try done.
    - subst raw. unfold norm_pf.
      change (feq sigma (of_int 0)) with (feq sigma (lit 0.00%Q)).
      rewrite Hs. cbn [negb]. apply SFsub_valid; apply norm_cdf_valid.
    - subst mass. apply SFsub_valid; apply norm_cdf_valid. }
  split.
  { intros Hs. unfold get_numerator. fold raw. rewrite Hs. done. }
  intros Hs.
  assert (forall x c : spec_float, flt (floored x c) c = false) as Hfl.
  { intros x c. unfold floored. destruct (flt x c) eqn:Hx; [|done].
    apply flt_irrefl. }
  split; [unfold get_numerator; fold raw; fold mass; rewrite Hs; done|].
  split; [apply Hfl|]. split; [apply Hfl|]. split; [apply Hpos, Hs|].
  intros Hmu Hsig. pose proof (finite_nonzero sigma Hsig Hs) as Hfin.
  assert (Binary32.is_nan (fadd (of_int distance) (lit 0.5%Q)) = false)
    as Hhi.
  { apply SFadd_number; [apply of_Z_number|].
    exists false, 8388608%positive, (-24). reflexivity. }
  assert (Binary32.is_nan (fsub (of_int distance) (lit 0.5%Q)) = false)
    as Hlo.
  { apply SFsub_number; [apply of_Z_number|]. right.
    exists false, 8388608%positive, (-24). reflexivity. }
  destruct (norm_mass_number _ _ mu sigma Hhi Hlo Hmu Hfin) as [Hr1 _].
  destruct (norm_mass_number (of_int (dna_length - 1)) (of_int 0) mu sigma
              (of_Z_number _) (of_Z_number _) Hmu Hfin) as [Hm1 Hm2].
  apply Hpos; try done.
  subst raw. unfold norm_pf.
  change (feq sigma (of_int 0)) with (feq sigma (lit 0.00%Q)).
  rewrite Hs. exact Hr1.
Qed.

Lemma get_numerator_witness :
  let mu := Binary32.of_Z 100 in
  let sigma := Binary32.of_Z 1 in
  let raw := norm_pf (of_int 9) mu sigma in
  let mass := fsub (norm_cdf (of_int (10 - 1)) mu sigma)
                   (norm_cdf (of_int 0) mu sigma) in
  let floored (x c : spec_float) := if flt x c then c else x in
  get_numerator 10 9 mu sigma
  = fdiv (floored raw (lit 0.00001%Q)) (floored mass (lit 0.000001%Q))
  /\ flt (floored raw (lit 0.00001%Q)) (lit 0.00001%Q) = false
  /\ flt (floored mass (lit 0.000001%Q)) (lit 0.000001%Q) = false
  /\ flt fzero (get_numerator 10 9 mu sigma) = true
  /\ flt fzero (get_numerator 300 25 (lit 20.5%Q) (lit 3.25%Q)) = true.
Proof.
  destruct (get_numerator_floors 10 9 (Binary32.of_Z 100) (Binary32.of_Z 1))
    as [_ Hnz].
  destruct Hnz as (Heq & Hraw & Hmass & Hpos & _); [vm_compute; reflexivity|].
  split; [exact Heq|]. split; [exact Hraw|]. split; [exact Hmass|].
  split.
  - apply Hpos.
    + vm_compute. reflexivity.
    + vm_compute. reflexivity.
    + vm_compute. discriminate.
  - destruct (get_numerator_floors 300 25 (lit 20.5%Q) (lit 3.25%Q))
      as [_ Hnz].
    destruct Hnz as (_ & _ & _ & _ & Hfin); [vm_compute; reflexivity|].
    apply Hfin; vm_compute; reflexivity.
Defined.

(** C3, the floor of the normalizing mass: with 10 positions, mean 100 and
    deviation 1 the mass is [0] and the point mass at distance 9 is [0];
    the result is [0.00001 / 0.000001], about 10, where a floor of the mass
    at [0.0001] would give about [0.1]. *)
Lemma normalizing_mass_floor_is_not_1e_4 :
  let mu := Binary32.of_Z 100 in
  let sigma := Binary32.of_Z 1 in
  let raw := norm_pf (of_int 9) mu sigma in
  let mass := fsub (norm_cdf (of_int (10 - 1)) mu sigma)
                   (norm_cdf (of_int 0) mu sigma) in
  let floored (x c : spec_float) := if flt x c then c else x in
  feq sigma (lit 0.00%Q) = false
  /\ mass = S754_zero false
  /\ get_numerator 10 9 mu sigma = S754_finite false 10485760 (-20)
  /\ fdiv (floored raw (lit 0.00001%Q)) (floored mass (lit 0.0001%Q))
     = S754_finite false 13421773 (-27)
  /\ get_numerator 10 9 mu sigma
     <> fdiv (floored raw (lit 0.00001%Q)) (floored mass (lit 0.0001%Q)).
Proof.
  vm_compute. repeat split; try reflexivity. discriminate.
Qed.

(** ** Claim on the two variants of the connector score *)

(** C8 (as amended).  In exact arithmetic (the logarithm of a quotient of
    positive numbers is the difference of the logarithms), with a table
    [NUMERATORS] of log-binomial terms and a lookup entry equal to the
    positive statistical numerator, the statistical and the precomputed
    variant return the same log-odds value for every gap with
    [1 <= gap + 1 <= L - N], where every index into [NUMERATORS] is inside
    the table, provided neither binomial coefficient overflows. *)
Theorem connector_variants_agree {F : Type} `{FloatArith F}
    (NUMERATORS stat pre : list F)
    (dna_length eff N gap max_length c a b : Z) :
  let numerator :=
    get_numerator dna_length gap (rd fzero stat (c * 2))
                  (rd fzero stat (c * 2 + 1)) in
  (forall x y : F, flt fzero x = true -> flt fzero y = true ->
     log2f (fdiv x y) = fsub (log2f x) (log2f y)) ->
  (forall x y : F, flt fzero x = true -> flt fzero y = true ->
     flt fzero (fdiv x y) = true) ->
  (forall z : Z, 0 < z -> flt fzero (of_int z) = true) ->
  (forall x y : Z, 1 <= y -> y < x -> x <= Z.of_nat (length NUMERATORS) ->
     fsub (fsub (rd fzero NUMERATORS (x - 1)) (rd fzero NUMERATORS (y - 1)))
          (rd fzero NUMERATORS (x - y - 1))
     = log2f (of_int (binom (Z.to_nat x) (Z.to_nat y)))) ->
  rd fzero pre (c * max_length + gap) = numerator ->
  flt fzero numerator = true ->
  2 <= N -> 1 <= gap + 1 <= eff - N ->
  eff <= Z.of_nat (length NUMERATORS) -> eff <= ULONG_MAX ->
  bin_run (eff - (gap + 1)) (N - 1) = BinDone a -> bin_run eff N = BinDone b ->
  get_score NUMERATORS stat dna_length eff N gap max_length c false
  = get_score NUMERATORS pre dna_length eff N gap max_length c true.
Proof.
  intros numerator Hlog Hdiv Hint Hnum Hpre Hpos HN Hgap Hlen Heff Ha Hb.
  unfold get_score. cbn [negb]. fold numerator. rewrite Hpre.
  rewrite (get_denominator_binom (gap + 1) N eff a b) by (try done; lia).
  set (c1 := binom (Z.to_nat (eff - (gap + 1))) (Z.to_nat (N - 1))).
  set (c2 := binom (Z.to_nat eff) (Z.to_nat N)).
  assert (flt fzero (of_int c1) = true) as Hc1.
  { apply Hint. pose proof (binom_pos (Z.to_nat (eff - (gap + 1)))
                              (Z.to_nat (N - 1)) ltac:(lia)). subst c1. lia. }
  assert (flt fzero (of_int c2) = true) as Hc2.
  { apply Hint. pose proof (binom_pos (Z.to_nat eff) (Z.to_nat N) ltac:(lia)).
    subst c2. lia. }
  rewrite Hlog, Hlog by (try done; apply Hdiv; done).
  f_equal.
  pose proof (Hnum (eff - (gap + 1)) (N - 1) ltac:(lia) ltac:(lia) ltac:(lia))
    as H1.
  pose proof (Hnum eff N ltac:(lia) ltac:(lia) ltac:(lia)) as H2.
  fold c1 in H1. fold c2 in H2.
  replace (eff - (gap + 1) - (N - 1) - 1)
    with (eff - (gap + 1) - (N - 1) - 1) in H1 by lia.
  rewrite <- H1, <- H2. reflexivity.
Qed.

Lemma ExactR_pos (x : R) : flt fzero x = true <-> (0 < x)%R.
Proof.
  change (flt fzero x) with (if Rlt_dec 0 x then true else false).
  destruct (Rlt_dec 0 x); split; intros; done.
Qed.

Lemma ExactR_log2_div (x y : R) :
  flt fzero x = true -> flt fzero y = true ->
  log2f (fdiv x y) = fsub (log2f x) (log2f y).
Proof.
  rewrite !ExactR_pos. intros Hx Hy. simpl. unfold ExactR.log2, Rdiv.
  rewrite ln_mult, ln_Rinv by (try done; apply Rinv_0_lt_compat; done).
  pose proof ln_lt_2. field. lra.
Qed.

Lemma ExactR_fdiv_pos (x y : R) :
  flt fzero x = true -> flt fzero y = true -> flt fzero (fdiv x y) = true.
Proof. rewrite !ExactR_pos. apply Rdiv_lt_0_compat. Qed.

Lemma ExactR_of_int_pos (z : Z) : 0 < z -> flt fzero (of_int z : R) = true.
Proof. intros Hz. apply (proj2 (ExactR_pos _)). apply (IZR_lt 0 z). done. Qed.

Lemma ExactR_numerators_rd (n : nat) (k : Z) :
  0 <= k < Z.of_nat n ->
  rd fzero (ExactR.numerators n) k
  = ExactR.log2 (IZR (zfact (S (Z.to_nat k)))).
Proof.
  intros Hk. unfold rd, ExactR.numerators.
  destruct (Z.ltb_spec k 0) as [|_]; [lia|].
  rewrite list_lookup_fmap, lookup_seq_lt by lia. done.
Qed.

Lemma zfact_binom (n k : nat) :
  (k <= n)%nat -> zfact n = binom n k * zfact k * zfact (n - k).
Proof. intros Hk. rewrite binom_fact, ffact_fact by done. done. Qed.

(** The table of [log2 (m!)] holds the log-binomial terms. *)
Lemma ExactR_numerators_binom (n : nat) (x y : Z) :
  1 <= y -> y < x -> x <= Z.of_nat (length (ExactR.numerators n)) ->
  fsub (fsub (rd fzero (ExactR.numerators n) (x - 1))
             (rd fzero (ExactR.numerators n) (y - 1)))
       (rd fzero (ExactR.numerators n) (x - y - 1))
  = log2f (of_int (binom (Z.to_nat x) (Z.to_nat y)) : R).
Proof.
  intros Hy Hxy Hx. unfold ExactR.numerators in Hx.
  rewrite length_map, length_seq in Hx.
  rewrite !ExactR_numerators_rd by lia.
  replace (S (Z.to_nat (x - 1))) with (Z.to_nat x) by lia.
  replace (S (Z.to_nat (y - 1))) with (Z.to_nat y) by lia.
  replace (S (Z.to_nat (x - y - 1))) with (Z.to_nat x - Z.to_nat y)%nat by lia.
  rewrite (zfact_binom (Z.to_nat x) (Z.to_nat y)) by lia.
  set (B := binom (Z.to_nat x) (Z.to_nat y)).
  assert (0 < B) by (pose proof (binom_pos (Z.to_nat x) (Z.to_nat y) ltac:(lia));
                     subst B; lia).
  pose proof (zfact_pos (Z.to_nat y)). pose proof (zfact_pos (Z.to_nat x - Z.to_nat y)).
  simpl. unfold ExactR.log2. rewrite !mult_IZR.
  rewrite !ln_mult; try (apply (IZR_lt 0); done).
  - pose proof ln_lt_2. field. lra.
  - apply Rmult_lt_0_compat; apply (IZR_lt 0); done.
Qed.

Lemma connector_variants_witness :
  get_score (ExactR.numerators 4) Example.stat5 6 4 2 1 4 0 false
  = get_score (ExactR.numerators 4) Example.pre5 6 4 2 1 4 0 true.
Proof.
  assert (get_numerator 6 1 1%R 0%R = lit 1.00%Q) as Hnumer.
  { unfold get_numerator, norm_pf.
    assert (feq 0%R (lit 0.00%Q) = true) as ->.
    { simpl. destruct (Req_dec_T 0 (Q2R 0.00)) as [|Hne]; [done|].
      exfalso. apply Hne. unfold Q2R. simpl. lra. }
    assert (feq 0%R (of_int 0) = true) as ->.
    { simpl. destruct (Req_dec_T 0 0); done. }
    assert (feq (of_int 1) 1%R = true) as ->.
    { simpl. destruct (Req_dec_T 1 1); done. }
    reflexivity. }
  refine (connector_variants_agree (ExactR.numerators 4) Example.stat5
            Example.pre5 6 4 2 1 4 0 2 6 _ _ _ _ _ _ _ _ _ _ _ _).
  - exact ExactR_log2_div.
  - exact ExactR_fdiv_pos.
  - exact ExactR_of_int_pos.
  - exact (ExactR_numerators_binom 4).
  - reflexivity.
  - change (flt fzero (get_numerator 6 1 1%R 0%R) = true). rewrite Hnumer.
    apply ExactR_pos. simpl. unfold Q2R. simpl. lra.
  - lia.
  - lia.
  - simpl. lia.
  - vm_compute. discriminate.
  - reflexivity.
  - reflexivity.
Defined.

(** C8, as the claim words it: with twenty recognizers and an effective
    length of 90 the lookup entry is the statistical numerator and the gap
    is feasible, but [bin 90 20] overflows; the statistical score is
    [-infinity] and the precomputed score is finite. *)
Lemma connector_variants_differ :
  let NUMERATORS := Binary32.numerators 90 in
  rd fzero Example.pre4 (0 * 4 + 0)
  = get_numerator 200 0 (rd fzero Example.stat4 (0 * 2))
                  (rd fzero Example.stat4 (0 * 2 + 1))
  /\ 1 <= 0 + 1 <= 90 - 20 + 1
  /\ bin 90 20 = 0
  /\ get_score NUMERATORS Example.stat4 200 90 20 0 4 0 false
     = S754_infinity true
  /\ not_nan (get_score NUMERATORS Example.pre4 200 90 20 0 4 0 true) = true
  /\ get_score NUMERATORS Example.stat4 200 90 20 0 4 0 false
     <> get_score NUMERATORS Example.pre4 200 90 20 0 4 0 true.
Proof.
  vm_compute. repeat split; try reflexivity; discriminate.
Qed.

(** * Further properties of the code *)

(** ** [min] *)

(** X1.  [min] returns one of its two arguments, which neither argument is
    below, and does not depend on their order. *)
Theorem min_is_minimum (n k : Z) :
  min n k <= n /\ min n k <= k /\ (min n k = n \/ min n k = k)
  /\ min n k = min k n.
Proof.
  unfold min. destruct (Z.gtb_spec n k), (Z.gtb_spec k n); lia.
Qed.

(** ** [bin] *)

(** X2.  In the lower half of a row, [2 * k <= n], [bin] decides overflow
    exactly: it returns the binomial coefficient when that fits in 64
    bits, and [0] only when it does not. *)
Theorem bin_lower_half_exact (n k : Z) :
  0 <= k -> 2 * k <= n -> n <= ULONG_MAX ->
  bin n k = if binom (Z.to_nat n) (Z.to_nat k) <=? ULONG_MAX
            then binom (Z.to_nat n) (Z.to_nat k) else 0.
Proof.
  intros Hk Hhalf Hn. unfold bin.
  destruct (Z.leb_spec (binom (Z.to_nat n) (Z.to_nat k)) ULONG_MAX)
    as [Hfit|Hexc].
  - rewrite bin_run_fits; [done|lia|done|].
    intros a Ha. etransitivity; [|exact Hfit].
    apply binom_mono_k; lia.
  - rewrite (bin_run_exceeds n k (Z.to_nat k)); [done|lia|done|lia|done].
Qed.

Lemma bin_lower_half_witness :
  bin 10 3 = if binom (Z.to_nat 10) (Z.to_nat 3) <=? ULONG_MAX
             then binom (Z.to_nat 10) (Z.to_nat 3) else 0.
Proof.
  refine (bin_lower_half_exact 10 3 _ _ _).
  - lia.
  - lia.
  - vm_compute. discriminate.
Defined.

(** X3.  In the upper half the loop passes through the middle of the row:
    from [n = 68] on, every [k] from [34] to [n] makes [bin] return the
    sentinel [0], although the coefficient itself, at least [1], may be
    small ([C(n, n) = 1]). *)
Theorem bin_large_k_overflows (n k : Z) :
  68 <= n -> n <= ULONG_MAX -> 34 <= k <= n ->
  bin n k = 0 /\ 1 <= binom (Z.to_nat n) (Z.to_nat k).
Proof.
  intros Hn Hmax Hk. split; [|apply binom_pos; lia].
  unfold bin. rewrite (bin_run_exceeds n k 34); [done|lia|done|lia|].
  eapply Z.lt_le_trans; [exact binom_68_34|].
  apply binom_mono_n. lia.
Qed.

Lemma bin_large_k_witness :
  bin 68 68 = 0 /\ 1 <= binom (Z.to_nat 68) (Z.to_nat 68).
Proof.
  refine (bin_large_k_overflows 68 68 _ _ _).
  - lia.
  - vm_compute. discriminate.
  - lia.
Defined.

(** X4.  For [0 <= k <= n] the sentinel is unambiguous: [bin] returns [0]
    exactly when it leaves through the overflow return, any other result
    is the binomial coefficient, and the result is a 64-bit value. *)
Theorem bin_sentinel_unambiguous (n k : Z) :
  0 <= k <= n -> n <= ULONG_MAX ->
  (bin n k = 0 <-> bin_run n k = BinOverflow)
  /\ (bin n k <> 0 -> bin n k = binom (Z.to_nat n) (Z.to_nat k))
  /\ 0 <= bin n k <= ULONG_MAX.
Proof.
  intros Hk Hn. unfold bin.
  destruct (bin_run n k) as [|c] eqn:Hrun.
  - split; [done|]. split; [done|]. vm_compute. split; discriminate.
  - pose proof (bin_run_exact n k c Hk Hn Hrun) as ->.
    pose proof (binom_pos (Z.to_nat n) (Z.to_nat k) ltac:(lia)) as Hpos.
    destruct (binom_fits_dec (Z.to_nat n) (Z.to_nat k))
      as [Hfits|(a & Ha & Hexc)].
    + specialize (Hfits (Z.to_nat k) ltac:(lia)).
      split; [split; [lia|done]|]. split; [done|lia].
    + rewrite (bin_run_exceeds n k a) in Hrun by done. done.
Qed.

Lemma bin_sentinel_witness :
  (bin 10 3 = 0 <-> bin_run 10 3 = BinOverflow)
  /\ (bin 10 3 <> 0 -> bin 10 3 = binom (Z.to_nat 10) (Z.to_nat 3))
  /\ 0 <= bin 10 3 <= ULONG_MAX.
Proof.
  refine (bin_sentinel_unambiguous 10 3 _ _).
  - lia.
  - vm_compute. discriminate.
Defined.

(** ** [norm_cdf], [norm_pf] and [get_numerator] *)

Lemma SFeqb_opp_zero (s : spec_float) (z : bool) :
  SFeqb (SFopp s) (S754_zero z) = SFeqb s (S754_zero z).
Proof. destruct s as [| [] | | [] ? ?]; reflexivity. Qed.

Lemma SFabs_opp (s : spec_float) : SFabs (SFopp s) = SFabs s.
Proof. destruct s; reflexivity. Qed.

(** X5.  In binary32 the sign of [sigma] does not matter: [norm_cdf],
    [norm_pf] and [get_numerator] return the same value for [-sigma] as
    for [sigma], the two zeros and NaN included. *)
Theorem get_numerator_sign_of_sigma (dna_length distance : Z)
    (x mu sigma : spec_float) :
  norm_cdf x mu (SFopp sigma) = norm_cdf x mu sigma
  /\ norm_pf x mu (SFopp sigma) = norm_pf x mu sigma
  /\ get_numerator dna_length distance mu (SFopp sigma)
     = get_numerator dna_length distance mu sigma.
Proof.
  assert (forall y, norm_cdf y mu (SFopp sigma) = norm_cdf y mu sigma) as Hcdf.
  { intros y. unfold norm_cdf. cbn [fabs Binary32.arith].
    rewrite SFabs_opp. done. }
  assert (forall y, norm_pf y mu (SFopp sigma) = norm_pf y mu sigma) as Hpf.
  { intros y. unfold norm_pf. rewrite !Hcdf.
    change (feq (SFopp sigma) (of_int 0))
      with (SFeqb (SFopp sigma) (S754_zero false)).
    rewrite SFeqb_opp_zero. done. }
  split; [apply Hcdf|]. split; [apply Hpf|].
  unfold get_numerator. rewrite !Hcdf, Hpf.
  change (feq (SFopp sigma) (lit 0.00%Q))
    with (SFeqb (SFopp sigma) (S754_zero false)).
  rewrite SFeqb_opp_zero. done.
Qed.

(** ** [get_denominator] *)

Lemma binom_pascal (n k : nat) :
  binom (S n) (S k) = binom n k + binom n (S k).
Proof. reflexivity. Qed.

(** X6.  In exact arithmetic, when no evaluation of [bin] leaves through
    its overflow return, the denominators of the feasible gaps
    [d = 1 .. L - N + 1] add up to [1]: they are a probability
    distribution over the gap lengths. *)
Theorem get_denominator_sums_to_one (N L : Z) :
  1 <= N <= L -> L <= ULONG_MAX ->
  bin_run L N <> BinOverflow ->
  (forall d, 1 <= d <= L - N + 1 -> bin_run (L - d) (N - 1) <> BinOverflow) ->
  @denominator_mass Q _ N L = of_int 1.
Proof.
  intros HN HL HB Hnum.
  set (B := binom (Z.to_nat L) (Z.to_nat N)).
  assert (1 <= B) as HBpos by (apply binom_pos; lia).
  assert (forall d, 1 <= d <= L - N + 1 ->
            @get_denominator Q _ d N L
            = Qred (inject_Z (binom (Z.to_nat (L - d)) (Z.to_nat (N - 1)))
                    / inject_Z B)) as Hden.
  { intros d Hd. specialize (Hnum d Hd).
    destruct (bin_run (L - d) (N - 1)) as [|a] eqn:Ha; [done|].
    destruct (bin_run L N) as [|b] eqn:Hb; [done|].
    rewrite (get_denominator_binom d N L a b) by (done || lia). reflexivity. }
  assert (forall d, 1 <= d <= L - N + 1 ->
            binom (Z.to_nat (L - d)) (Z.to_nat (N - 1))
            = binom (Z.to_nat (L - (d - 1))) (Z.to_nat N)
              - binom (Z.to_nat (L - d)) (Z.to_nat N)) as Hpascal.
  { intros d Hd.
    replace (Z.to_nat (L - (d - 1))) with (S (Z.to_nat (L - d))) by lia.
    replace (Z.to_nat N) with (S (Z.to_nat (N - 1))) by lia.
    rewrite binom_pascal. lia. }
  cut (Qred (@denominator_mass Q _ N L) = @denominator_mass Q _ N L
       /\ (@denominator_mass Q _ N L
           == inject_Z (B - binom (Z.to_nat (L - (L - N + 2 - 1))) (Z.to_nat N))
              / inject_Z B)%Q).
  { intros [Hfix Heq]. rewrite <- Hfix.
    change (of_int 1 : Q) with (Qred 1). apply Qred_complete.
    rewrite Heq. rewrite binom_gt by lia.
    rewrite Z.sub_0_r. apply Qmult_inv_r.
    intros Hz. unfold Qeq in Hz. simpl in Hz. lia. }
  unfold denominator_mass.
  apply (for_loop_ind
    (fun d (acc : Q) =>
       Qred acc = acc
       /\ (acc == inject_Z (B - binom (Z.to_nat (L - (d - 1))) (Z.to_nat N))
                  / inject_Z B)%Q)); [lia| |].
  - rewrite Hden by lia. split.
    + apply Qred_complete, Qred_correct.
    + rewrite Qred_correct, (Hpascal 1) by lia.
      replace (L - (1 - 1)) with L by lia. fold B.
      replace (2 - 1) with 1 by lia. reflexivity.
  - intros d acc Hd [Hfix Heq]. cbn [fadd ExactQ.arith]. split.
    + apply Qred_complete, Qred_correct.
    + rewrite Qred_correct, Heq, Hden by lia.
      rewrite Qred_correct, (Hpascal d) by lia.
      replace (d + 1 - 1) with d by lia.
      unfold Qdiv. rewrite <- Qmult_plus_distr_l, <- inject_Z_plus.
      apply Qmult_comp; [|reflexivity].
      f_equiv. lia.
Qed.

Lemma get_denominator_sum_witness : @denominator_mass Q _ 2 5 = of_int 1.
Proof.
  refine (get_denominator_sums_to_one 2 5 _ _ _ _).
  - lia.
  - vm_compute. discriminate.
  - vm_compute. discriminate.
  - intros d Hd.
    assert (d = 1 \/ d = 2 \/ d = 3 \/ d = 4) as [->|[->|[->| ->]]] by lia;
      vm_compute; discriminate.
Defined.

(** ** [get_forward_offset] and [get_reverse_offset] *)

(** X7.  For every recognizer index [i] the two offsets and [1] add up to
    the total width of the recognizers, so the range of starting positions
    [forward_offset .. len_seq - reverse_offset - 1] that [fill_matrix]
    scans has the same number of positions for every recognizer: the
    [num_alignments] that [py_calculate] computes from index [0]. *)
Theorem offsets_leave_equal_windows (cols : list Z) (num_rec len_seq i : Z) :
  0 <= i <= num_rec ->
  get_forward_offset i cols num_rec + get_reverse_offset i cols num_rec + 1
  = sum_range cols 0 num_rec
  /\ (len_seq - get_reverse_offset i cols num_rec)
     - get_forward_offset i cols num_rec
     = len_seq - get_forward_offset 0 cols num_rec
       - get_reverse_offset 0 cols num_rec.
Proof.
  intros Hi.
  rewrite !get_forward_offset_sum, !get_reverse_offset_sum by lia.
  rewrite (sum_range_nil cols 0 0) by lia.
  rewrite (sum_range_split cols 0 i num_rec) by lia. lia.
Qed.

Lemma offsets_witness :
  get_forward_offset 1 [2; 3; 1] 3 + get_reverse_offset 1 [2; 3; 1] 3 + 1
  = sum_range [2; 3; 1] 0 3
  /\ (10 - get_reverse_offset 1 [2; 3; 1] 3) - get_forward_offset 1 [2; 3; 1] 3
     = 10 - get_forward_offset 0 [2; 3; 1] 3 - get_reverse_offset 0 [2; 3; 1] 3.
Proof.
  refine (offsets_leave_equal_windows [2; 3; 1] 3 10 1 _). lia.
Defined.

(** ** [max_index] and the innermost loop on a NaN *)

Section ArgmaxNan.
Context {F : Type} `{FloatArith F}.

(** A first value that compares below nothing is never replaced. *)
Lemma first_argmax_stuck (f : Z -> F) n :
  (forall x, flt (f 0) x = false) -> first_argmax f n = 0.
Proof.
  intros Hnan. unfold first_argmax.
  destruct (decide (0 <= n)) as [Hn|Hn]; [|apply for_loop_nil; lia].
  apply (for_loop_ind (fun _ m => m = 0)); [done|done|].
  intros i m _ ->. rewrite Hnan. done.
Qed.

(** A position other than [0] was taken on a comparison that held. *)
Lemma first_argmax_chosen (f : Z -> F) n :
  first_argmax f n <> 0 ->
  exists m, flt (f m) (f (first_argmax f n)) = true.
Proof.
  unfold first_argmax.
  destruct (decide (0 <= n)) as [Hn|Hn]; [|rewrite for_loop_nil by lia; done].
  apply (for_loop_ind
           (fun _ m => m <> 0 -> exists m', flt (f m') (f m) = true));
    [done|done|].
  intros i m _ IH. destruct (flt (f m) (f i)) eqn:Hlt; [|done].
  intros _. exists m. done.
Qed.
End ArgmaxNan.

Lemma SFltb_nan_l x y : Binary32.is_nan x = true -> SFltb x y = false.
Proof. destruct x; try discriminate. intros _. destruct y; reflexivity. Qed.

Lemma SFltb_not_nan x y :
  SFltb x y = true -> Binary32.is_nan x = false /\ Binary32.is_nan y = false.
Proof. intros Hlt. apply SFltb_key in Hlt. tauto. Qed.

(** X8.  In binary32, a NaN in slot [0] makes [max_index] return [0]
    whatever the other entries are, and an index other than [0] that
    [max_index] returns never holds a NaN. *)
Theorem max_index_nan (arr : list spec_float) (size : Z) :
  (Binary32.is_nan (rd fzero arr 0) = true -> max_index arr size = 0)
  /\ (max_index arr size <> 0 ->
      Binary32.is_nan (rd fzero arr (max_index arr size)) = false).
Proof.
  rewrite max_index_first_argmax. split.
  - intros Hnan. apply first_argmax_stuck. intros x.
    apply SFltb_nan_l. done.
  - intros Hne. destruct (first_argmax_chosen _ _ Hne) as [m Hm].
    apply SFltb_not_nan in Hm. tauto.
Qed.

(** X9.  In binary32, at a stage [i] and ending position [j] of the
    dynamic program: if the candidate of the starting position [0] is a
    NaN, that NaN is committed and the gap [j] is recorded, whatever the
    other candidates are; and whenever another gap is recorded the
    committed score is not a NaN. *)
Theorem dp_stage_nan_candidate
    (NUMERATORS score_matrix gapMatrix : list spec_float)
    (num_alignments num_rec len_seq effective_length max_length : Z)
    (is_precomputed : bool) (i j : Z) :
  let after :=
    dp_after NUMERATORS score_matrix gapMatrix num_alignments num_rec len_seq
             effective_length max_length is_precomputed in
  let cand :=
    candidate NUMERATORS score_matrix gapMatrix num_alignments num_rec len_seq
              effective_length max_length is_precomputed
              (alignments (after (i - 1))) i j in
  let committed := rd fzero (alignments (after i)) j in
  let gap := rd 0 (gap_alignments (after i)) ((i - 1) * num_alignments + j) in
  0 <= num_alignments -> 1 <= i < num_rec -> 0 <= j < num_alignments ->
  (Binary32.is_nan (cand 0) = true -> committed = cand 0 /\ gap = j)
  /\ (gap <> j -> Binary32.is_nan committed = false).
Proof.
  intros after cand committed gap HA Hi Hj.
  destruct (dp_after_spec NUMERATORS score_matrix gapMatrix num_alignments
              num_rec len_seq effective_length max_length is_precomputed
              (Z.to_nat i) HA ltac:(lia)) as (_ & Hrows).
  rewrite Z2Nat.id in Hrows by lia.
  destruct (Hrows i j ltac:(lia) Hj) as [Hcum Hgap].
  fold after in Hcum, Hgap. fold cand in Hcum. fold committed in Hcum.
  fold gap in Hgap. unfold dp_best in Hcum, Hgap. fold after cand in Hcum, Hgap.
  split.
  - intros Hnan.
    rewrite first_argmax_stuck in Hcum, Hgap
      by (intros x; apply SFltb_nan_l; done).
    split; [done|lia].
  - intros Hne.
    assert (first_argmax cand (j + 1) <> 0) as Hb by lia.
    destruct (first_argmax_chosen _ _ Hb) as [m Hm].
    apply SFltb_not_nan in Hm. rewrite Hcum. tauto.
Qed.

Lemma dp_stage_nan_witness :
  let after := dp_after [] Example.sm_nan Example.con2 2 2 3 1 0 false in
  let cand :=
    candidate [] Example.sm_nan Example.con2 2 2 3 1 0 false
              (alignments (after (1 - 1))) 1 1 in
  let committed := rd fzero (alignments (after 1)) 1 in
  let gap := rd 0 (gap_alignments (after 1)) ((1 - 1) * 2 + 1) in
  committed = cand 0 /\ gap = 1.
Proof.
  refine (proj1 (dp_stage_nan_candidate
                   [] Example.sm_nan Example.con2 2 2 3 1 0 false 1 1 _ _ _) _).
  - lia.
  - lia.
  - lia.
  - vm_compute. reflexivity.
Defined.

(** ** The frame of [traceback] *)

Section TracebackFrame.
Context {F : Type} `{FloatArith F}.
Variables (NUMERATORS con_matrices sm T : list F) (G : list Z).
Variables (N L A max_seq_len eff : Z) (is_precomputed : bool).

(** [traceback] keeps the sizes of the three buffers and writes no slot
    past [N] of the recognizer scores, [N - 2] of the connector scores and
    [N - 1] of the connector lengths. *)
Lemma traceback_frame (out : outputs F) :
  2 <= N ->
  let out' := traceback NUMERATORS N L con_matrices sm A T G out max_seq_len
                        eff is_precomputed in
  (length (rec_scores out') = length (rec_scores out)
   /\ length (con_scores out') = length (con_scores out)
   /\ length (con_lengths out') = length (con_lengths out))
  /\ (forall t, N < t -> rd fzero (rec_scores out') t = rd fzero (rec_scores out) t)
  /\ (forall t, N - 1 <= t ->
        rd fzero (con_scores out') t = rd fzero (con_scores out) t)
  /\ (forall t, N <= t -> rd 0 (con_lengths out') t = rd 0 (con_lengths out) t).
Proof.
  intros HN out'. subst out'. unfold traceback.
  set (cl1 := wr (con_lengths out) (N - 1) _).
  set (gl := for_down (N - 3) 0 _ _).
  assert (length gl.1 = length (con_lengths out)
          /\ forall t, N <= t -> rd 0 gl.1 t = rd 0 (con_lengths out) t) as Hgl.
  { subst gl.
    apply (for_down_ind
      (fun _ (s : list Z * Z) =>
         length s.1 = length (con_lengths out)
         /\ forall t, N <= t -> rd 0 s.1 t = rd 0 (con_lengths out) t));
      [lia| |].
    - cbn [fst]. subst cl1. rewrite length_wr. split; [done|].
      intros t Ht. apply rd_wr_ne. lia.
    - intros i [cl index] Hi [Hlen Hfr]. cbn [fst] in *.
      rewrite length_wr. split; [done|].
      intros t Ht. rewrite rd_wr_ne by lia. apply Hfr. done. }
  destruct gl as [cl index]. cbn [fst] in Hgl. destruct Hgl as [Hcll Hclf].
  set (cl' := wr cl 0 (index - rd 0 cl 1)).
  set (cs := for_loop 0 (N - 1) _ (con_scores out)).
  assert (length cs = length (con_scores out)
          /\ forall t, N - 1 <= t -> rd fzero cs t = rd fzero (con_scores out) t)
    as [Hcsl Hcsf].
  { subst cs.
    apply (for_loop_ind
      (fun _ (s : list F) =>
         length s = length (con_scores out)
         /\ forall t, N - 1 <= t -> rd fzero s t = rd fzero (con_scores out) t));
      [lia|done|].
    intros i s Hi [Hlen Hfr]. rewrite length_wr. split; [done|].
    intros t Ht. rewrite rd_wr_ne by lia. apply Hfr. done. }
  set (rsl := for_loop 0 N _ _).
  assert (length rsl.1 = length (rec_scores out)
          /\ forall t, N < t -> rd fzero rsl.1 t = rd fzero (rec_scores out) t)
    as Hrsl.
  { subst rsl.
    apply (for_loop_ind
      (fun _ (s : list F * Z) =>
         length s.1 = length (rec_scores out)
         /\ forall t, N < t -> rd fzero s.1 t = rd fzero (rec_scores out) t));
      [lia| |].
    - cbn [fst]. rewrite length_wr. split; [done|].
      intros t Ht. apply rd_wr_ne. lia.
    - intros i [rs off] Hi [Hlen Hfr]. cbn [fst] in *.
      rewrite length_wr. split; [done|].
      intros t Ht. rewrite rd_wr_ne by lia. apply Hfr. done. }
  destruct rsl as [rs off]. cbn [fst] in Hrsl. destruct Hrsl as [Hrsl Hrsf].
  cbn [rec_scores con_scores con_lengths].
  subst cl'. rewrite length_wr.
  repeat split; try done.
  intros t Ht. rewrite rd_wr_ne by lia. apply Hclf. done.
Qed.
End TracebackFrame.

(** ** The order under monotone addition *)

#[global] Instance ExactQ_monotone : FloatMonotone Q.
Proof.
  split.
  - intros a b _. split; reflexivity.
  - intros a b c. cbn [flt fadd ExactQ.arith].
    rewrite !negb_false_iff, !Qle_bool_iff, !Qred_correct.
    intros Hle. apply Qplus_le_compat; [done|apply Qle_refl].
Qed.

Lemma flt_false_trans {F : Type} `{FloatMonotone F} (a b c : F) :
  flt a b = false -> flt b c = false -> not_nan b = true -> flt a c = false.
Proof.
  intros Hab Hbc Hb. destruct (flt a c) eqn:Hac; [|done].
  destruct (flt_defined a c Hac) as [Ha Hc].
  destruct (flt_connex a b c Ha Hb Hc Hac); congruence.
Qed.

Lemma chain_score_snoc {F : Type} `{FloatArith F}
    (NUMERATORS sm con : list F) A N L eff ml pre (p : Z -> Z) n :
  1 <= n ->
  chain_score NUMERATORS sm con A N L eff ml pre p (n + 1)
  = fadd (fadd (chain_score NUMERATORS sm con A N L eff ml pre p n)
               (get_score NUMERATORS con L eff N (p n - p (n - 1)) ml (n - 1) pre))
         (rd fzero sm (n * A + p n)).
Proof. intros Hn. unfold chain_score. rewrite for_loop_snoc by lia. done. Qed.

(** ** The reported placement, continued *)

Section PlacementMore.
Context {F : Type} `{FloatOrder F}.
Variables (NUMERATORS : list F) (seq : list ascii) (pssm : list F).
Variables (cols : list Z) (con : list F) (max_length : Z).

Local Abbreviation N := (Z.of_nat (length cols)).
Local Abbreviation L := (Z.of_nat (length seq)).
Local Abbreviation A := (L - sum_range cols 0 N + 1).
Local Abbreviation eff := (L - sum_range cols 0 N).
Local Abbreviation pre := (negb (Z.of_nat (length con) =? (N - 1) * 2)).
Local Abbreviation sm :=
  (fill_matrix seq L pssm cols N (calloc_float (A * N)) A).
Local Abbreviation after :=
  (dp_after NUMERATORS sm con A N L eff max_length pre).
Local Abbreviation T := (alignments (after (N - 1))).
Local Abbreviation G := (gap_alignments (after (N - 1))).
Local Abbreviation chain :=
  (chain_score NUMERATORS sm con A N L eff max_length pre).
Local Abbreviation pos :=
  (fun t => trace_pos A N G (max_index T A) (Z.to_nat (N - 1 - t))).

(** The optimum in slot [N] is the chain score of the reported
    positions. *)
Lemma optimum_is_reported_chain (out : outputs F) :
  let out' := py_calculate NUMERATORS seq pssm cols con out max_length in
  2 <= N -> 0 < A ->
  N <= Z.of_nat (length (con_lengths out)) ->
  N + 1 <= Z.of_nat (length (rec_scores out)) ->
  N - 1 <= Z.of_nat (length (con_scores out)) ->
  rd fzero (rec_scores out') N
  = chain (fun t => sum_range (con_lengths out') 0 (t + 1)) N.
Proof.
  intros out' HN HA Hcl Hrs Hcs.
  pose proof (cumulative_is_placement_sum NUMERATORS seq pssm cols con
                max_length out (Z.to_nat (N - 1)) HN HA Hcl Hrs Hcs ltac:(lia))
    as Hcum.
  fold out' in Hcum. rewrite Z2Nat.id in Hcum by lia.
  replace (N - 1 + 1) with N in Hcum by lia.
  assert (out' = traceback NUMERATORS N L con sm A T G out max_length eff pre)
    as Hout by (apply py_calculate_traceback; done).
  destruct (traceback_spec NUMERATORS con sm T G N L A max_length eff pre out
              HN Hcl Hrs Hcs) as (_ & _ & HoptT & Hrec & Hcon).
  rewrite <- Hout in HoptT, Hrec, Hcon.
  rewrite HoptT. rewrite trace_pos_last in Hcum. rewrite Hcum.
  unfold placement_sum, chain_score.
  rewrite (Hrec 0) by lia. rewrite Z.mul_0_l, Z.add_0_l.
  apply for_loop_ext. intros i acc Hi.
  rewrite (Hrec i), (Hcon (i - 1)) by lia.
  replace (i - 1 + 1) with i by lia.
  rewrite (sum_range_snoc (con_lengths out') 0 i) by lia.
  replace (sum_range (con_lengths out') 0 (i - 1 + 1))
    with (sum_range (con_lengths out') 0 i) by (f_equal; lia).
  do 3 f_equal. lia.
Qed.

(** X10.  With two or more recognizers and no NaN in the final cumulative
    table, the reported placement ends at the first position that holds
    the optimum: the connector lengths add up to that position, and every
    earlier ending position has a strictly smaller cumulative score. *)
Theorem earliest_end_wins_ties (out : outputs F) :
  let out' := py_calculate NUMERATORS seq pssm cols con out max_length in
  let table :=
    alignments (dp_run NUMERATORS sm con A N L eff max_length pre) in
  let last := sum_range (con_lengths out') 0 N in
  2 <= N ->
  sum_range cols 0 N <= L ->
  N <= Z.of_nat (length (con_lengths out)) ->
  N + 1 <= Z.of_nat (length (rec_scores out)) ->
  N - 1 <= Z.of_nat (length (con_scores out)) ->
  (forall j, 0 <= j < A -> not_nan (rd fzero table j) = true) ->
  0 <= last < A
  /\ rd fzero (rec_scores out') N = rd fzero table last
  /\ forall j, 0 <= j < last ->
       flt (rd fzero table j) (rd fzero table last) = true.
Proof.
  intros out' table last HN Hfit Hcl Hrs Hcs Hnan.
  subst table. rewrite dp_run_after in *.
  destruct (reported_lengths NUMERATORS seq pssm cols con max_length out
              HN ltac:(lia) Hcl Hrs Hcs) as [_ Hsum].
  fold out' in Hsum. specialize (Hsum (N - 1) ltac:(lia)).
  replace (N - 1 + 1) with N in Hsum by lia. fold last in Hsum.
  cbv beta in Hsum. replace (N - 1 - (N - 1)) with 0 in Hsum by lia.
  cbn [Z.to_nat trace_pos] in Hsum.
  rewrite Hsum.
  split; [apply max_index_range; lia|]. split.
  - subst out'. rewrite py_calculate_traceback by done.
    destruct (traceback_spec NUMERATORS con sm T G N L A max_length eff pre out
                HN Hcl Hrs Hcs) as (_ & _ & -> & _). done.
  - rewrite max_index_first_argmax.
    apply (first_argmax_is_first (rd fzero T) A). exact Hnan.
Qed.

(** X11.  With two or more recognizers, recognizer [t] is reported at the
    sequence position [start t], the widths before it plus the connector
    lengths up to it: its reported score is the score of the window of the
    sequence that starts there, the reported score of connector [t] is the
    connector score of the reported length [t + 1], slot [0] of the
    connector lengths is the start of the first recognizer, and slot
    [t + 1] is the gap between recognizers [t] and [t + 1]. *)
Theorem reported_scores_read_off_placement (out : outputs F) :
  let out' := py_calculate NUMERATORS seq pssm cols con out max_length in
  let start := fun t =>
    sum_range cols 0 t + sum_range (con_lengths out') 0 (t + 1) in
  2 <= N ->
  sum_range cols 0 N <= L ->
  N <= Z.of_nat (length (con_lengths out)) ->
  N + 1 <= Z.of_nat (length (rec_scores out)) ->
  N - 1 <= Z.of_nat (length (con_scores out)) ->
  (forall t, 0 <= t < N ->
     rd fzero (rec_scores out') t
     = window_score seq pssm cols t (sum_range cols 0 t) (start t))
  /\ (forall t, 0 <= t < N - 1 ->
        rd fzero (con_scores out') t
        = get_score NUMERATORS con L eff N (rd 0 (con_lengths out') (t + 1))
                    max_length t pre)
  /\ start 0 = rd 0 (con_lengths out') 0
  /\ (forall t, 0 <= t < N - 1 ->
        start (t + 1) = start t + rd 0 cols t + rd 0 (con_lengths out') (t + 1)).
Proof.
  intros out' start HN Hfit Hcl Hrs Hcs.
  destruct (reported_lengths NUMERATORS seq pssm cols con max_length out
              HN ltac:(lia) Hcl Hrs Hcs) as [_ Hsum].
  fold out' in Hsum.
  assert (out' = traceback NUMERATORS N L con sm A T G out max_length eff pre)
    as Hout by (apply py_calculate_traceback; done).
  destruct (traceback_spec NUMERATORS con sm T G N L A max_length eff pre out
              HN Hcl Hrs Hcs) as (_ & _ & _ & Hrec & Hcon).
  rewrite <- Hout in Hrec, Hcon.
  split; [|split; [done|split]].
  - intros t Ht. rewrite Hrec by done. subst start. cbv beta.
    rewrite Hsum by lia.
    apply fill_matrix_cells; try lia.
    + unfold calloc_float. rewrite length_replicate. lia.
    + apply (pos_range NUMERATORS seq pssm cols con max_length); lia.
  - subst start. cbv beta.
    rewrite (sum_range_nil cols 0 0) by lia.
    rewrite sum_range_snoc, sum_range_nil by lia. lia.
  - intros t Ht. subst start. cbv beta.
    rewrite (sum_range_snoc cols 0 t) by lia.
    rewrite (sum_range_snoc (con_lengths out') 0 (t + 1)) by lia. lia.
Qed.

(** X12.  On buffers of the sizes the program needs, [py_calculate] keeps
    the sizes of the three output buffers and leaves every slot past [N]
    of the recognizer scores, past [max 0 (N - 2)] of the connector scores
    and past [N - 1] of the connector lengths as it was; with one
    recognizer slot [1] of the recognizer scores is left as it was too: the
    optimum is written past the recognizer scores only from two
    recognizers on. *)
Theorem untouched_output_slots (out : outputs F) :
  let out' := py_calculate NUMERATORS seq pssm cols con out max_length in
  1 <= N ->
  sum_range cols 0 N <= L ->
  N <= Z.of_nat (length (con_lengths out)) ->
  N + 1 <= Z.of_nat (length (rec_scores out)) ->
  1 <= Z.of_nat (length (con_scores out)) ->
  N - 1 <= Z.of_nat (length (con_scores out)) ->
  (length (rec_scores out') = length (rec_scores out)
   /\ length (con_scores out') = length (con_scores out)
   /\ length (con_lengths out') = length (con_lengths out))
  /\ (forall t, N < t -> rd fzero (rec_scores out') t = rd fzero (rec_scores out) t)
  /\ (N = 1 -> rd fzero (rec_scores out') 1 = rd fzero (rec_scores out) 1)
  /\ (forall t, 1 <= t -> N - 1 <= t ->
        rd fzero (con_scores out') t = rd fzero (con_scores out) t)
  /\ (forall t, N <= t -> rd 0 (con_lengths out') t = rd 0 (con_lengths out) t).
Proof.
  intros out' HN _ _ _ _ _. destruct (decide (N = 1)) as [H1|H1].
  - assert (exists a b c,
              out' = Outputs (wr (rec_scores out) 0 a) (wr (con_scores out) 0 b)
                             (wr (con_lengths out) 0 c)) as (a & b & c & ->).
    { subst out'. unfold py_calculate. rewrite H1. cbn [Z.eqb Pos.eqb].
      eexists _, _, _. reflexivity. }
    cbn [rec_scores con_scores con_lengths]. rewrite !length_wr.
    repeat split; try done; intros; apply rd_wr_ne; lia.
  - subst out'. rewrite py_calculate_traceback by lia.
    destruct (traceback_frame NUMERATORS con sm T G N L A max_length eff pre out
                ltac:(lia)) as (Hlen & Hrs & Hcs & Hcl).
    repeat split; try tauto; try done.
    intros t _ Ht. apply Hcs. done.
Qed.
(** The slots written for two or more recognizers, in terms of the tables
    of the dynamic program alone. *)
Lemma written_slots (out : outputs F) :
  let out' := py_calculate NUMERATORS seq pssm cols con out max_length in
  2 <= N -> 0 < A ->
  N <= Z.of_nat (length (con_lengths out)) ->
  N + 1 <= Z.of_nat (length (rec_scores out)) ->
  N - 1 <= Z.of_nat (length (con_scores out)) ->
  rd 0 (con_lengths out') 0 = pos 0
  /\ (forall t, 1 <= t <= N - 1 ->
        rd 0 (con_lengths out') t = rd 0 G ((t - 1) * A + pos t))
  /\ rd fzero (rec_scores out') N = rd fzero T (max_index T A)
  /\ (forall t, 0 <= t < N ->
        rd fzero (rec_scores out') t = rd fzero sm (t * A + pos t))
  /\ (forall t, 0 <= t < N - 1 ->
        rd fzero (con_scores out') t
        = get_score NUMERATORS con L eff N (rd 0 G (t * A + pos (t + 1)))
                    max_length t pre).
Proof.
  intros out' HN HA Hcl Hrs Hcs.
  destruct (reported_lengths NUMERATORS seq pssm cols con max_length out
              HN HA Hcl Hrs Hcs) as [_ Hsum].
  fold out' in Hsum.
  assert (out' = traceback NUMERATORS N L con sm A T G out max_length eff pre)
    as Hout by (apply py_calculate_traceback; done).
  destruct (traceback_spec NUMERATORS con sm T G N L A max_length eff pre out
              HN Hcl Hrs Hcs) as (Hz & Ht & HoptT & Hrec & Hcon).
  rewrite <- Hout in Hz, Ht, HoptT, Hrec, Hcon.
  repeat split; try done.
  - intros t Ht'. rewrite Hrec, Hsum by lia. done.
  - intros t Ht'. rewrite Hcon, Ht by lia.
    replace (t + 1 - 1) with t by lia. done.
Qed.

(** X13.  The slots that [py_calculate] writes do not depend on what the
    output buffers held before: on two sets of buffers of sufficient sizes
    the connector lengths [0 .. N - 1], the recognizer scores [0 .. N - 1],
    the optimum in slot [N] (from two recognizers on) and the connector
    scores [0 .. max 0 (N - 2)] come out the same. *)
Theorem written_slots_ignore_buffer_contents (out out2 : outputs F) :
  let r := py_calculate NUMERATORS seq pssm cols con out max_length in
  let r2 := py_calculate NUMERATORS seq pssm cols con out2 max_length in
  1 <= N ->
  sum_range cols 0 N <= L ->
  N <= Z.of_nat (length (con_lengths out)) ->
  N + 1 <= Z.of_nat (length (rec_scores out)) ->
  1 <= Z.of_nat (length (con_scores out)) ->
  N - 1 <= Z.of_nat (length (con_scores out)) ->
  N <= Z.of_nat (length (con_lengths out2)) ->
  N + 1 <= Z.of_nat (length (rec_scores out2)) ->
  1 <= Z.of_nat (length (con_scores out2)) ->
  N - 1 <= Z.of_nat (length (con_scores out2)) ->
  (forall t, 0 <= t < N -> rd 0 (con_lengths r) t = rd 0 (con_lengths r2) t)
  /\ (forall t, 0 <= t < N ->
        rd fzero (rec_scores r) t = rd fzero (rec_scores r2) t)
  /\ (2 <= N -> rd fzero (rec_scores r) N = rd fzero (rec_scores r2) N)
  /\ (forall t, 0 <= t -> t < 1 \/ t < N - 1 ->
        rd fzero (con_scores r) t = rd fzero (con_scores r2) t).
Proof.
  intros r r2 HN Hfit Hcl Hrs Hcs1 Hcs Hcl2 Hrs2 Hcs12 Hcs2.
  destruct (decide (N = 1)) as [H1|H1].
  - assert (forall o : outputs F,
              1 <= Z.of_nat (length (con_lengths o)) ->
              1 <= Z.of_nat (length (rec_scores o)) ->
              1 <= Z.of_nat (length (con_scores o)) ->
              let o' := py_calculate NUMERATORS seq pssm cols con o max_length in
              rd 0 (con_lengths o') 0 = max_index sm A
              /\ rd fzero (rec_scores o') 0 = rd fzero sm (max_index sm A)
              /\ rd fzero (con_scores o') 0 = lit 0.00%Q) as Hone.
    { intros o Ho1 Ho2 Ho3 o'. subst o'. unfold py_calculate.
      rewrite H1. cbn [Z.eqb Pos.eqb].
      rewrite !get_forward_offset_sum, !get_reverse_offset_sum by lia.
      rewrite (sum_range_nil cols 0 0) by lia.
      replace (L - 0 - (sum_range cols 0 1 - 1))
        with (L - sum_range cols 0 1 + 1) by lia.
      cbn [rec_scores con_scores con_lengths].
      rewrite !rd_wr_eq by lia. done. }
    destruct (Hone out ltac:(lia) ltac:(lia) ltac:(lia)) as (Ha & Hb & Hc).
    destruct (Hone out2 ltac:(lia) ltac:(lia) ltac:(lia)) as (Ha2 & Hb2 & Hc2).
    fold r in Ha, Hb, Hc. fold r2 in Ha2, Hb2, Hc2.
    repeat split.
    + intros t Ht. replace t with 0 by lia. congruence.
    + intros t Ht. replace t with 0 by lia. congruence.
    + lia.
    + intros t Ht0 Ht. replace t with 0 by lia. congruence.
  - destruct (written_slots out ltac:(lia) ltac:(lia) Hcl Hrs Hcs)
      as (Hz & Ht & Hopt & Hrec & Hcon).
    destruct (written_slots out2 ltac:(lia) ltac:(lia) Hcl2 Hrs2 Hcs2)
      as (Hz2 & Ht2 & Hopt2 & Hrec2 & Hcon2).
    fold r in Hz, Ht, Hopt, Hrec, Hcon. fold r2 in Hz2, Ht2, Hopt2, Hrec2, Hcon2.
    repeat split.
    + intros t Ht'. destruct (decide (t = 0)) as [->|]; [congruence|].
      rewrite Ht, Ht2 by lia. done.
    + intros t Ht'. rewrite Hrec, Hrec2 by lia. done.
    + intros _. congruence.
    + intros t Ht0 Ht'. rewrite Hcon, Hcon2 by lia. done.
Qed.
End PlacementMore.

Lemma earliest_end_witness :
  let out' := py_calculate [] Example.seq2 Example.pssm2 [1; 1] Example.con2
                           Example.out2 0 in
  let table :=
    alignments (dp_run [] Example.sm2 Example.con2 2 2 3 1 0 false) in
  let last := sum_range (con_lengths out') 0 2 in
  0 <= last < 2
  /\ rd fzero (rec_scores out') 2 = rd fzero table last
  /\ forall j, 0 <= j < last ->
       flt (rd fzero table j) (rd fzero table last) = true.
Proof.
  refine (earliest_end_wins_ties
            [] Example.seq2 Example.pssm2 [1; 1] Example.con2 0 Example.out2
            _ _ _ _ _ _).
  - vm_compute. discriminate.
  - vm_compute. discriminate.
  - vm_compute. discriminate.
  - vm_compute. discriminate.
  - vm_compute. discriminate.
  - intros j Hj. change (0 <= j < 2) in Hj.
    assert (j = 0 \/ j = 1) as [-> | ->] by lia; vm_compute; reflexivity.
Defined.

Lemma reported_scores_placement_witness :
  let out' := py_calculate [] Example.seq2 Example.pssm2 [1; 1] Example.con2
                           Example.out2 0 in
  let start := fun t =>
    sum_range [1; 1] 0 t + sum_range (con_lengths out') 0 (t + 1) in
  (forall t, 0 <= t < 2 ->
     rd fzero (rec_scores out') t
     = window_score Example.seq2 Example.pssm2 [1; 1] t (sum_range [1; 1] 0 t)
                    (start t))
  /\ (forall t, 0 <= t < 2 - 1 ->
        rd fzero (con_scores out') t
        = get_score [] Example.con2 3 (3 - sum_range [1; 1] 0 2) 2
                    (rd 0 (con_lengths out') (t + 1)) 0 t
                    (negb (2 =? (2 - 1) * 2)))
  /\ start 0 = rd 0 (con_lengths out') 0
  /\ (forall t, 0 <= t < 2 - 1 ->
        start (t + 1)
        = start t + rd 0 [1; 1] t + rd 0 (con_lengths out') (t + 1)).
Proof.
  refine (reported_scores_read_off_placement
            [] Example.seq2 Example.pssm2 [1; 1] Example.con2 0 Example.out2
            _ _ _ _ _).
  - vm_compute. discriminate.
  - vm_compute. discriminate.
  - vm_compute. discriminate.
  - vm_compute. discriminate.
  - vm_compute. discriminate.
Defined.

Lemma untouched_slots_witness :
  let out' := py_calculate [] Example.seq1 Example.pssm1 [2] [] Example.out4 0 in
  (length (rec_scores out') = length (rec_scores Example.out4)
   /\ length (con_scores out') = length (con_scores Example.out4)
   /\ length (con_lengths out') = length (con_lengths Example.out4))
  /\ (forall t, 1 < t ->
        rd fzero (rec_scores out') t = rd fzero (rec_scores Example.out4) t)
  /\ (1 = 1 -> rd fzero (rec_scores out') 1 = rd fzero (rec_scores Example.out4) 1)
  /\ (forall t, 1 <= t -> 1 - 1 <= t ->
        rd fzero (con_scores out') t = rd fzero (con_scores Example.out4) t)
  /\ (forall t, 1 <= t ->
        rd 0 (con_lengths out') t = rd 0 (con_lengths Example.out4) t).
Proof.
  refine (untouched_output_slots
            [] Example.seq1 Example.pssm1 [2] [] 0 Example.out4 _ _ _ _ _ _).
  - vm_compute. discriminate.
  - vm_compute. discriminate.
  - vm_compute. discriminate.
  - vm_compute. discriminate.
  - vm_compute. discriminate.
  - vm_compute. discriminate.
Defined.

Lemma written_slots_witness :
  let r := py_calculate [] Example.seq2 Example.pssm2 [1; 1] Example.con2
                        Example.out2 0 in
  let r2 := py_calculate [] Example.seq2 Example.pssm2 [1; 1] Example.con2
                         Example.out4 0 in
  (forall t, 0 <= t < 2 -> rd 0 (con_lengths r) t = rd 0 (con_lengths r2) t)
  /\ (forall t, 0 <= t < 2 ->
        rd fzero (rec_scores r) t = rd fzero (rec_scores r2) t)
  /\ (2 <= 2 -> rd fzero (rec_scores r) 2 = rd fzero (rec_scores r2) 2)
  /\ (forall t, 0 <= t -> t < 1 \/ t < 2 - 1 ->
        rd fzero (con_scores r) t = rd fzero (con_scores r2) t).
Proof.
  refine (written_slots_ignore_buffer_contents
            [] Example.seq2 Example.pssm2 [1; 1] Example.con2 0
            Example.out2 Example.out4 _ _ _ _ _ _ _ _ _ _);
    vm_compute; discriminate.
Defined.

(** ** Optimality of the reported placement *)

Section Optimality.
Context {F : Type} `{FloatMonotone F}.
Variables (NUMERATORS : list F) (seq : list ascii) (pssm : list F).
Variables (cols : list Z) (con : list F) (max_length : Z).

Local Abbreviation N := (Z.of_nat (length cols)).
Local Abbreviation L := (Z.of_nat (length seq)).
Local Abbreviation A := (L - sum_range cols 0 N + 1).
Local Abbreviation eff := (L - sum_range cols 0 N).
Local Abbreviation pre := (negb (Z.of_nat (length con) =? (N - 1) * 2)).
Local Abbreviation sm :=
  (fill_matrix seq L pssm cols N (calloc_float (A * N)) A).
Local Abbreviation after :=
  (dp_after NUMERATORS sm con A N L eff max_length pre).
Local Abbreviation cand :=
  (candidate NUMERATORS sm con A N L eff max_length pre).
Local Abbreviation chain :=
  (chain_score NUMERATORS sm con A N L eff max_length pre).

(** Positions that do not decrease, start at [0] or later and end below
    [A], all lie in the table. *)
Lemma chain_positions_range (p : Z -> Z) :
  1 <= N ->
  0 <= p 0 -> (forall i, 1 <= i < N -> p (i - 1) <= p i) -> p (N - 1) < A ->
  forall i, 0 <= i <= N - 1 -> 0 <= p i < A.
Proof.
  intros HN Hp0 Hmono Hlast.
  assert (forall n : nat, Z.of_nat n <= N - 1 -> 0 <= p (Z.of_nat n)) as Hlo.
  { induction n as [|n IH]; intros Hn; [done|].
    specialize (IH ltac:(lia)). specialize (Hmono (Z.of_nat (S n)) ltac:(lia)).
    replace (Z.of_nat (S n) - 1) with (Z.of_nat n) in Hmono by lia. lia. }
  assert (forall d : nat, Z.of_nat d <= N - 1 ->
            p (N - 1 - Z.of_nat d) <= p (N - 1)) as Hhi.
  { induction d as [|d IH]; intros Hd.
    - replace (N - 1 - Z.of_nat 0) with (N - 1) by lia. lia.
    - specialize (IH ltac:(lia)).
      specialize (Hmono (N - 1 - Z.of_nat d) ltac:(lia)).
      replace (N - 1 - Z.of_nat d - 1) with (N - 1 - Z.of_nat (S d)) in Hmono
        by lia. lia. }
  intros i Hi. split.
  - specialize (Hlo (Z.to_nat i)). rewrite Z2Nat.id in Hlo by lia.
    apply Hlo. lia.
  - specialize (Hhi (Z.to_nat (N - 1 - i)) ltac:(lia)).
    rewrite Z2Nat.id in Hhi by lia.
    replace (N - 1 - (N - 1 - i)) with i in Hhi by lia. lia.
Qed.

(** The cumulative table of stage [s] at [p s] is not below the score of
    the chain that ends there. *)
Lemma table_dominates_chain (p : Z -> Z) (s : nat) :
  2 <= N -> 0 < A ->
  (forall i j k, 1 <= i < N -> 0 <= k <= j -> j < A ->
     not_nan (cand (alignments (after (i - 1))) i j k) = true) ->
  0 <= p 0 -> (forall i, 1 <= i < N -> p (i - 1) <= p i) -> p (N - 1) < A ->
  Z.of_nat s <= N - 1 ->
  flt (rd fzero (alignments (after (Z.of_nat s))) (p (Z.of_nat s)))
      (chain p (Z.of_nat s + 1)) = false.
Proof.
  intros HN HA Hnan Hp0 Hmono Hlast.
  pose proof (chain_positions_range p ltac:(lia) Hp0 Hmono Hlast) as Hrange.
  destruct (dp_after_spec NUMERATORS sm con A N L eff max_length pre
              (Z.to_nat (N - 1)) ltac:(lia) ltac:(lia)) as (_ & Hrows).
  rewrite Z2Nat.id in Hrows by lia.
  induction s as [|s IH]; intros Hs.
  - change (Z.of_nat 0) with 0. rewrite dp_after_0.
    destruct (dp_init_spec sm A N ltac:(lia) ltac:(lia)) as [_ Hinit].
    rewrite Hinit by (apply Hrange; lia).
    unfold chain_score. rewrite for_loop_nil by lia. apply flt_irrefl.
  - specialize (IH ltac:(lia)).
    set (s' := Z.of_nat (S s)) in *.
    replace (Z.of_nat s) with (s' - 1) in IH by lia.
    replace (s' - 1 + 1) with s' in IH by lia.
    pose proof (Hrange s' ltac:(lia)) as Hps.
    pose proof (Hrange (s' - 1) ltac:(lia)) as Hpp.
    pose proof (Hmono s' ltac:(lia)) as Hstep.
    destruct (Hrows s' (p s') ltac:(lia) Hps) as [Hcum _].
    destruct (dp_best_spec NUMERATORS sm con A N L eff max_length pre
                (alignments (after (s' - 1))) s' (p s') ltac:(lia))
      as [[Hbr Hmax] _].
    rewrite Hcum.
    apply (flt_false_trans _ (cand (alignments (after (s' - 1))) s' (p s')
                                   (p (s' - 1)))).
    + apply Hmax. lia.
    + rewrite chain_score_snoc by lia. unfold candidate.
      apply fadd_mono, fadd_mono. exact IH.
    + apply Hnan; lia.
Qed.

(** X14.  In an arithmetic whose addition is monotone, with two or more
    recognizers and no NaN among the candidates the dynamic program
    examines, the reported placement is optimal: the optimum in slot [N] is
    the score of the chain at the reported positions, and no chain of
    positions [0 <= p 0 <= ... <= p (N - 1) < A] scores more. *)
Theorem reported_placement_is_optimal (out : outputs F) :
  let out' := py_calculate NUMERATORS seq pssm cols con out max_length in
  let optimum := rd fzero (rec_scores out') N in
  let reported := fun t => sum_range (con_lengths out') 0 (t + 1) in
  2 <= N ->
  sum_range cols 0 N <= L ->
  N <= Z.of_nat (length (con_lengths out)) ->
  N + 1 <= Z.of_nat (length (rec_scores out)) ->
  N - 1 <= Z.of_nat (length (con_scores out)) ->
  (forall i j k, 1 <= i < N -> 0 <= k <= j -> j < A ->
     not_nan (cand (alignments (after (i - 1))) i j k) = true) ->
  optimum = chain reported N
  /\ forall p : Z -> Z,
       0 <= p 0 -> (forall i, 1 <= i < N -> p (i - 1) <= p i) ->
       p (N - 1) < A ->
       flt optimum (chain p N) = false.
Proof.
  intros out' optimum reported HN Hfit Hcl Hrs Hcs Hnan.
  split.
  { apply (optimum_is_reported_chain NUMERATORS seq pssm cols con max_length
             out HN ltac:(lia) Hcl Hrs Hcs). }
  intros p Hp0 Hmono Hlast.
  pose proof (table_dominates_chain p (Z.to_nat (N - 1)) HN ltac:(lia) Hnan
                Hp0 Hmono Hlast ltac:(lia)) as Hdom.
  rewrite Z2Nat.id in Hdom by lia.
  replace (N - 1 + 1) with N in Hdom by lia.
  assert (optimum = rd fzero (alignments (after (N - 1)))
                       (max_index (alignments (after (N - 1))) A)) as ->.
  { subst optimum out'. rewrite py_calculate_traceback by done.
    destruct (traceback_spec NUMERATORS con sm (alignments (after (N - 1)))
                (gap_alignments (after (N - 1))) N L A max_length eff pre out
                HN Hcl Hrs Hcs) as (_ & _ & -> & _). done. }
  rewrite max_index_first_argmax.
  destruct (first_argmax_is_argmax (rd fzero (alignments (after (N - 1)))) A
              ltac:(lia)) as [_ Hmax].
  pose proof (chain_positions_range p ltac:(lia) Hp0 Hmono Hlast (N - 1)
                ltac:(lia)) as Hend.
  apply (flt_false_trans _ (rd fzero (alignments (after (N - 1))) (p (N - 1)))).
  - apply Hmax. lia.
  - exact Hdom.
  - destruct (dp_after_spec NUMERATORS sm con A N L eff max_length pre
                (Z.to_nat (N - 1)) ltac:(lia) ltac:(lia)) as (_ & Hrows).
    rewrite Z2Nat.id in Hrows by lia.
    destruct (Hrows (N - 1) (p (N - 1)) ltac:(lia) ltac:(lia)) as [-> _].
    destruct (dp_best_spec NUMERATORS sm con A N L eff max_length pre
                (alignments (after (N - 1 - 1))) (N - 1) (p (N - 1)) ltac:(lia))
      as [[Hbr _] _].
    apply Hnan; lia.
Qed.
End Optimality.

Lemma reported_placement_optimal_witness :
  let out' := py_calculate [] Example.seq2 Example.pssm3 [1; 1] Example.con3
                           Example.out3 0 in
  let sm := fill_matrix Example.seq2 3 Example.pssm3 [1; 1] 2
                        (calloc_float (2 * 2)) 2 in
  let optimum := rd fzero (rec_scores out') 2 in
  let reported := fun t => sum_range (con_lengths out') 0 (t + 1) in
  optimum = chain_score [] sm Example.con3 2 2 3 1 0 false reported 2
  /\ forall p : Z -> Z,
       0 <= p 0 -> (forall i, 1 <= i < 2 -> p (i - 1) <= p i) ->
       p (2 - 1) < 2 ->
       flt optimum (chain_score [] sm Example.con3 2 2 3 1 0 false p 2) = false.
Proof.
  refine (reported_placement_is_optimal
            [] Example.seq2 Example.pssm3 [1; 1] Example.con3 0 Example.out3
            _ _ _ _ _ _).
  - vm_compute. discriminate.
  - vm_compute. discriminate.
  - vm_compute. discriminate.
  - vm_compute. discriminate.
  - vm_compute. discriminate.
  - intros i j k _ _ _. reflexivity.
Defined.

(** ** The letters of the sequence and the mode of the connectors *)

Section CaseFacts.
Context {F : Type} `{FloatArith F}.

Lemma add_base_to_upper (pssm : list F) row c score :
  add_base pssm row (to_upper c) score = add_base pssm row c score.
Proof.
  destruct c as [[] [] [] [] [] [] [] []]; reflexivity.
Qed.

Lemma rd_map_to_upper (seq : list ascii) i :
  rd zero (map to_upper seq) i = to_upper (rd zero seq i).
Proof.
  unfold rd. destruct (i <? 0); [reflexivity|].
  rewrite list_lookup_fmap. destruct (seq !! Z.to_nat i); reflexivity.
Qed.

Lemma window_score_to_upper seq (pssm : list F) cols i fo j :
  window_score (map to_upper seq) pssm cols i fo j
  = window_score seq pssm cols i fo j.
Proof.
  unfold window_score. apply for_loop_ext. intros k s _.
  rewrite rd_map_to_upper. apply add_base_to_upper.
Qed.

Lemma fill_matrix_to_upper seq len_seq (pssm : list F) cols num_rec sm0 A :
  fill_matrix (map to_upper seq) len_seq pssm cols num_rec sm0 A
  = fill_matrix seq len_seq pssm cols num_rec sm0 A.
Proof.
  unfold fill_matrix. apply for_loop_ext. intros i s _.
  apply for_loop_ext. intros j s' _. rewrite window_score_to_upper. done.
Qed.

Lemma py_calculate_to_upper NUMERATORS seq (pssm : list F) cols con out ml :
  py_calculate NUMERATORS (map to_upper seq) pssm cols con out ml
  = py_calculate NUMERATORS seq pssm cols con out ml.
Proof.
  unfold py_calculate. rewrite length_map, fill_matrix_to_upper. done.
Qed.
End CaseFacts.

(** X15.  The result does not depend on the case of the letters: two
    sequences that are equal once put in upper case give the same three
    output buffers. *)
Theorem placement_ignores_letter_case {F : Type} `{FloatArith F}
    (NUMERATORS : list F) (seq seq' : list ascii) (pssm : list F)
    (cols : list Z) (con : list F) (out : outputs F) (max_length : Z) :
  map to_upper seq = map to_upper seq' ->
  py_calculate NUMERATORS seq pssm cols con out max_length
  = py_calculate NUMERATORS seq' pssm cols con out max_length.
Proof.
  intros Heq.
  rewrite <- (py_calculate_to_upper NUMERATORS seq).
  rewrite <- (py_calculate_to_upper NUMERATORS seq').
  rewrite Heq. done.
Qed.

Lemma placement_letter_case_witness :
  py_calculate [] Example.seq1_mixed Example.pssm1 [2] [] Example.out1 0
  = py_calculate [] Example.seq1 Example.pssm1 [2] [] Example.out1 0.
Proof.
  refine (placement_ignores_letter_case
            [] Example.seq1_mixed Example.seq1 Example.pssm1
            [2] [] Example.out1 0 _).
  reflexivity.
Defined.

(** X16.  A connector array of [2 * (N - 1)] entries is read as pairs of a
    mean and a deviation: the run then reads neither the table
    [NUMERATORS] nor [max_length], and gives the same output buffers
    whatever they are. *)
Theorem statistical_run_ignores_table_and_max_length
    {F : Type} `{FloatArith F}
    (NUMERATORS NUMERATORS' : list F) (seq : list ascii) (pssm : list F)
    (cols : list Z) (con : list F) (out : outputs F)
    (max_length max_length' : Z) :
  Z.of_nat (length con) = (Z.of_nat (length cols) - 1) * 2 ->
  py_calculate NUMERATORS seq pssm cols con out max_length
  = py_calculate NUMERATORS' seq pssm cols con out max_length'.
Proof.
  intros Hlen. unfold py_calculate. rewrite Hlen, Z.eqb_refl.
  destruct (_ =? 1); [reflexivity|].
  cbn [negb]. unfold fill_traceback_matrix, dp_run, dp_stage, dp_try,
    dp_commit, candidate, traceback, get_score. cbn [negb]. reflexivity.
Qed.

Lemma statistical_run_witness :
  py_calculate [] Example.seq2 Example.pssm2 [1; 1] Example.con2
               Example.out2 0
  = py_calculate (map Binary32.of_Z [1; 2; 3]) Example.seq2 Example.pssm2
                 [1; 1] Example.con2 Example.out2 5.
Proof.
  refine (statistical_run_ignores_table_and_max_length
            [] (map Binary32.of_Z [1; 2; 3]) Example.seq2 Example.pssm2
            [1; 1] Example.con2 Example.out2 0 5 _).
  reflexivity.
Defined.

(** ** The statistical connector score in binary32 *)

Lemma log2f32_of_zero_or_nan (q : spec_float) :
  (exists s, q = S754_zero s) \/ q = S754_nan ->
  Binary32.log2f32 q = S754_infinity true
  \/ Binary32.is_nan (Binary32.log2f32 q) = true.
Proof. intros [[s ->]| ->]; [left|right]; reflexivity. Qed.

Lemma SFdiv_zero_num (s : bool) (den : spec_float) :
  (exists s', SFdiv Binary32.prec Binary32.emax (S754_zero s) den = S754_zero s')
  \/ SFdiv Binary32.prec Binary32.emax (S754_zero s) den = S754_nan.
Proof. destruct den; cbn [SFdiv]; eauto. Qed.

Lemma SFdiv_by_zero (a : spec_float) (s : bool) :
  (exists s', SFdiv Binary32.prec Binary32.emax a (S754_zero s) = S754_infinity s')
  \/ SFdiv Binary32.prec Binary32.emax a (S754_zero s) = S754_nan.
Proof. destruct a; cbn [SFdiv]; eauto. Qed.

Lemma SFdiv_by_infinity (num : spec_float) (s : bool) :
  (exists s', SFdiv Binary32.prec Binary32.emax num (S754_infinity s) = S754_zero s')
  \/ SFdiv Binary32.prec Binary32.emax num (S754_infinity s) = S754_nan.
Proof. destruct num; cbn [SFdiv]; eauto. Qed.

Lemma SFdiv_by_nan (num : spec_float) :
  SFdiv Binary32.prec Binary32.emax num S754_nan = S754_nan.
Proof. destruct num; reflexivity. Qed.

(** X17.  In binary32, in the statistical variant, when the gap is feasible
    and [bin] returns its overflow sentinel for the pair of the effective
    length and the number of recognizers, the divisor of
    [get_denominator] is zero and the connector score is [-infinity] or a
    NaN, whatever the connector and the numerator are. *)
Theorem overflowing_denominator_gives_no_score
    (NUMERATORS arr : list spec_float)
    (dna_length effective_length num_rec gap_size max_length curr_conn : Z) :
  let s := get_score NUMERATORS arr dna_length effective_length num_rec
                     gap_size max_length curr_conn false in
  1 <= gap_size + 1 <= effective_length - num_rec + 1 ->
  bin (ull effective_length) (ull num_rec) = 0 ->
  s = S754_infinity true \/ Binary32.is_nan s = true.
Proof.
  intros s Hgap Hbin. subst s. unfold get_score. cbn [negb].
  unfold get_denominator.
  destruct (Z.leb_spec 1 (gap_size + 1)) as [_|]; [|lia].
  destruct (Z.leb_spec (gap_size + 1) (effective_length - num_rec + 1))
    as [_|]; [|lia].
  cbn [andb]. rewrite Hbin.
  change (of_int 0 : spec_float) with (S754_zero false).
  cbn [log2f fdiv Binary32.arith].
  apply log2f32_of_zero_or_nan.
  destruct (SFdiv_by_zero
              (of_int (bin (ull (effective_length - (gap_size + 1)))
                           (ull (num_rec - 1)))) false) as [[s' ->]| ->].
  - apply SFdiv_by_infinity.
  - right. apply SFdiv_by_nan.
Qed.

Lemma overflowing_denominator_witness :
  let s := get_score [] Example.stat4 200 90 20 0 4 0 false in
  s = S754_infinity true \/ Binary32.is_nan s = true.
Proof.
  refine (overflowing_denominator_gives_no_score
            [] Example.stat4 200 90 20 0 4 0 _ _).
  - lia.
  - vm_compute. reflexivity.
Defined.

(** X18.  In binary32, in the statistical variant, a connector whose
    deviation is zero gives every gap length other than its mean the
    numerator [0], unfloored, and with it the score [-infinity] or a NaN,
    whatever the denominator is. *)
Theorem rigid_connector_allows_one_gap
    (NUMERATORS arr : list spec_float)
    (dna_length effective_length num_rec gap_size max_length curr_conn : Z) :
  let mu := rd fzero arr (curr_conn * 2) in
  let sigma := rd fzero arr (curr_conn * 2 + 1) in
  let s := get_score NUMERATORS arr dna_length effective_length num_rec
                     gap_size max_length curr_conn false in
  feq sigma (of_int 0) = true ->
  feq (of_int gap_size) mu = false ->
  get_numerator dna_length gap_size mu sigma = S754_zero false
  /\ (s = S754_infinity true \/ Binary32.is_nan s = true).
Proof.
  intros mu sigma s Hsigma Hgap.
  assert (get_numerator dna_length gap_size mu sigma = S754_zero false) as Hnum.
  { unfold get_numerator, norm_pf.
    change (lit 0.00%Q : spec_float) with (S754_zero false).
    change (of_int 0 : spec_float) with (S754_zero false) in *.
    rewrite Hsigma. cbn [negb]. rewrite Hgap. done. }
  split; [done|].
  subst s. unfold get_score. cbn [negb]. fold mu sigma. rewrite Hnum.
  cbn [log2f fdiv Binary32.arith].
  apply log2f32_of_zero_or_nan, SFdiv_zero_num.
Qed.

Lemma rigid_connector_witness :
  let mu := rd fzero Example.stat4 (0 * 2) in
  let sigma := rd fzero Example.stat4 (0 * 2 + 1) in
  let s := get_score [] Example.stat4 6 4 2 1 4 0 false in
  get_numerator 6 1 mu sigma = S754_zero false
  /\ (s = S754_infinity true \/ Binary32.is_nan s = true).
Proof.
  refine (rigid_connector_allows_one_gap [] Example.stat4 6 4 2 1 4 0 _ _).
  - vm_compute. reflexivity.
  - vm_compute. reflexivity.
Defined.
